(** * Adafruit_Video_Looper/image_player.py: the image player and its LRU cache

    A shallow embedding of [ImagePlayer] (src/Adafruit_Video_Looper/image_player.py)
    and the properties of its cache, its placement arithmetic and its timer.

    - Python [int] is [Z]; Python [float] is IEEE 754 binary64, taken from the
      Standard Library's [SpecFloat] (every operation computes).  The values
      of doubles are compared as real numbers in the proofs about scaling.
    - pygame is what the code sees of it: [Surface.fill] refuses a list that
      is no colour, [image.load] a file that is no image, [transform.scale]
      a negative size.
    - The [OrderedDict] is an association list in recency order, oldest first.
    - The methods mutate [self], the screen and the decoder; they are written
      in a state-and-exception monad.  The [while] loop of [_add_to_cache]
      takes fuel. *)

From Stdlib Require Import ZArith NArith List String Ascii Bool Lia.
From Stdlib Require Import Floats.SpecFloat.
From Stdlib Require Import Reals Lra.
Import ListNotations.
Local Open Scope Z_scope.

(** ** Python numbers *)

Inductive exn : Type :=
| ZeroDivisionError
| OverflowError
| ValueError
| KeyError
| pygame_error.

Module Py.

Definition float : Type := spec_float.
Definition prec : Z := 53.
Definition emax : Z := 1024.

Definition fdiv : float -> float -> float := SFdiv prec emax.
Definition fmul : float -> float -> float := SFmul prec emax.
Definition fsub : float -> float -> float := SFsub prec emax.
Definition flt : float -> float -> bool := SFltb.
Definition feq : float -> float -> bool := SFeqb.

(** The double nearest to an integer (ties to even); exact below 2^53. *)
Definition Z2F (n : Z) : float := binary_normalize prec emax n 0 false.

(** [float(n)]: "int too large to convert to float" past the largest double. *)
Definition float_of_int (n : Z) : exn + float :=
  match Z2F n with
  | S754_infinity _ => inl OverflowError
  | f => inr f
  end.

(** An int as a mantissa at exponent 0, whatever its size: no rounding. *)
Definition int_exact (n : Z) : float :=
  match n with
  | 0 => S754_zero false
  | Zpos p => S754_finite false p 0
  | Zneg p => S754_finite true p 0
  end.

(** [a / b] on two ints: the exact quotient of the two integers, rounded
    once to the nearest double (ties to even); "division by zero" for
    [b = 0], and "integer division result too large for a float" when the
    rounded quotient is past the largest double.  Neither int is converted
    to a double first, so nothing is lost on ints of 2^53 and above. *)
Definition int_truediv (a b : Z) : exn + float :=
  if b =? 0 then inl ZeroDivisionError
  else match fdiv (int_exact a) (int_exact b) with
       | S754_infinity _ => inl OverflowError
       | q => inr q
       end.

Definition is_zero (x : float) : bool :=
  match x with S754_zero _ => true | _ => false end.

(** [x / y] on two floats: "float division by zero", otherwise IEEE. *)
Definition float_truediv (x y : float) : exn + float :=
  if is_zero y then inl ZeroDivisionError else inr (fdiv x y).

(** [n / y] and [n * y] with [n] an int and [y] a float. *)
Definition int_div_float (n : Z) (y : float) : exn + float :=
  match float_of_int n with
  | inl e => inl e
  | inr x => float_truediv x y
  end.

Definition int_mul_float (n : Z) (y : float) : exn + float :=
  match float_of_int n with
  | inl e => inl e
  | inr x => inr (fmul x y)
  end.

(** [int(x)]: truncation toward zero. *)
Definition int_of_float (x : float) : exn + Z :=
  match x with
  | S754_nan => inl ValueError
  | S754_infinity _ => inl OverflowError
  | S754_zero _ => inr 0
  | S754_finite s m e => inr (cond_Zopp s (Z.shiftl (Zpos m) e))
  end.

(** [x < n] with [x] a float and [n] an int: CPython compares the two
    values exactly, without converting [n]. *)
Definition float_lt_int (x : float) (n : Z) : bool :=
  match x with
  | S754_nan => false
  | S754_infinity s => s
  | S754_zero _ => 0 <? n
  | S754_finite s m e =>
      if 0 <=? e then cond_Zopp s (Zpos m) * 2 ^ e <? n
      else cond_Zopp s (Zpos m) <? n * 2 ^ (- e)
  end.

(** A value that is an int or a float, as [_start_time] is. *)
Inductive num : Type :=
| PyInt (z : Z)
| PyFloat (f : float).

(** [x - y] with [x] a float. *)
Definition float_sub_num (x : float) (y : num) : exn + float :=
  match y with
  | PyFloat f => inr (fsub x f)
  | PyInt z =>
      match float_of_int z with
      | inl e => inl e
      | inr f => inr (fsub x f)
      end
  end.

(** [x - n] with [n] an int. *)
Definition num_sub_int (x : num) (n : Z) : exn + num :=
  match x with
  | PyInt a => inr (PyInt (a - n))
  | PyFloat f =>
      match float_of_int n with
      | inl e => inl e
      | inr g => inr (PyFloat (fsub f g))
      end
  end.

End Py.

(** ** pygame surfaces, the screen and the disk *)

(** A surface: the identity of the bitmap object, its pixel size and its
    bytes per pixel.  pygame never holds a negative dimension. *)
Record Surface : Type := mkSurface {
  surf_id : nat;
  surf_w : N;
  surf_h : N;
  surf_bytesize : N
}.

Definition get_size (s : Surface) : Z * Z := (Z.of_N (surf_w s), Z.of_N (surf_h s)).
Definition get_bytesize (s : Surface) : Z := Z.of_N (surf_bytesize s).

(** What reaches the display, in the order it is issued. *)
Inductive DrawEvent : Type :=
| Fill (color : list Z)
| Blit (src : Surface) (dest : Z * Z)
| Flip.

(** The lists of ints pygame takes for a colour: three or four channels,
    each from 0 to 255. *)
Definition valid_color (color : list Z) : bool :=
  ((List.length color =? 3)%nat || (List.length color =? 4)%nat)
  && forallb (fun c => (0 <=? c) && (c <=? 255)) color.

(** The files [os.path.isfile] and [pygame.image.load] see: a path is a
    regular file or not, and decodes to (width, height, bytes per pixel) or not. *)
Record Disk : Type := mkDisk {
  isfile : string -> bool;
  decode : string -> option (N * N * N)
}.

(** Everything outside the player object: the display, the paths handed to
    the decoder so far, and the next fresh bitmap identity. *)
Record World : Type := mkWorld {
  screen : list DrawEvent;
  loads : list string;
  next_id : nat
}.

(** ** collections.OrderedDict, oldest entry first *)

Module OrderedDict.

Definition t : Type := list (string * Surface).

Definition contains (k : string) (d : t) : bool :=
  existsb (fun kv => String.eqb k (fst kv)) d.

Fixpoint get (k : string) (d : t) : option Surface :=
  match d with
  | [] => None
  | (k', v) :: d' => if String.eqb k k' then Some v else get k d'
  end.

Fixpoint remove (k : string) (d : t) : t :=
  match d with
  | [] => []
  | (k', v) :: d' => if String.eqb k k' then d' else (k', v) :: remove k d'
  end.

(** [d.pop(k)] *)
Definition pop (k : string) (d : t) : option (Surface * t) :=
  match get k d with
  | Some v => Some (v, remove k d)
  | None => None
  end.

(** [d[k] = v]: an existing key keeps its position, a new one goes last. *)
Fixpoint setitem (k : string) (v : Surface) (d : t) : t :=
  match d with
  | [] => [(k, v)]
  | (k', v') :: d' =>
      if String.eqb k k' then (k, v) :: d' else (k', v') :: setitem k v d'
  end.

(** [d.popitem(last=False)] *)
Definition popitem_first (d : t) : option ((string * Surface) * t) :=
  match d with
  | [] => None
  | kv :: d' => Some (kv, d')
  end.

Definition keys (d : t) : list string := map fst d.

End OrderedDict.

(** ** The player object *)

Record Config : Type := mkConfig {
  cfg_duration : Z;
  cfg_cache_size_limit : Z;
  cfg_bgcolor : list Z;
  cfg_scale : bool;
  cfg_center : bool;
  cfg_wait_time : Z
}.

Record ImagePlayer : Type := mkImagePlayer {
  _duration : Z;
  _size : Z * Z;
  _bgcolor : list Z;
  _scale : bool;
  _center : bool;
  _wait_time : Z;
  _bgimage : option Surface * Z * Z;
  _loop : Z;
  _start_time : Py.num;
  _image_cache : OrderedDict.t;
  _cache_size_limit : Z;
  _current_cache_size : Z
}.

Definition set_loop (v : Z) (p : ImagePlayer) : ImagePlayer :=
  mkImagePlayer (_duration p) (_size p) (_bgcolor p) (_scale p) (_center p)
    (_wait_time p) (_bgimage p) v (_start_time p) (_image_cache p)
    (_cache_size_limit p) (_current_cache_size p).

Definition set_start_time (v : Py.num) (p : ImagePlayer) : ImagePlayer :=
  mkImagePlayer (_duration p) (_size p) (_bgcolor p) (_scale p) (_center p)
    (_wait_time p) (_bgimage p) (_loop p) v (_image_cache p)
    (_cache_size_limit p) (_current_cache_size p).

Definition set_image_cache (v : OrderedDict.t) (p : ImagePlayer) : ImagePlayer :=
  mkImagePlayer (_duration p) (_size p) (_bgcolor p) (_scale p) (_center p)
    (_wait_time p) (_bgimage p) (_loop p) (_start_time p) v
    (_cache_size_limit p) (_current_cache_size p).

Definition set_current_cache_size (v : Z) (p : ImagePlayer) : ImagePlayer :=
  mkImagePlayer (_duration p) (_size p) (_bgcolor p) (_scale p) (_center p)
    (_wait_time p) (_bgimage p) (_loop p) (_start_time p) (_image_cache p)
    (_cache_size_limit p) v.

(** [ImagePlayer.__init__] with [_load_config]; [display] is what
    [pygame.display.Info()] reports. *)
Definition init (config : Config) (display : Z * Z) (bgimage : option Surface * Z * Z)
  : ImagePlayer :=
  {| _duration := cfg_duration config;
     _size := display;
     _bgcolor := cfg_bgcolor config;
     _scale := cfg_scale config;
     _center := cfg_center config;
     _wait_time := cfg_wait_time config;
     _bgimage := bgimage;
     _loop := 0;
     _start_time := Py.PyInt 0;
     _image_cache := [];
     _cache_size_limit := cfg_cache_size_limit config * 1024 * 1024;
     _current_cache_size := 0 |}.

Definition create_player := init.

(** The playlist's image descriptor. *)
Record Image : Type := mkImage {
  filename : string;
  repeats : Z
}.

(** ** The monad of the methods: state, exceptions, fuel *)

Record State : Type := mkState {
  self : ImagePlayer;
  world : World
}.

Inductive result (A : Type) : Type :=
| Return (a : A)
| Raise (e : exn)
| OutOfFuel.
Arguments Return {A} a.
Arguments Raise {A} e.
Arguments OutOfFuel {A}.

Definition M (A : Type) : Type := State -> result A * State.

Definition ret {A} (a : A) : M A := fun s => (Return a, s).

Definition bind {A B} (m : M A) (f : A -> M B) : M B :=
  fun s =>
    match m s with
    | (Return a, s') => f a s'
    | (Raise e, s') => (Raise e, s')
    | (OutOfFuel, s') => (OutOfFuel, s')
    end.

Definition raise {A} (e : exn) : M A := fun s => (Raise e, s).
Definition out_of_fuel {A} : M A := fun s => (OutOfFuel, s).

Definition lift {A} (x : exn + A) : M A :=
  match x with
  | inl e => raise e
  | inr a => ret a
  end.

Definition get_self : M ImagePlayer := fun s => (Return (self s), s).

Definition modify_self (f : ImagePlayer -> ImagePlayer) : M unit :=
  fun s => (Return tt, mkState (f (self s)) (world s)).

Definition modify_world (f : World -> World) : M unit :=
  fun s => (Return tt, mkState (self s) (f (world s))).

Declare Scope monad_scope.
Delimit Scope monad_scope with monad.
Notation "x <- c1 ;; c2" := (bind c1 (fun x => c2))
  (at level 61, c1 at next level, right associativity) : monad_scope.
Notation "' pat <- c1 ;; c2" := (bind c1 (fun x => match x with pat => c2 end))
  (at level 61, pat pattern, c1 at next level, right associativity) : monad_scope.
Notation "c1 ;; c2" := (bind c1 (fun _ => c2))
  (at level 61, right associativity) : monad_scope.
Local Open Scope monad_scope.

(** Effects on the world. *)

Definition draw (e : DrawEvent) : M unit :=
  modify_world (fun w => mkWorld (screen w ++ [e]) (loads w) (next_id w)).

Definition fresh_id : M nat :=
  fun s =>
    let w := world s in
    (Return (next_id w), mkState (self s) (mkWorld (screen w) (loads w) (S (next_id w)))).

(** [Surface.fill(color)] on the screen: any other list than a colour is
    "ValueError: invalid color argument", and nothing is filled. *)
Definition pygame_surface_fill (color : list Z) : M unit :=
  if valid_color color then draw (Fill color) else raise ValueError.

(** [pygame.image.load(path)]: one decoder call, a new bitmap or pygame.error. *)
Definition pygame_image_load (disk : Disk) (path : string) : M Surface :=
  modify_world (fun w => mkWorld (screen w) (loads w ++ [path]) (next_id w)) ;;
  match decode disk path with
  | None => raise pygame_error
  | Some (w, h, b) => id <- fresh_id ;; ret (mkSurface id w h b)
  end.

(** [pygame.transform.scale(surface, (w, h))]: a new bitmap; the argument is
    left as it is.  A negative size is a ValueError. *)
Definition pygame_transform_scale (src : Surface) (size : Z * Z) : M Surface :=
  let (w, h) := size in
  if (w <? 0) || (h <? 0) then raise ValueError
  else id <- fresh_id ;; ret (mkSurface id (Z.to_N w) (Z.to_N h) (surf_bytesize src)).

(** ** The methods of ImagePlayer *)

(** [_get_image_size]: width * height * bytes per pixel. *)
Definition _get_image_size (pyimage : Surface) : Z :=
  let (width, height) := get_size pyimage in
  let depth := get_bytesize pyimage in
  width * height * depth.

(** [_evict_cache]: drop the least recently used entry, if there is one. *)
Definition _evict_cache : M unit :=
  p <- get_self ;;
  match OrderedDict.popitem_first (_image_cache p) with
  | Some ((_, evicted_image), rest) =>
      modify_self (set_image_cache rest) ;;
      modify_self (fun p => set_current_cache_size
                     (_current_cache_size p - _get_image_size evicted_image) p)
  | None => ret tt
  end.

(** The [while] loop of [_add_to_cache]; one unit of fuel per test of the
    condition. *)
Fixpoint evict_until_fits (fuel : nat) (image_size : Z) : M unit :=
  match fuel with
  | O => out_of_fuel
  | S fuel' =>
      p <- get_self ;;
      if _current_cache_size p + image_size >? _cache_size_limit p
      then _evict_cache ;; evict_until_fits fuel' image_size
      else ret tt
  end.

Definition _add_to_cache (fuel : nat) (image_path : string) (pyimage : Surface) : M unit :=
  let image_size := _get_image_size pyimage in
  evict_until_fits fuel image_size ;;
  modify_self (fun p => set_image_cache
                 (OrderedDict.setitem image_path pyimage (_image_cache p)) p) ;;
  modify_self (fun p => set_current_cache_size (_current_cache_size p + image_size) p).

Definition _load_image (disk : Disk) (fuel : nat) (image_path : string) : M Surface :=
  p <- get_self ;;
  if OrderedDict.contains image_path (_image_cache p) then
    match OrderedDict.pop image_path (_image_cache p) with
    | None => raise KeyError
    | Some (pyimage, rest) =>
        modify_self (set_image_cache rest) ;;
        modify_self (fun p => set_image_cache
                       (OrderedDict.setitem image_path pyimage (_image_cache p)) p) ;;
        ret pyimage
    end
  else
    pyimage <- pygame_image_load disk image_path ;;
    _add_to_cache fuel image_path pyimage ;;
    ret pyimage.

Definition _blank_screen (flip : bool) : M unit :=
  p <- get_self ;;
  pygame_surface_fill (_bgcolor p) ;;
  match _bgimage p with
  | (Some bg, x, y) => draw (Blit bg (x, y))
  | (None, _, _) => ret tt
  end ;;
  if flip then draw Flip else ret tt.

(** The body of the [if] in [play] (lines 96 to 125): blank, fetch, scale,
    centre, blit, flip. *)
Definition play_draw (disk : Disk) (fuel : nat) (image_path : string) : M unit :=
  _blank_screen false ;;
  pyimage <- _load_image disk fuel image_path ;;
  p <- get_self ;;
  let image_x := 0 in
  let image_y := 0 in
  let (screen_w, screen_h) := _size p in
  let (image_w, image_h) := get_size pyimage in
  let (new_image_w, new_image_h) := get_size pyimage in
  screen_aspect_ratio <- lift (Py.int_truediv screen_w screen_h) ;;
  photo_aspect_ratio <- lift (Py.int_truediv image_w image_h) ;;
  '(pyimage, new_image_w, new_image_h) <-
    (if _scale p then
       if Py.flt screen_aspect_ratio photo_aspect_ratio then
         let new_image_w := screen_w in
         q <- lift (Py.int_div_float new_image_w photo_aspect_ratio) ;;
         new_image_h <- lift (Py.int_of_float q) ;;
         pyimage <- pygame_transform_scale pyimage (new_image_w, new_image_h) ;;
         ret (pyimage, new_image_w, new_image_h)
       else if Py.flt photo_aspect_ratio screen_aspect_ratio then
         let new_image_h := screen_h in
         q <- lift (Py.int_mul_float new_image_h photo_aspect_ratio) ;;
         new_image_w <- lift (Py.int_of_float q) ;;
         pyimage <- pygame_transform_scale pyimage (new_image_w, new_image_h) ;;
         ret (pyimage, new_image_w, new_image_h)
       else
         pyimage <- pygame_transform_scale pyimage (screen_w, screen_h) ;;
         ret (pyimage, new_image_w, new_image_h)
     else ret (pyimage, new_image_w, new_image_h)) ;;
  let (image_x, image_y) :=
    if _center p then
      if Py.flt screen_aspect_ratio photo_aspect_ratio then
        (image_x, (screen_h - new_image_h) / 2)
      else if Py.flt photo_aspect_ratio screen_aspect_ratio then
        ((screen_w - new_image_w) / 2, image_y)
      else (image_x, image_y)
    else (image_x, image_y) in
  draw (Blit pyimage (image_x, image_y)) ;;
  draw Flip.

(** [play(image, loop)]; [now] is what [monotonic()] returns on line 127. *)
Definition play (disk : Disk) (fuel : nat) (image : Image) (loop : option Z)
    (now : Py.float) : M unit :=
  match loop with
  | None => modify_self (set_loop (repeats image))
  | Some l => modify_self (set_loop l)
  end ;;
  p <- get_self ;;
  (if _loop p =? 0 then modify_self (set_loop 1) else ret tt) ;;
  let image_path := filename image in
  (if negb (String.eqb image_path "") && isfile disk image_path
   then play_draw disk fuel image_path
   else ret tt) ;;
  modify_self (set_start_time (Py.PyFloat now)).

(** [is_playing()]; [now] is what [monotonic()] returns on line 136. *)
Definition is_playing (now : Py.float) : M bool :=
  p <- get_self ;;
  if _loop p <=? -1 then ret true
  else
    elapsed <- lift (Py.float_sub_num now (_start_time p)) ;;
    let playing := Py.float_lt_int elapsed (_duration p * _loop p) in
    (if negb playing && (_wait_time p >? 0) then _blank_screen true else ret tt) ;;
    ret playing.

(** [stop(block_timeout_sec)] *)
Definition stop (block_timeout_sec : Z) : M unit :=
  _blank_screen true ;;
  p <- get_self ;;
  t <- lift (Py.num_sub_int (_start_time p) (_duration p * _loop p)) ;;
  modify_self (set_start_time t).

Definition can_loop_count : bool := true.

(** ** Vocabulary of the properties *)

(** The bytes the cache holds, by [_get_image_size]. *)
Definition cache_bytes (d : OrderedDict.t) : Z :=
  fold_right (fun kv acc => _get_image_size (snd kv) + acc) 0 d.

(** The cache-state invariant: the counter is the sum of the entries' sizes,
    and it is within the limit unless a single entry alone exceeds the limit. *)
Definition size_is_sum (p : ImagePlayer) : Prop :=
  _current_cache_size p = cache_bytes (_image_cache p).

Definition within_limit (p : ImagePlayer) : Prop :=
  _current_cache_size p <= _cache_size_limit p
  \/ exists k v, _image_cache p = [(k, v)] /\ _cache_size_limit p < _get_image_size v.

Definition cache_invariant (p : ImagePlayer) : Prop :=
  size_is_sum p /\ within_limit p.

(** The bytes of a decoded geometry (width, height, bytes per pixel). *)
Definition geometry_bytes (g : N * N * N) : Z :=
  let '(wd, ht, b) := g in Z.of_N wd * Z.of_N ht * Z.of_N b.

(** The two cache operations a caller can issue. *)
Inductive cache_op : Type :=
| get_or_load (path : string)
| evict_one.

Definition run_op (disk : Disk) (fuel : nat) (o : cache_op) : M unit :=
  match o with
  | get_or_load path => _load_image disk fuel path ;; ret tt
  | evict_one => _evict_cache
  end.

(** A sequence of calls, each one completed (returned, or raised to the
    caller) before the next; [None] when a call runs out of fuel. *)
Fixpoint run_ops (disk : Disk) (fuel : nat) (ops : list cache_op) (s : State)
  : option State :=
  match ops with
  | [] => Some s
  | o :: ops' =>
      match run_op disk fuel o s with
      | (OutOfFuel, _) => None
      | (_, s') => run_ops disk fuel ops' s'
      end
  end.


(** The loop count [play] settles on. *)
Definition resolved_loop (image : Image) (loop : option Z) : Z :=
  match loop with
  | None => repeats image
  | Some l => l
  end.

Definition normalized_loop (image : Image) (loop : option Z) : Z :=
  if resolved_loop image loop =? 0 then 1 else resolved_loop image loop.

(** [play] skips the drawing: the filename is empty or names no file. *)
Definition nothing_to_draw (disk : Disk) (image : Image) : Prop :=
  filename image = ""%string \/ isfile disk (filename image) = false.

(** What [_blank_screen] sends to a display that takes the colour. *)
Definition blank_events (p : ImagePlayer) (flip : bool) : list DrawEvent :=
  [Fill (_bgcolor p)]
  ++ match _bgimage p with
     | (Some bg, x, y) => [Blit bg (x, y)]
     | (None, _, _) => []
     end
  ++ (if flip then [Flip] else []).

Definition drawn (evs : list DrawEvent) (w : World) : World :=
  mkWorld (screen w ++ evs) (loads w) (next_id w).

(** How [is_playing] ends once it has its answer: it returns the answer,
    except that an answer of False with a positive [_wait_time] redraws the
    background first, and that raises when pygame does not take the colour. *)
Definition answered (p : ImagePlayer) (playing : bool) : result bool :=
  if negb playing && (_wait_time p >? 0) && negb (valid_color (_bgcolor p))
  then Raise ValueError
  else Return playing.

(** The arithmetic of [play] between the fetch and the blit (lines 98 to 122),
    read off as a function of the two flags, the display size and the image
    size: the size handed to [pygame.transform.scale], if any, and the offsets
    of the blit.  [play_draw_valid] below shows that [play_draw] computes it. *)
Definition scaled_size (screen_w screen_h image_w image_h : Z)
    (screen_aspect_ratio photo_aspect_ratio : Py.float)
  : exn + ((Z * Z) * (Z * Z)) :=
  if Py.flt screen_aspect_ratio photo_aspect_ratio then
    match Py.int_div_float screen_w photo_aspect_ratio with
    | inl e => inl e
    | inr q =>
        match Py.int_of_float q with
        | inl e => inl e
        | inr new_image_h => inr ((screen_w, new_image_h), (screen_w, new_image_h))
        end
    end
  else if Py.flt photo_aspect_ratio screen_aspect_ratio then
    match Py.int_mul_float screen_h photo_aspect_ratio with
    | inl e => inl e
    | inr q =>
        match Py.int_of_float q with
        | inl e => inl e
        | inr new_image_w => inr ((new_image_w, screen_h), (new_image_w, screen_h))
        end
    end
  else inr ((screen_w, screen_h), (image_w, image_h)).

Definition centered (screen_w screen_h new_image_w new_image_h : Z)
    (screen_aspect_ratio photo_aspect_ratio : Py.float) : Z * Z :=
  if Py.flt screen_aspect_ratio photo_aspect_ratio then
    (0, (screen_h - new_image_h) / 2)
  else if Py.flt photo_aspect_ratio screen_aspect_ratio then
    ((screen_w - new_image_w) / 2, 0)
  else (0, 0).

Definition placement (scale center : bool) (size image_size : Z * Z)
  : exn + (option (Z * Z) * (Z * Z)) :=
  let (screen_w, screen_h) := size in
  let (image_w, image_h) := image_size in
  match Py.int_truediv screen_w screen_h with
  | inl e => inl e
  | inr screen_aspect_ratio =>
      match Py.int_truediv image_w image_h with
      | inl e => inl e
      | inr photo_aspect_ratio =>
          let offsets new_w new_h :=
            if center
            then centered screen_w screen_h new_w new_h
                   screen_aspect_ratio photo_aspect_ratio
            else (0, 0) in
          if scale then
            match scaled_size screen_w screen_h image_w image_h
                    screen_aspect_ratio photo_aspect_ratio with
            | inl e => inl e
            | inr (target, (new_w, new_h)) => inr (Some target, offsets new_w new_h)
            end
          else inr (None, offsets image_w image_h)
      end
  end.

(** The most recent blit on the display. *)
Fixpoint first_blit (evs : list DrawEvent) : option (Surface * (Z * Z)) :=
  match evs with
  | [] => None
  | Blit src dest :: _ => Some (src, dest)
  | _ :: evs' => first_blit evs'
  end.

Definition last_blit (evs : list DrawEvent) : option (Surface * (Z * Z)) :=
  first_blit (rev evs).

(** A blit lies wholly inside a display of the given size. *)
Definition fully_visible (size : Z * Z) (b : Surface * (Z * Z)) : Prop :=
  let (screen_w, screen_h) := size in
  let '(src, (x, y)) := b in
  let (w, h) := get_size src in
  0 <= x /\ 0 <= y /\ x + w <= screen_w /\ y + h <= screen_h.

(** What one call of [_evict_cache] does to the player. *)
Definition evicted (p : ImagePlayer) : ImagePlayer :=
  match _image_cache p with
  | [] => p
  | (_, evicted_image) :: rest =>
      set_current_cache_size (_current_cache_size p - _get_image_size evicted_image)
        (set_image_cache rest p)
  end.

(** What a cache hit does to the player: the entry moves to the recent end. *)
Definition promoted (image_path : string) (pyimage : Surface) (p : ImagePlayer)
  : ImagePlayer :=
  set_image_cache
    (OrderedDict.remove image_path (_image_cache p) ++ [(image_path, pyimage)]) p.

(** The attributes no cache operation writes. *)
Definition settings (p : ImagePlayer) :=
  (_duration p, _size p, _bgcolor p, _scale p, _center p, _wait_time p,
   _bgimage p, _loop p, _start_time p, _cache_size_limit p).

Definition same_settings (s s' : State) : Prop :=
  settings (self s') = settings (self s).

Definition same_screen (s s' : State) : Prop :=
  screen (world s') = screen (world s).

(** A computation keeps a property of the state whatever its outcome. *)
Definition keeps {A} (P : State -> State -> Prop) (m : M A) : Prop :=
  forall s, P s (snd (m s)).

(** The player once [pyimage] has been stored under [image_path]. *)
Definition inserted (image_path : string) (pyimage : Surface) (p : ImagePlayer)
  : ImagePlayer :=
  set_current_cache_size (_current_cache_size p + _get_image_size pyimage)
    (set_image_cache (OrderedDict.setitem image_path pyimage (_image_cache p)) p).

(** The world after one decoder call. *)
Definition after_load (image_path : string) (decoded : bool) (w : World) : World :=
  mkWorld (screen w) (loads w ++ [image_path])
    (if decoded then S (next_id w) else next_id w).

(** What every completed call keeps: the counter is the sum, keys are
    distinct, and the counter is within the limit. *)
Definition cache_ok (p : ImagePlayer) : Prop :=
  size_is_sum p
  /\ NoDup (OrderedDict.keys (_image_cache p))
  /\ _current_cache_size p <= _cache_size_limit p.

(** ** Concrete players, disks and clocks for the examples *)

(** A disk holding the listed image files, each with its decoded geometry. *)
Definition disk_of (files : list (string * (N * N * N))) : Disk :=
  mkDisk
    (fun path => existsb (fun f => String.eqb path (fst f)) files)
    (fun path =>
       match find (fun f => String.eqb path (fst f)) files with
       | Some f => Some (snd f)
       | None => None
       end).

Definition demo_disk : Disk :=
  disk_of [ ("a.png", (512, 256, 4)); ("b.png", (512, 256, 4)); ("c.png", (512, 256, 4));
            ("wide.png", (1000, 500, 4)); ("tall.png", (400, 800, 4));
            ("large.png", (1000, 1000, 4)); ("huge.png", (1024, 1024, 4)) ]%N%string.

(** A player on an 800 x 600 display, 10 seconds per loop, no background
    image, with the given cache limit in megabytes. *)
Definition demo_player (limit_mb : Z) (scale center : bool) : ImagePlayer :=
  init (mkConfig 10 limit_mb [0; 0; 0] scale center 0) (800, 600) (None, 0, 0).

Definition fresh_world : World := mkWorld [] [] 0.

Definition demo_ops : list cache_op :=
  [ get_or_load "a.png"; get_or_load "b.png"; evict_one; get_or_load "c.png";
    get_or_load "b.png"; get_or_load "missing.png"; get_or_load "c.png" ]%string.

(** ** Vocabulary of binary64 arithmetic *)

(** Neither infinite nor NaN. *)
Definition is_number (x : Py.float) : bool :=
  match x with
  | S754_nan | S754_infinity _ => false
  | _ => true
  end.

(** The real value of a mantissa and an exponent. *)
Definition bpow (e : Z) : R := powerRZ 2 e.
Definition F2R (m e : Z) : R := (IZR m * bpow e)%R.

(** The locations at which rounding to nearest even may go up. *)
Definition rounds_up (l : location) : Prop := l = loc_Inexact Eq \/ l = loc_Inexact Gt.

(** [r] is [X] rounded to a neighbouring double: no double with a full
    mantissa lies strictly between the two. *)
Definition rounds_to (X : R) (r : R) : Prop :=
  forall mf ef,
    digits2_pos mf = 53%positive ->
    ((X <= F2R (Zpos mf) ef)%R -> (r <= F2R (Zpos mf) ef)%R)
    /\ ((F2R (Zpos mf) ef <= X)%R -> (F2R (Zpos mf) ef <= r)%R).

(** A positive double with a full 53-bit mantissa. *)
Definition normal (x : Py.float) (m : positive) (e : Z) : Prop :=
  x = S754_finite false m e /\ digits2_pos m = 53%positive.

(** ** The extensions setting of [_load_config] *)

(** The two [str] methods of line 26, for a single-character argument. *)
Module Str.

Definition dot : ascii := "."%char.
Definition comma : ascii := ","%char.

(** [s.replace(old, new)] *)
Fixpoint replace (old : ascii) (new : string) (s : string) : string :=
  match s with
  | EmptyString => EmptyString
  | String c s' =>
      if Ascii.eqb c old then new ++ replace old new s'
      else String c (replace old new s')
  end%string.

(** [s.split(sep)]: one more field than there are separators, empty fields
    kept. *)
Fixpoint split (sep : ascii) (s : string) : list string :=
  match s with
  | EmptyString => [EmptyString]
  | String c s' =>
      if Ascii.eqb c sep then EmptyString :: split sep s'
      else match split sep s' with
           | [] => [String c EmptyString]
           | field :: fields => String c field :: fields
           end
  end.

(** [c in s] *)
Fixpoint contains (c : ascii) (s : string) : bool :=
  match s with
  | EmptyString => false
  | String c' s' => Ascii.eqb c' c || contains c s'
  end.

(** [s.count(c)] *)
Fixpoint count (c : ascii) (s : string) : nat :=
  match s with
  | EmptyString => O
  | String c' s' => (if Ascii.eqb c' c then 1 else 0) + count c s'
  end.

End Str.

(** Line 26 of [_load_config]: the extensions setting with its dots removed,
    cut at the commas. *)
Definition _extensions (setting : string) : list string :=
  Str.split Str.comma (Str.replace Str.dot "" setting).

(** ** The calls of the video looper *)

Inductive call : Type :=
| call_play (image : Image) (loop : option Z) (now : Py.float)
| call_is_playing (now : Py.float)
| call_stop (block_timeout_sec : Z).

Definition run_call (disk : Disk) (fuel : nat) (c : call) : M unit :=
  match c with
  | call_play image loop now => play disk fuel image loop now
  | call_is_playing now => is_playing now ;; ret tt
  | call_stop block_timeout_sec => stop block_timeout_sec
  end.

(** A sequence of calls, each one completed (returned, or raised to the
    caller) before the next; [None] when a call runs out of fuel. *)
Fixpoint run_calls (disk : Disk) (fuel : nat) (calls : list call) (s : State)
  : option State :=
  match calls with
  | [] => Some s
  | c :: calls' =>
      match run_call disk fuel c s with
      | (OutOfFuel, _) => None
      | (_, s') => run_calls disk fuel calls' s'
      end
  end.

(** Every cached bitmap has the geometry the decoder gives for its path. *)
Definition cache_matches_disk (disk : Disk) (p : ImagePlayer) : Prop :=
  forall k v, In (k, v) (_image_cache p) ->
    decode disk k = Some (surf_w v, surf_h v, surf_bytesize v).

(** The three attributes of the cache. *)
Definition cache_state (p : ImagePlayer) :=
  (_image_cache p, _current_cache_size p, _cache_size_limit p).

(** The bytes a file takes in the cache: those of its decoded bitmap, none
    when it does not decode. *)
Definition file_bytes (disk : Disk) (path : string) : Z :=
  match decode disk path with
  | Some g => geometry_bytes g
  | None => 0
  end.

Definition playlist_bytes (disk : Disk) (files : list string) : Z :=
  fold_right (fun f acc => file_bytes disk f + acc) 0 files.

(** How often the decoder has been handed [path]. *)
Definition decoded (path : string) (w : World) : nat :=
  count_occ string_dec (loads w) path.

(** 1 when [path] is in the cache, 0 when it is not. *)
Definition cached (path : string) (p : ImagePlayer) : nat :=
  if OrderedDict.contains path (_image_cache p) then 1%nat else 0%nat.

(** What holds between two fetches while the whole playlist fits. *)
Definition playlist_fits (disk : Disk) (files : list string) (p : ImagePlayer) : Prop :=
  NoDup (OrderedDict.keys (_image_cache p))
  /\ size_is_sum p
  /\ cache_matches_disk disk p
  /\ incl (OrderedDict.keys (_image_cache p)) files
  /\ playlist_bytes disk files <= _cache_size_limit p.

(** A clock reading that is not below zero. *)
Definition not_negative (x : Py.float) : bool :=
  match x with
  | S754_infinity true | S754_finite true _ _ => false
  | _ => true
  end.

(** ** More players, disks and calls for the examples *)

Definition demo_calls : list call :=
  [ call_is_playing (Py.Z2F 1);
    call_play (mkImage "wide.png" 1) None (Py.Z2F 2);
    call_is_playing (Py.Z2F 3);
    call_stop 0;
    call_play (mkImage "tall.png" 2) None (Py.Z2F 4);
    call_play (mkImage "missing.png" 1) None (Py.Z2F 5);
    call_play (mkImage "wide.png" 1) (Some (-1)) (Py.Z2F 6);
    call_play (mkImage "a.png" 1) None (Py.Z2F 7) ]%string.

(** [demo_disk] with one more file, which exists and is no image. *)
Definition demo_disk_with_notes : Disk :=
  mkDisk (fun path => String.eqb path "notes.txt" || isfile demo_disk path)
         (decode demo_disk).

(** A disk with one small portrait image, 11 x 15 pixels. *)
Definition thumb_disk : Disk := disk_of [ ("thumb.png"%string, (11, 15, 4)%N) ].

(** ** Vocabulary of rounding errors *)

(** [r] is [X] with a relative error of at most 2^-52. *)
Definition close_to (X r : R) : Prop :=
  (X * (1 - bpow (-52)) <= r <= X * (1 + bpow (-52)))%R.

(** Where a real lies between an integer and its successor. *)
Definition located (Y : R) (m : Z) (l : location) : Prop :=
  match l with
  | loc_Exact => Y = IZR m
  | loc_Inexact Lt => (IZR m < Y < IZR m + / 2)%R
  | loc_Inexact Eq => Y = (IZR m + / 2)%R
  | loc_Inexact Gt => (IZR m + / 2 < Y < IZR m + 1)%R
  end.

(** The real value of a double that is a number. *)
Definition val (x : Py.float) : R :=
  match x with
  | S754_finite s m e => F2R (cond_Zopp s (Zpos m)) e
  | _ => 0%R
  end.

(** What [binary_round_aux] does once the mantissa has 53 bits. *)
Definition round_located (m e : Z) (l : location) : spec_float :=
  let '(mrs, e') := shr_fexp 53 1024 (round_nearest_even m l) e loc_Exact in
  match shr_m mrs with
  | 0 => S754_zero false
  | Zpos m' => if e' <=? 1024 - 53 then S754_finite false m' e' else S754_infinity false
  | Zneg _ => S754_nan
  end.

(** The end of [binary_round_aux]: the rounded mantissa brought back to 53
    bits, then zero, a finite double, or an overflow. *)
Definition finish (sx : bool) (m1 fe : Z) : spec_float :=
  let '(mrs, e') := shr_fexp 53 1024 m1 fe loc_Exact in
  match shr_m mrs with
  | 0 => S754_zero sx
  | Zpos m => if e' <=? 1024 - 53 then S754_finite sx m e' else S754_infinity sx
  | Zneg _ => S754_nan
  end.

(** A clock reading as a double holds it: zero, or a mantissa below 2^53 at
    an exponent of at least -1074. *)
Definition is_double (x : Py.float) : bool :=
  match x with
  | S754_zero _ => true
  | S754_finite _ m e => (Zpos m <? 2 ^ 53) && (-1074 <=? e)
  | _ => false
  end.

(** ** The monad: inversion and preservation *)

Lemma bind_Return {A B} (m : M A) (f : A -> M B) s a s1 :
  m s = (Return a, s1) -> bind m f s = f a s1.
Proof. unfold bind; intros ->; reflexivity. Qed.

Lemma bind_Raise {A B} (m : M A) (f : A -> M B) s e s1 :
  m s = (Raise e, s1) -> bind m f s = (Raise e, s1).
Proof. unfold bind; intros ->; reflexivity. Qed.

Lemma bind_OutOfFuel {A B} (m : M A) (f : A -> M B) s s1 :
  m s = (OutOfFuel, s1) -> bind m f s = (OutOfFuel, s1).
Proof. unfold bind; intros ->; reflexivity. Qed.

Lemma bind_Return_inv {A B} (m : M A) (f : A -> M B) s b s' :
  bind m f s = (Return b, s') ->
  exists a s1, m s = (Return a, s1) /\ f a s1 = (Return b, s').
Proof.
  unfold bind; destruct (m s) as [[a | e |] s1]; intros H; try discriminate.
  exists a, s1; auto.
Qed.

Section Keeps.
Variable P : State -> State -> Prop.
Hypothesis P_refl : forall s, P s s.
Hypothesis P_trans : forall s1 s2 s3, P s1 s2 -> P s2 s3 -> P s1 s3.

Lemma keeps_ret {A} (a : A) : keeps P (ret a).
Proof. intros s; apply P_refl. Qed.

Lemma keeps_raise {A} (e : exn) : keeps P (@raise A e).
Proof. intros s; apply P_refl. Qed.

Lemma keeps_out_of_fuel {A} : keeps P (@out_of_fuel A).
Proof. intros s; apply P_refl. Qed.

Lemma keeps_lift {A} (x : exn + A) : keeps P (lift x).
Proof. destruct x; [apply keeps_raise | apply keeps_ret]. Qed.

Lemma keeps_get_self : keeps P get_self.
Proof. intros s; apply P_refl. Qed.

Lemma keeps_bind {A B} (m : M A) (f : A -> M B) :
  keeps P m -> (forall a, keeps P (f a)) -> keeps P (bind m f).
Proof.
  intros Hm Hf s. unfold bind. specialize (Hm s).
  destruct (m s) as [[a | e |] s1]; simpl in *; auto.
  eapply P_trans; [exact Hm | apply Hf].
Qed.
End Keeps.

(** ** The ordered dictionary *)

Lemma contains_get k d :
  OrderedDict.contains k d = true <-> exists v, OrderedDict.get k d = Some v.
Proof.
  induction d as [| [k' v'] d IH]; simpl.
  - split; [discriminate | intros [v H]; discriminate].
  - destruct (String.eqb k k'); simpl.
    + split; eauto.
    + exact IH.
Qed.

Lemma contains_In k d :
  OrderedDict.contains k d = true <-> In k (OrderedDict.keys d).
Proof.
  induction d as [| [k' v'] d IH]; simpl.
  - split; [discriminate | tauto].
  - destruct (String.eqb_spec k k') as [-> | Hne]; simpl.
    + tauto.
    + rewrite IH. split; [tauto | intros [H | H]; [congruence | exact H]].
Qed.

Lemma setitem_new k v d :
  OrderedDict.contains k d = false -> OrderedDict.setitem k v d = d ++ [(k, v)].
Proof.
  induction d as [| [k' v'] d IH]; simpl; [reflexivity |].
  destruct (String.eqb k k'); simpl; [discriminate |].
  intros H; rewrite IH by exact H; reflexivity.
Qed.

Lemma keys_remove_subset k k0 d :
  In k0 (OrderedDict.keys (OrderedDict.remove k d)) -> In k0 (OrderedDict.keys d).
Proof.
  induction d as [| [k' v'] d IH]; simpl; [tauto |].
  destruct (String.eqb k k'); simpl; tauto.
Qed.

Lemma remove_NoDup k d :
  NoDup (OrderedDict.keys d) -> NoDup (OrderedDict.keys (OrderedDict.remove k d)).
Proof.
  induction d as [| [k' v'] d IH]; simpl; [auto |].
  intros H; inversion H as [| ? ? Hnin Hnd]; subst.
  destruct (String.eqb k k'); simpl; [exact Hnd |].
  constructor; [| auto].
  intros Hin; apply Hnin; eapply keys_remove_subset; eassumption.
Qed.

Lemma remove_not_contains k d :
  NoDup (OrderedDict.keys d) ->
  OrderedDict.contains k (OrderedDict.remove k d) = false.
Proof.
  induction d as [| [k' v'] d IH]; simpl; [reflexivity |].
  intros H; inversion H as [| ? ? Hnin Hnd]; subst.
  destruct (String.eqb_spec k k') as [-> | Hne]; simpl.
  - destruct (OrderedDict.contains k' d) eqn:E; [| reflexivity].
    apply contains_In in E; contradiction.
  - destruct (String.eqb_spec k k'); [contradiction | simpl; auto].
Qed.

Lemma keys_app d1 d2 :
  OrderedDict.keys (d1 ++ d2) = OrderedDict.keys d1 ++ OrderedDict.keys d2.
Proof. apply map_app. Qed.

Lemma append_NoDup k v d :
  NoDup (OrderedDict.keys d) -> OrderedDict.contains k d = false ->
  NoDup (OrderedDict.keys (d ++ [(k, v)])).
Proof.
  intros Hnd Hc. rewrite keys_app; simpl.
  apply NoDup_app; [exact Hnd | repeat constructor; simpl; tauto |].
  intros x Hin [<- | []].
  apply contains_In in Hin; congruence.
Qed.

(** ** Sizes *)

Lemma get_image_size_nonneg v : 0 <= _get_image_size v.
Proof. unfold _get_image_size, get_size, get_bytesize; simpl. nia. Qed.

Lemma cache_bytes_nonneg d : 0 <= cache_bytes d.
Proof.
  induction d as [| kv d IH]; simpl; [lia |].
  pose proof (get_image_size_nonneg (snd kv)); lia.
Qed.

Lemma cache_bytes_app d1 d2 : cache_bytes (d1 ++ d2) = cache_bytes d1 + cache_bytes d2.
Proof. induction d1 as [| kv d1 IH]; simpl; lia. Qed.

Lemma cache_bytes_remove k v d :
  OrderedDict.get k d = Some v ->
  cache_bytes (OrderedDict.remove k d) = cache_bytes d - _get_image_size v.
Proof.
  induction d as [| [k' v'] d IH]; simpl; [discriminate |].
  destruct (String.eqb k k'); simpl.
  - intros [= ->]; lia.
  - intros H; rewrite IH by exact H; lia.
Qed.

(** ** Eviction *)

Lemma evict_cache_eq p w :
  _evict_cache (mkState p w) = (Return tt, mkState (evicted p) w).
Proof.
  unfold _evict_cache, evicted, bind, get_self, modify_self, ret; simpl.
  destruct (_image_cache p) as [| [k v] rest]; reflexivity.
Qed.

Lemma evicted_settings p : settings (evicted p) = settings p.
Proof. unfold evicted; destruct (_image_cache p) as [| [k v] rest]; reflexivity. Qed.

Lemma evicted_size_is_sum p : size_is_sum p -> size_is_sum (evicted p).
Proof.
  unfold size_is_sum, evicted.
  destruct (_image_cache p) as [| [k v] rest] eqn:E; simpl; [rewrite E; auto |].
  intros ->; lia.
Qed.

Lemma evicted_NoDup p :
  NoDup (OrderedDict.keys (_image_cache p)) ->
  NoDup (OrderedDict.keys (_image_cache (evicted p))).
Proof.
  unfold evicted. destruct (_image_cache p) as [| [k v] rest] eqn:E; simpl.
  - rewrite E; auto.
  - intros H; inversion H; assumption.
Qed.

Lemma evicted_contains k p :
  OrderedDict.contains k (_image_cache p) = false ->
  OrderedDict.contains k (_image_cache (evicted p)) = false.
Proof.
  unfold evicted. destruct (_image_cache p) as [| [k' v] rest] eqn:E; simpl.
  - rewrite E; auto.
  - intros H; apply orb_false_elim in H; tauto.
Qed.

Lemma evicted_size_le p :
  _current_cache_size (evicted p) <= _current_cache_size p.
Proof.
  unfold evicted. destruct (_image_cache p) as [| [k' v] rest]; simpl; [lia |].
  pose proof (get_image_size_nonneg v); lia.
Qed.

Lemma evicted_length p :
  List.length (_image_cache (evicted p)) = pred (List.length (_image_cache p)).
Proof.
  unfold evicted. destruct (_image_cache p) as [| [k' v] rest] eqn:E; simpl; auto.
  rewrite E; reflexivity.
Qed.

Lemma evicted_limit p : _cache_size_limit (evicted p) = _cache_size_limit p.
Proof. unfold evicted; destruct (_image_cache p) as [| [k v] rest]; reflexivity. Qed.

(** [n] evictions in a row. *)
Lemma iter_evicted_settings n p : settings (Nat.iter n evicted p) = settings p.
Proof. induction n; simpl; [reflexivity | rewrite evicted_settings; exact IHn]. Qed.

Lemma iter_evicted_size_is_sum n p :
  size_is_sum p -> size_is_sum (Nat.iter n evicted p).
Proof. induction n; simpl; auto using evicted_size_is_sum. Qed.

Lemma iter_evicted_NoDup n p :
  NoDup (OrderedDict.keys (_image_cache p)) ->
  NoDup (OrderedDict.keys (_image_cache (Nat.iter n evicted p))).
Proof. induction n; simpl; auto using evicted_NoDup. Qed.

Lemma iter_evicted_contains n k p :
  OrderedDict.contains k (_image_cache p) = false ->
  OrderedDict.contains k (_image_cache (Nat.iter n evicted p)) = false.
Proof. induction n; simpl; auto using evicted_contains. Qed.

Lemma evicted_cache p : _image_cache (evicted p) = tl (_image_cache p).
Proof.
  unfold evicted. destruct (_image_cache p) as [| [k v] rest] eqn:E; simpl; auto.
Qed.

Lemma iter_evicted_comm n p :
  Nat.iter n evicted (evicted p) = evicted (Nat.iter n evicted p).
Proof. induction n; simpl; congruence. Qed.

(** Evictions take entries from the old end of the recency order. *)
Lemma iter_evicted_skipn n p :
  _image_cache (Nat.iter n evicted p) = skipn n (_image_cache p).
Proof.
  revert p; induction n as [| n IH]; intros p; [reflexivity |].
  simpl Nat.iter. rewrite <- iter_evicted_comm, IH, evicted_cache.
  destruct (_image_cache p); simpl; [apply skipn_nil | reflexivity].
Qed.

Lemma iter_evicted_limit n p :
  _cache_size_limit (Nat.iter n evicted p) = _cache_size_limit p.
Proof.
  pose proof (iter_evicted_settings n p) as H. unfold settings in H.
  injection H; auto.
Qed.

(** The loop is a run of evictions: it returns once the new image fits, and
    otherwise the fuel runs out.  It never raises and never touches the world. *)
Lemma evict_until_fits_step fuel image_size p w :
  evict_until_fits (S fuel) image_size (mkState p w) =
  if _current_cache_size p + image_size >? _cache_size_limit p
  then evict_until_fits fuel image_size (mkState (evicted p) w)
  else (Return tt, mkState p w).
Proof.
  simpl. unfold bind at 1, get_self; simpl.
  destruct (_ >? _); [| reflexivity].
  unfold bind. rewrite evict_cache_eq. reflexivity.
Qed.

Lemma evict_until_fits_run fuel image_size p w :
  exists n,
    let p' := Nat.iter n evicted p in
    (evict_until_fits fuel image_size (mkState p w) = (Return tt, mkState p' w)
     /\ _current_cache_size p' + image_size <= _cache_size_limit p)
    \/ evict_until_fits fuel image_size (mkState p w) = (OutOfFuel, mkState p' w).
Proof.
  revert p. induction fuel as [| fuel IH]; intros p.
  - exists 0%nat; right; reflexivity.
  - rewrite evict_until_fits_step.
    destruct (_ >? _) eqn:E.
    + destruct (IH (evicted p)) as [n Hn]. exists (S n).
      simpl Nat.iter. rewrite <- iter_evicted_comm.
      rewrite evicted_limit in Hn; exact Hn.
    + exists 0%nat; left; simpl. split; [reflexivity | lia].
Qed.

Lemma evict_until_fits_oversized fuel image_size p w :
  size_is_sum p -> _cache_size_limit p < image_size ->
  exists n, evict_until_fits fuel image_size (mkState p w)
            = (OutOfFuel, mkState (Nat.iter n evicted p) w).
Proof.
  intros Hsum Hbig.
  destruct (evict_until_fits_run fuel image_size p w) as [n [[_ Hfit] | Hout]].
  - exfalso. simpl in Hfit.
    pose proof (iter_evicted_size_is_sum n p Hsum) as Hsum'. red in Hsum'.
    pose proof (cache_bytes_nonneg (_image_cache (Nat.iter n evicted p))). lia.
  - exists n; exact Hout.
Qed.

Lemma evict_until_fits_returns fuel image_size p w :
  size_is_sum p -> image_size <= _cache_size_limit p ->
  (List.length (_image_cache p) < fuel)%nat ->
  exists n, evict_until_fits fuel image_size (mkState p w)
            = (Return tt, mkState (Nat.iter n evicted p) w)
            /\ _current_cache_size (Nat.iter n evicted p) + image_size
               <= _cache_size_limit p.
Proof.
  revert p. induction fuel as [| fuel IH]; intros p Hsum Hfit Hlen; [lia |].
  rewrite evict_until_fits_step.
  destruct (_ >? _) eqn:E.
  - destruct (_image_cache p) as [| kv rest] eqn:Ec.
    + red in Hsum. rewrite Ec in Hsum; simpl in Hsum. lia.
    + destruct (IH (evicted p)) as [n [Hrun Hle]].
      * apply evicted_size_is_sum; exact Hsum.
      * rewrite evicted_limit; exact Hfit.
      * rewrite evicted_length, Ec. simpl in *. lia.
      * exists (S n). simpl Nat.iter. rewrite <- iter_evicted_comm.
        rewrite evicted_limit in Hle. auto.
  - exists 0%nat; simpl. split; [reflexivity | lia].
Qed.

(** ** Insertion and lookup *)

Lemma add_to_cache_run fuel image_path pyimage p w :
  exists n,
    let p' := Nat.iter n evicted p in
    (_add_to_cache fuel image_path pyimage (mkState p w)
       = (Return tt, mkState (inserted image_path pyimage p') w)
     /\ _current_cache_size p' + _get_image_size pyimage <= _cache_size_limit p)
    \/ _add_to_cache fuel image_path pyimage (mkState p w) = (OutOfFuel, mkState p' w).
Proof.
  unfold _add_to_cache.
  destruct (evict_until_fits_run fuel (_get_image_size pyimage) p w)
    as [n [[Hrun Hfit] | Hout]]; exists n; simpl.
  - left. split; [| exact Hfit].
    erewrite bind_Return by exact Hrun. reflexivity.
  - right. erewrite bind_OutOfFuel by exact Hout. reflexivity.
Qed.

Lemma image_load_ok disk image_path p w wd ht b :
  decode disk image_path = Some (wd, ht, b) ->
  pygame_image_load disk image_path (mkState p w)
  = (Return (mkSurface (next_id w) wd ht b), mkState p (after_load image_path true w)).
Proof.
  intros H. unfold pygame_image_load, bind, modify_world; simpl. rewrite H. reflexivity.
Qed.

Lemma image_load_error disk image_path p w :
  decode disk image_path = None ->
  pygame_image_load disk image_path (mkState p w)
  = (Raise pygame_error, mkState p (after_load image_path false w)).
Proof.
  intros H. unfold pygame_image_load, bind, modify_world; simpl. rewrite H. reflexivity.
Qed.

Lemma load_image_hit disk fuel image_path pyimage p w :
  NoDup (OrderedDict.keys (_image_cache p)) ->
  OrderedDict.get image_path (_image_cache p) = Some pyimage ->
  _load_image disk fuel image_path (mkState p w)
  = (Return pyimage, mkState (promoted image_path pyimage p) w).
Proof.
  intros Hnd Hget. unfold _load_image, bind at 1, get_self; simpl.
  assert (Hc : OrderedDict.contains image_path (_image_cache p) = true)
    by (apply contains_get; eauto).
  rewrite Hc. unfold OrderedDict.pop. rewrite Hget.
  unfold bind, modify_self, ret, promoted; simpl.
  rewrite setitem_new by (apply remove_not_contains; exact Hnd).
  reflexivity.
Qed.

Lemma load_image_miss disk fuel image_path p w :
  OrderedDict.contains image_path (_image_cache p) = false ->
  _load_image disk fuel image_path (mkState p w)
  = (pyimage <- pygame_image_load disk image_path ;;
     _add_to_cache fuel image_path pyimage ;;
     ret pyimage) (mkState p w).
Proof.
  intros Hc. unfold _load_image, bind at 1, get_self; simpl. rewrite Hc. reflexivity.
Qed.

Lemma load_image_miss_error disk fuel image_path p w :
  OrderedDict.contains image_path (_image_cache p) = false ->
  decode disk image_path = None ->
  _load_image disk fuel image_path (mkState p w)
  = (Raise pygame_error, mkState p (after_load image_path false w)).
Proof.
  intros Hc Hd. rewrite load_image_miss by exact Hc.
  erewrite bind_Raise by (apply image_load_error; exact Hd). reflexivity.
Qed.

Lemma load_image_miss_run disk fuel image_path p w wd ht b :
  OrderedDict.contains image_path (_image_cache p) = false ->
  decode disk image_path = Some (wd, ht, b) ->
  let pyimage := mkSurface (next_id w) wd ht b in
  let w' := after_load image_path true w in
  exists n,
    let p' := Nat.iter n evicted p in
    (_load_image disk fuel image_path (mkState p w)
       = (Return pyimage, mkState (inserted image_path pyimage p') w')
     /\ _current_cache_size p' + _get_image_size pyimage <= _cache_size_limit p)
    \/ _load_image disk fuel image_path (mkState p w) = (OutOfFuel, mkState p' w').
Proof.
  intros Hc Hd pyimage w'. rewrite load_image_miss by exact Hc.
  erewrite bind_Return by (apply image_load_ok; exact Hd). fold pyimage w'.
  destruct (add_to_cache_run fuel image_path pyimage p w') as [n [[Hrun Hfit] | Hout]];
    exists n; simpl.
  - left. split; [| exact Hfit].
    erewrite bind_Return by exact Hrun. reflexivity.
  - right. erewrite bind_OutOfFuel by exact Hout. reflexivity.
Qed.

(** A miss on an image that fits within the limit returns, given more fuel
    than the cache has entries. *)
Lemma load_image_miss_returns disk fuel image_path p w wd ht b :
  size_is_sum p ->
  OrderedDict.contains image_path (_image_cache p) = false ->
  decode disk image_path = Some (wd, ht, b) ->
  _get_image_size (mkSurface (next_id w) wd ht b) <= _cache_size_limit p ->
  (List.length (_image_cache p) < fuel)%nat ->
  exists p', _load_image disk fuel image_path (mkState p w)
             = (Return (mkSurface (next_id w) wd ht b),
                mkState p' (after_load image_path true w)).
Proof.
  intros Hsum Hc Hd Hfit Hfuel. rewrite load_image_miss by exact Hc.
  erewrite bind_Return by (apply image_load_ok; exact Hd).
  unfold _add_to_cache.
  destruct (evict_until_fits_returns fuel _ p (after_load image_path true w)
              Hsum Hfit Hfuel) as [n [Hrun _]].
  eexists. erewrite bind_Return.
  2:{ erewrite bind_Return by exact Hrun. reflexivity. }
  reflexivity.
Qed.

(** C1 (the code departs from the claim).  A cache miss on an image whose own
    size exceeds the cache limit never returns: the loop of [_add_to_cache]
    keeps asking [_evict_cache] for room, also once the cache is empty, so with
    any amount of fuel the call is still running and the image is never
    stored.  It holds from every cache state whose counter is the sum of its
    entries. *)
Theorem load_oversized_image_never_returns :
  forall disk fuel image_path p w wd ht b,
    size_is_sum p ->
    OrderedDict.contains image_path (_image_cache p) = false ->
    decode disk image_path = Some (wd, ht, b) ->
    _cache_size_limit p < _get_image_size (mkSurface (next_id w) wd ht b) ->
    fst (_load_image disk fuel image_path (mkState p w)) = OutOfFuel.
Proof.
  intros disk fuel image_path p w wd ht b Hsum Hc Hd Hbig.
  rewrite load_image_miss by exact Hc.
  erewrite bind_Return by (apply image_load_ok; exact Hd).
  unfold _add_to_cache.
  destruct (evict_until_fits_oversized fuel _ p (after_load image_path true w)
              Hsum Hbig) as [n Hout].
  erewrite bind_OutOfFuel; [reflexivity |].
  erewrite bind_OutOfFuel by exact Hout. reflexivity.
Qed.

(** A 1024 x 1024 image of 4 bytes per pixel (4 MiB) against a 1 MiB cache. *)
Lemma load_oversized_image_never_returns_witness :
  fst (_load_image demo_disk 1000 "huge.png"
         (mkState (demo_player 1 true true) fresh_world)) = OutOfFuel.
Proof.
  apply (load_oversized_image_never_returns demo_disk 1000 "huge.png"
           (demo_player 1 true true) fresh_world 1024 1024 4).
  - reflexivity.
  - reflexivity.
  - reflexivity.
  - vm_compute; reflexivity.
Defined.

(** ** The cache invariant *)

Lemma cache_ok_init config display bgimage :
  0 <= cfg_cache_size_limit config -> cache_ok (init config display bgimage).
Proof.
  intros H. unfold cache_ok, size_is_sum; simpl.
  repeat split; [constructor | lia].
Qed.

Lemma cache_ok_evicted p : cache_ok p -> cache_ok (evicted p).
Proof.
  intros (Hsum & Hnd & Hle). repeat split.
  - apply evicted_size_is_sum; exact Hsum.
  - apply evicted_NoDup; exact Hnd.
  - rewrite evicted_limit. pose proof (evicted_size_le p). lia.
Qed.

Lemma cache_ok_promoted k v p :
  cache_ok p -> OrderedDict.get k (_image_cache p) = Some v ->
  cache_ok (promoted k v p).
Proof.
  intros (Hsum & Hnd & Hle) Hget. unfold cache_ok, size_is_sum, promoted in *; simpl.
  repeat split.
  - rewrite cache_bytes_app, (cache_bytes_remove k v) by exact Hget. simpl. lia.
  - apply append_NoDup; [apply remove_NoDup | apply remove_not_contains]; exact Hnd.
  - exact Hle.
Qed.

Lemma cache_ok_inserted k v n p :
  cache_ok p -> OrderedDict.contains k (_image_cache p) = false ->
  _current_cache_size (Nat.iter n evicted p) + _get_image_size v <= _cache_size_limit p ->
  cache_ok (inserted k v (Nat.iter n evicted p)).
Proof.
  intros (Hsum & Hnd & Hle) Hc Hfit.
  pose proof (iter_evicted_size_is_sum n p Hsum) as Hsum'.
  pose proof (iter_evicted_NoDup n p Hnd) as Hnd'.
  pose proof (iter_evicted_contains n k p Hc) as Hc'.
  unfold cache_ok, size_is_sum, inserted in *; simpl.
  rewrite setitem_new by exact Hc'. repeat split.
  - rewrite cache_bytes_app. simpl. lia.
  - apply append_NoDup; assumption.
  - rewrite iter_evicted_limit. exact Hfit.
Qed.

Lemma run_op_cache_ok disk fuel o p w :
  cache_ok p ->
  fst (run_op disk fuel o (mkState p w)) = OutOfFuel
  \/ cache_ok (self (snd (run_op disk fuel o (mkState p w)))).
Proof.
  intros Hok. destruct o as [path |]; simpl.
  - destruct (OrderedDict.contains path (_image_cache p)) eqn:Hc.
    + destruct (proj1 (contains_get _ _) Hc) as [v Hget].
      right. erewrite bind_Return by (apply load_image_hit; [apply Hok | exact Hget]).
      simpl. apply cache_ok_promoted; assumption.
    + destruct (decode disk path) as [[[wd ht] b] |] eqn:Hd.
      * destruct (load_image_miss_run disk fuel path p w wd ht b Hc Hd)
          as [n [[Hrun Hfit] | Hout]].
        -- right. erewrite bind_Return by exact Hrun. simpl.
           apply cache_ok_inserted; assumption.
        -- left. erewrite bind_OutOfFuel by exact Hout. reflexivity.
      * right. erewrite bind_Raise by (apply load_image_miss_error; assumption).
        simpl. exact Hok.
  - right. rewrite evict_cache_eq. simpl. apply cache_ok_evicted; exact Hok.
Qed.

Lemma run_ops_cache_ok disk fuel ops s s' :
  cache_ok (self s) -> run_ops disk fuel ops s = Some s' -> cache_ok (self s').
Proof.
  revert s. induction ops as [| o ops IH]; intros s Hok; simpl.
  - intros [= <-]; exact Hok.
  - destruct s as [p w]. simpl in Hok.
    destruct (run_op_cache_ok disk fuel o p w Hok) as [Hout | Hok'].
    + destruct (run_op disk fuel o (mkState p w)) as [[[] | e |] s1];
        simpl in Hout; discriminate.
    + destruct (run_op disk fuel o (mkState p w)) as [[[] | e |] s1]; simpl in Hok';
        [apply IH; exact Hok' | apply IH; exact Hok' | discriminate].
Qed.

(** C2.  Start from a player just built with a non-negative cache limit and
    issue any sequence of [get_or_load] and eviction calls.  After every
    completed call the counter [_current_cache_size] is the sum of the sizes
    (width x height x bytes per pixel) of the cached images, and it is at most
    the limit unless exactly one image is cached and its own size exceeds the
    limit.  (Each prefix of a sequence is a sequence, so the statement covers
    the state after each call.) *)
Theorem cache_invariant_after_every_call :
  forall config display bgimage disk fuel ops w s',
    0 <= cfg_cache_size_limit config ->
    run_ops disk fuel ops (mkState (init config display bgimage) w) = Some s' ->
    cache_invariant (self s').
Proof.
  intros config display bgimage disk fuel ops w s' Hlim Hrun.
  destruct (run_ops_cache_ok disk fuel ops (mkState (init config display bgimage) w) s'
              (cache_ok_init config display bgimage Hlim) Hrun)
    as (Hsum & _ & Hle).
  split; [exact Hsum | left; exact Hle].
Qed.

Lemma cache_invariant_after_every_call_witness :
  exists s', run_ops demo_disk 5 demo_ops (mkState (demo_player 1 true true) fresh_world)
             = Some s'
             /\ cache_invariant (self s').
Proof.
  eexists. split; [vm_compute; reflexivity |].
  apply (cache_invariant_after_every_call (mkConfig 10 1 [0; 0; 0] true true 0)
           (800, 600) (None, 0, 0) demo_disk 5 demo_ops fresh_world).
  - simpl; lia.
  - vm_compute; reflexivity.
Defined.

(** ** Recency order *)

(** A miss with room to spare, and a miss that needs exactly one eviction. *)
Lemma miss_fits disk fuel path p w g :
  OrderedDict.contains path (_image_cache p) = false ->
  decode disk path = Some g ->
  _current_cache_size p + geometry_bytes g <= _cache_size_limit p ->
  let v := mkSurface (next_id w) (fst (fst g)) (snd (fst g)) (snd g) in
  _load_image disk (S fuel) path (mkState p w)
  = (Return v, mkState (inserted path v p) (after_load path true w)).
Proof.
  destruct g as [[wd ht] b]. intros Hc Hd Hfit v. simpl in v.
  rewrite load_image_miss by exact Hc.
  erewrite bind_Return by (apply image_load_ok; exact Hd). fold v.
  unfold _add_to_cache.
  erewrite bind_Return.
  2:{ erewrite bind_Return.
      2:{ rewrite evict_until_fits_step.
          replace (_ >? _) with false; [reflexivity |].
          symmetry. rewrite Z.gtb_ltb. apply Z.ltb_ge. exact Hfit. }
      unfold bind, modify_self; simpl. reflexivity. }
  reflexivity.
Qed.

Lemma miss_evict_one_fits disk fuel path p w g :
  OrderedDict.contains path (_image_cache p) = false ->
  decode disk path = Some g ->
  _cache_size_limit p < _current_cache_size p + geometry_bytes g ->
  _current_cache_size (evicted p) + geometry_bytes g <= _cache_size_limit p ->
  let v := mkSurface (next_id w) (fst (fst g)) (snd (fst g)) (snd g) in
  _load_image disk (S (S fuel)) path (mkState p w)
  = (Return v, mkState (inserted path v (evicted p)) (after_load path true w)).
Proof.
  destruct g as [[wd ht] b]. intros Hc Hd Hfull Hfit v. simpl in v.
  rewrite load_image_miss by exact Hc.
  erewrite bind_Return by (apply image_load_ok; exact Hd). fold v.
  unfold _add_to_cache.
  erewrite bind_Return.
  2:{ erewrite bind_Return.
      2:{ rewrite evict_until_fits_step.
          replace (_ >? _) with true
            by (symmetry; rewrite Z.gtb_ltb; apply Z.ltb_lt; exact Hfull).
          rewrite evict_until_fits_step, evicted_limit.
          replace (_ >? _) with false; [reflexivity |].
          symmetry. rewrite Z.gtb_ltb. apply Z.ltb_ge. exact Hfit. }
      unfold bind, modify_self; simpl. reflexivity. }
  reflexivity.
Qed.

Lemma run_ops_cons_Return disk fuel o ops s s1 :
  run_op disk fuel o s = (Return tt, s1) ->
  run_ops disk fuel (o :: ops) s = run_ops disk fuel ops s1.
Proof. intros H; simpl; rewrite H; reflexivity. Qed.

Lemma run_op_get_or_load disk fuel path s v s1 :
  _load_image disk fuel path s = (Return v, s1) ->
  run_op disk fuel (get_or_load path) s = (Return tt, s1).
Proof. intros H; simpl. erewrite bind_Return by exact H. reflexivity. Qed.

Ltac cache_cbn :=
  repeat (progress (
    unfold inserted, evicted, promoted, _get_image_size, get_size, get_bytesize,
      geometry_bytes in *;
    cbn [_current_cache_size _cache_size_limit _image_cache self world
         set_current_cache_size set_image_cache surf_w surf_h surf_bytesize fst snd
         OrderedDict.setitem OrderedDict.remove OrderedDict.get OrderedDict.contains
         OrderedDict.keys existsb map app orb] in *)).

Ltac dict_cbn :=
  repeat (progress (cache_cbn;
    repeat match goal with
           | H : String.eqb _ _ = _ |- _ => rewrite H
           end)).

(** C3.  Eviction follows recency.  With a limit that holds exactly two of
    three images of one size, loading A, then B, then A again, then C evicts B
    and not A.  The four calls all return.  The third call is a hit: it
    returns the very bitmap the first call decoded, leaves the world as it
    was (no decoder call, no new bitmap) and moves A behind B.  The fourth
    call then evicts B, the oldest entry.  The cache is left holding A and C,
    in that order, A still with the bitmap of the first call; the decoder has
    been handed A, B and C once each, in that order, and the byte counter is
    that of two images. *)
Theorem lru_evicts_least_recently_used :
  forall disk fuel p w a b c ga gb gc sz,
    _image_cache p = [] -> _current_cache_size p = 0 ->
    a <> b -> a <> c -> b <> c ->
    decode disk a = Some ga -> decode disk b = Some gb -> decode disk c = Some gc ->
    geometry_bytes ga = sz -> geometry_bytes gb = sz -> geometry_bytes gc = sz ->
    2 * sz <= _cache_size_limit p < 3 * sz ->
    (2 <= fuel)%nat ->
    let va := mkSurface (next_id w) (fst (fst ga)) (snd (fst ga)) (snd ga) in
    let vb := mkSurface (S (next_id w)) (fst (fst gb)) (snd (fst gb)) (snd gb) in
    let vc := mkSurface (S (S (next_id w))) (fst (fst gc)) (snd (fst gc)) (snd gc) in
    exists s2 s3 s',
      run_ops disk fuel [get_or_load a; get_or_load b] (mkState p w) = Some s2
      /\ _image_cache (self s2) = [(a, va); (b, vb)]
      /\ _load_image disk fuel a s2 = (Return va, s3)
      /\ world s3 = world s2
      /\ _image_cache (self s3) = [(b, vb); (a, va)]
      /\ run_ops disk fuel [get_or_load c] s3 = Some s'
      /\ run_ops disk fuel [get_or_load a; get_or_load b; get_or_load a; get_or_load c]
           (mkState p w) = Some s'
      /\ _image_cache (self s') = [(a, va); (c, vc)]
      /\ OrderedDict.keys (_image_cache (self s')) = [a; c]
      /\ OrderedDict.contains b (_image_cache (self s')) = false
      /\ loads (world s') = loads w ++ [a; b; c]
      /\ _current_cache_size (self s') = 2 * sz.
Proof.
  intros disk fuel p w a b c ga gb gc sz Hempty Hzero Hab Hac Hbc Ha Hb Hc Hsa Hsb Hsc
    [Hlo Hhi] Hfuel va vb vc.
  destruct fuel as [| [| fuel]]; try lia.
  assert (Hab' : a <> b) by exact Hab.
  apply String.eqb_neq in Hab, Hac, Hbc.
  assert (Hba : String.eqb b a = false) by (rewrite String.eqb_sym; exact Hab).
  assert (Hca : String.eqb c a = false) by (rewrite String.eqb_sym; exact Hac).
  assert (Hcb : String.eqb c b = false) by (rewrite String.eqb_sym; exact Hbc).
  destruct ga as [[wa ha] da], gb as [[wb hb] db], gc as [[wc hc] dc].
  cbn [fst snd] in va, vb, vc. cbn [geometry_bytes] in Hsa, Hsb, Hsc.
  destruct p as [dur size bg sc ce wt bgi lp st cache limit cur].
  cbn [_image_cache _current_cache_size _cache_size_limit] in *. subst cache cur.
  pose proof (String.eqb_refl a) as Haa.
  pose proof (String.eqb_refl b) as Hbb.
  set (p0 := mkImagePlayer dur size bg sc ce wt bgi lp st [] limit 0).
  set (w1 := after_load a true w).
  set (w2 := after_load b true w1).
  set (p1 := inserted a va p0).
  set (p2 := inserted b vb p1).
  set (p3 := promoted a va p2).
  set (p4 := inserted c vc (evicted p3)).
  (* a: a miss on the empty cache *)
  assert (H1 : _load_image disk (S (S fuel)) a (mkState p0 w) = (Return va, mkState p1 w1)).
  { apply (miss_fits disk (S fuel) a p0 w (wa, ha, da)); [reflexivity | exact Ha |].
    unfold p0. cbn [_current_cache_size _cache_size_limit geometry_bytes]. lia. }
  (* b: a miss, and there is room for two *)
  assert (H2 : _load_image disk (S (S fuel)) b (mkState p1 w1) = (Return vb, mkState p2 w2)).
  { apply (miss_fits disk (S fuel) b p1 w1 (wb, hb, db)); [| exact Hb |].
    - unfold p1, p0. dict_cbn. reflexivity.
    - unfold p1, p0, va. dict_cbn. lia. }
  (* a again: a hit, which moves a behind b *)
  assert (H3 : _load_image disk (S (S fuel)) a (mkState p2 w2) = (Return va, mkState p3 w2)).
  { apply load_image_hit.
    - unfold p2, p1, p0. dict_cbn.
      repeat constructor; simpl; [| tauto]. intros [H | []]; congruence.
    - unfold p2, p1, p0. dict_cbn. reflexivity. }
  (* c: a miss with the cache full; the oldest entry, b, goes *)
  assert (H4 : _load_image disk (S (S fuel)) c (mkState p3 w2)
               = (Return vc, mkState p4 (after_load c true w2))).
  { apply (miss_evict_one_fits disk fuel c p3 w2 (wc, hc, dc)); [| exact Hc | |].
    - unfold p3, p2, p1, p0. dict_cbn. reflexivity.
    - unfold p3, p2, p1, p0, va, vb. dict_cbn. lia.
    - unfold p3, p2, p1, p0, va, vb. dict_cbn. lia. }
  exists (mkState p2 w2), (mkState p3 w2), (mkState p4 (after_load c true w2)).
  split.
  { erewrite run_ops_cons_Return by (eapply run_op_get_or_load; exact H1).
    erewrite run_ops_cons_Return by (eapply run_op_get_or_load; exact H2).
    reflexivity. }
  split; [unfold p2, p1, p0; dict_cbn; reflexivity |].
  split; [exact H3 |]. split; [reflexivity |].
  split; [unfold p3, p2, p1, p0; dict_cbn; reflexivity |].
  split.
  { erewrite run_ops_cons_Return by (eapply run_op_get_or_load; exact H4). reflexivity. }
  split.
  { erewrite run_ops_cons_Return by (eapply run_op_get_or_load; exact H1).
    erewrite run_ops_cons_Return by (eapply run_op_get_or_load; exact H2).
    erewrite run_ops_cons_Return by (eapply run_op_get_or_load; exact H3).
    erewrite run_ops_cons_Return by (eapply run_op_get_or_load; exact H4).
    reflexivity. }
  split; [unfold p4, p3, p2, p1, p0; dict_cbn; reflexivity |].
  split; [unfold p4, p3, p2, p1, p0; dict_cbn; reflexivity |].
  split; [unfold p4, p3, p2, p1, p0; dict_cbn; reflexivity |].
  split.
  { unfold w2, w1, after_load. cbn [world loads]. rewrite <- !app_assoc. reflexivity. }
  unfold p4, p3, p2, p1, p0, va, vb, vc. dict_cbn. lia.
Qed.

(** The three 512 x 256 images of the demo disk against a 1 MiB cache. *)
Lemma lru_evicts_least_recently_used_witness :
  let s := mkState (demo_player 1 true true) fresh_world in
  let va := mkSurface 0 512 256 4 in
  let vc := mkSurface 2 512 256 4 in
  exists s2 s3 s',
    _load_image demo_disk 2 "a.png" s2 = (Return va, s3)
    /\ world s3 = world s2
    /\ run_ops demo_disk 2
         [get_or_load "a.png"; get_or_load "b.png"; get_or_load "a.png";
          get_or_load "c.png"]%string s = Some s'
    /\ _image_cache (self s') = [("a.png"%string, va); ("c.png"%string, vc)]
    /\ OrderedDict.contains "b.png" (_image_cache (self s')) = false
    /\ loads (world s') = ["a.png"; "b.png"; "c.png"]%string.
Proof.
  intros s va vc.
  destruct (lru_evicts_least_recently_used demo_disk 2 (demo_player 1 true true) fresh_world
              "a.png" "b.png" "c.png" (512, 256, 4)%N (512, 256, 4)%N (512, 256, 4)%N
              524288)
    as (s2 & s3 & s' & _ & _ & Hhit & Hworld & _ & _ & Hrun & Hcache & _ & Hb & Hloads & _);
    try reflexivity; try discriminate; try (simpl; lia).
  exists s2, s3, s'.
  split; [exact Hhit |]. split; [exact Hworld |]. split; [exact Hrun |].
  split; [exact Hcache |]. split; [exact Hb | exact Hloads].
Defined.

(** ** Hits *)

Lemma get_app_last k v d :
  OrderedDict.contains k d = false -> OrderedDict.get k (d ++ [(k, v)]) = Some v.
Proof.
  induction d as [| [k' v'] d IH]; simpl.
  - rewrite String.eqb_refl; reflexivity.
  - destruct (String.eqb k k'); simpl; [discriminate | exact IH].
Qed.






(** ** What the methods leave alone *)

Lemma same_settings_refl s : same_settings s s.
Proof. reflexivity. Qed.

Lemma same_settings_trans s1 s2 s3 :
  same_settings s1 s2 -> same_settings s2 s3 -> same_settings s1 s3.
Proof. unfold same_settings; congruence. Qed.

Lemma same_screen_refl s : same_screen s s.
Proof. reflexivity. Qed.

Lemma same_screen_trans s1 s2 s3 :
  same_screen s1 s2 -> same_screen s2 s3 -> same_screen s1 s3.
Proof. unfold same_screen; congruence. Qed.

(** Break a computation into its steps; [known] closes the steps that
    already have a lemma, before they are unfolded. *)
Ltac keeps_steps Hrefl Htrans known :=
  repeat first
    [ known
    | apply (keeps_ret _ Hrefl)
    | apply (keeps_raise _ Hrefl)
    | apply (keeps_out_of_fuel _ Hrefl)
    | apply (keeps_lift _ Hrefl)
    | apply (keeps_get_self _ Hrefl)
    | apply (keeps_bind _ Htrans); [| intros ]
    | match goal with
      | |- keeps _ (if ?b then _ else _) => destruct b
      | |- keeps _ (match ?x with _ => _ end) => destruct x
      | |- keeps _ (let (_, _) := ?x in _) => destruct x
      end
    | assumption ].

Lemma settings_modify_world f : keeps same_settings (modify_world f).
Proof. intros s; reflexivity. Qed.

Lemma settings_fresh_id : keeps same_settings fresh_id.
Proof. intros s; reflexivity. Qed.

Lemma settings_set_image_cache f :
  keeps same_settings (modify_self (fun p => set_image_cache (f p) p)).
Proof. intros s; reflexivity. Qed.

Lemma settings_set_current_cache_size f :
  keeps same_settings (modify_self (fun p => set_current_cache_size (f p) p)).
Proof. intros s; reflexivity. Qed.

Lemma settings_draw e : keeps same_settings (draw e).
Proof. apply settings_modify_world. Qed.

Lemma settings_evict_cache : keeps same_settings _evict_cache.
Proof.
  intros [p w]. rewrite evict_cache_eq. unfold same_settings; simpl.
  apply evicted_settings.
Qed.

Ltac settings_leaf :=
  first
    [ apply settings_draw
    | apply settings_modify_world
    | apply settings_fresh_id
    | apply settings_evict_cache
    | match goal with
      | |- keeps _ (modify_self (set_image_cache ?rest)) =>
          apply (settings_set_image_cache (fun _ => rest))
      | |- keeps _ (modify_self (fun p => set_image_cache (@?f p) p)) =>
          apply (settings_set_image_cache f)
      | |- keeps _ (modify_self (fun p => set_current_cache_size (@?f p) p)) =>
          apply (settings_set_current_cache_size f)
      end ].

Ltac settings_steps known :=
  keeps_steps same_settings_refl same_settings_trans ltac:(first [known | settings_leaf]).

Lemma settings_surface_fill color : keeps same_settings (pygame_surface_fill color).
Proof. unfold pygame_surface_fill. settings_steps fail. Qed.

Lemma settings_blank_screen flip : keeps same_settings (_blank_screen flip).
Proof. unfold _blank_screen. settings_steps ltac:(apply settings_surface_fill). Qed.

Lemma settings_image_load disk path : keeps same_settings (pygame_image_load disk path).
Proof. unfold pygame_image_load. settings_steps fail. Qed.

Lemma settings_transform_scale src size :
  keeps same_settings (pygame_transform_scale src size).
Proof. unfold pygame_transform_scale. settings_steps fail. Qed.

Lemma settings_evict_until_fits fuel image_size :
  keeps same_settings (evict_until_fits fuel image_size).
Proof. induction fuel as [| fuel IH]; simpl; settings_steps fail. Qed.

Lemma settings_add_to_cache fuel path pyimage :
  keeps same_settings (_add_to_cache fuel path pyimage).
Proof.
  unfold _add_to_cache. settings_steps ltac:(apply settings_evict_until_fits).
Qed.

Lemma settings_load_image disk fuel path : keeps same_settings (_load_image disk fuel path).
Proof.
  unfold _load_image.
  settings_steps ltac:(first [apply settings_image_load | apply settings_add_to_cache]).
Qed.

Lemma settings_play_draw disk fuel path : keeps same_settings (play_draw disk fuel path).
Proof.
  unfold play_draw.
  settings_steps ltac:(first [ apply settings_blank_screen | apply settings_load_image
                             | apply settings_transform_scale ]).
Qed.

(** ** The timer *)

Lemma settings_loop p p' : settings p' = settings p -> _loop p' = _loop p.
Proof. unfold settings; intros H; injection H; auto. Qed.

(** [play] first settles the loop count, whatever follows. *)
Lemma play_eq disk fuel image loop now p w :
  play disk fuel image loop now (mkState p w)
  = ((if negb (String.eqb (filename image) "") && isfile disk (filename image)
      then play_draw disk fuel (filename image)
      else ret tt) ;;
     modify_self (set_start_time (Py.PyFloat now)))
      (mkState (set_loop (normalized_loop image loop) p) w).
Proof.
  unfold play, normalized_loop, resolved_loop.
  destruct loop as [l |]; unfold bind at 1, modify_self at 1; simpl;
    unfold bind at 1, get_self; simpl.
  - unfold bind at 1. destruct (l =? 0); reflexivity.
  - unfold bind at 1. destruct (repeats image =? 0); reflexivity.
Qed.

Lemma play_skip_eq disk fuel image loop now p w :
  nothing_to_draw disk image ->
  play disk fuel image loop now (mkState p w)
  = (Return tt,
     mkState (set_start_time (Py.PyFloat now) (set_loop (normalized_loop image loop) p)) w).
Proof.
  intros Hskip. rewrite play_eq.
  replace (negb (String.eqb (filename image) "") && isfile disk (filename image))
    with false; [reflexivity |].
  destruct Hskip as [-> | ->]; [reflexivity | rewrite andb_false_r; reflexivity].
Qed.

(** C8.  Whatever [play] goes on to do (draw, skip, raise, or never come
    back from the cache), the loop count it leaves in [_loop] is the resolved
    one (the [loop] argument, or the image's [repeats] when there is none) with
    exactly 0 replaced by 1: it is never 0, and a value at or below -1 is kept
    as it is. *)
Theorem play_normalizes_loop_count :
  forall disk fuel image loop now s,
    let r := resolved_loop image loop in
    let l := _loop (self (snd (play disk fuel image loop now s))) in
    l = (if r =? 0 then 1 else r) /\ l <> 0 /\ (r = 0 -> l = 1) /\ (r <= -1 -> l = r).
Proof.
  intros disk fuel image loop now [p w] r l.
  assert (Hl : l = normalized_loop image loop).
  { unfold l. rewrite play_eq. unfold bind.
    set (s1 := mkState (set_loop (normalized_loop image loop) p) w).
    assert (Hdraw : forall m : M unit, keeps same_settings m ->
                    _loop (self (snd (m s1))) = normalized_loop image loop).
    { intros m Hm. rewrite (settings_loop _ _ (Hm s1)). reflexivity. }
    destruct (negb _ && _).
    - pose proof (Hdraw _ (settings_play_draw disk fuel (filename image))) as H.
      destruct (play_draw disk fuel (filename image) s1) as [[[] | e |] s2];
        simpl in *; exact H.
    - reflexivity. }
  rewrite Hl. unfold normalized_loop. fold r.
  destruct (Z.eqb_spec r 0); repeat split; try lia; congruence.
Qed.

(** C9.  When the filename is empty or names no existing file, [play] returns
    normally (no exception of any kind) and leaves the world as it was:
    nothing is filled, blitted or flipped, and the decoder is not called. *)
Theorem play_without_source_draws_nothing :
  forall disk fuel image loop now s,
    nothing_to_draw disk image ->
    fst (play disk fuel image loop now s) = Return tt
    /\ world (snd (play disk fuel image loop now s)) = world s.
Proof.
  intros disk fuel image loop now [p w] Hskip.
  rewrite play_skip_eq by exact Hskip. split; reflexivity.
Qed.

Lemma play_without_source_draws_nothing_witness :
  let s := mkState (demo_player 1 true true) fresh_world in
  (fst (play demo_disk 5 (mkImage "" 2) None (Py.Z2F 100) s) = Return tt
   /\ world (snd (play demo_disk 5 (mkImage "" 2) None (Py.Z2F 100) s)) = world s)
  /\ (fst (play demo_disk 5 (mkImage "missing.png" 2) None (Py.Z2F 100) s) = Return tt
      /\ world (snd (play demo_disk 5 (mkImage "missing.png" 2) None (Py.Z2F 100) s))
         = world s).
Proof.
  intros s. split.
  - apply (play_without_source_draws_nothing demo_disk 5 (mkImage "" 2) None (Py.Z2F 100) s).
    left; reflexivity.
  - apply (play_without_source_draws_nothing demo_disk 5 (mkImage "missing.png" 2) None
             (Py.Z2F 100) s).
    right; reflexivity.
Defined.

(** [_blank_screen]: the fill, the background image, the flip; or nothing at
    all when pygame does not take the colour. *)
Lemma blank_screen_eq flip p w :
  _blank_screen flip (mkState p w)
  = if valid_color (_bgcolor p)
    then (Return tt, mkState p (drawn (blank_events p flip) w))
    else (Raise ValueError, mkState p w).
Proof.
  unfold _blank_screen, pygame_surface_fill, blank_events, drawn, bind, get_self, draw,
    modify_world, raise; simpl.
  destruct (valid_color (_bgcolor p)); [| reflexivity].
  destruct (_bgimage p) as [[[bg |] x] y]; destruct flip; simpl;
    rewrite <- ?app_assoc; reflexivity.
Qed.

Lemma blank_screen_valid flip p w :
  valid_color (_bgcolor p) = true ->
  _blank_screen flip (mkState p w) = (Return tt, mkState p (drawn (blank_events p flip) w)).
Proof. intros H. rewrite blank_screen_eq, H. reflexivity. Qed.

Lemma blank_screen_invalid flip p w :
  valid_color (_bgcolor p) = false ->
  _blank_screen flip (mkState p w) = (Raise ValueError, mkState p w).
Proof. intros H. rewrite blank_screen_eq, H. reflexivity. Qed.

Lemma answered_true p : answered p true = Return true.
Proof. reflexivity. Qed.

Lemma answered_valid p playing :
  valid_color (_bgcolor p) = true -> answered p playing = Return playing.
Proof. intros H. unfold answered. rewrite H, andb_false_r. reflexivity. Qed.

Lemma answered_ext p p' playing :
  _bgcolor p' = _bgcolor p -> _wait_time p' = _wait_time p ->
  answered p' playing = answered p playing.
Proof. intros Hb Hw. unfold answered. rewrite Hb, Hw. reflexivity. Qed.

Lemma answered_no_wait p playing :
  _wait_time p <= 0 -> answered p playing = Return playing.
Proof.
  intros H. unfold answered.
  replace (_wait_time p >? 0) with false by (symmetry; rewrite Z.gtb_ltb; apply Z.ltb_ge; lia).
  rewrite andb_false_r. reflexivity.
Qed.

Lemma is_playing_run now p w :
  is_playing now (mkState p w)
  = if _loop p <=? -1 then (Return true, mkState p w)
    else match Py.float_sub_num now (_start_time p) with
         | inl e => (Raise e, mkState p w)
         | inr elapsed =>
             let playing := Py.float_lt_int elapsed (_duration p * _loop p) in
             (answered p playing,
              mkState p (if negb playing && (_wait_time p >? 0)
                            && valid_color (_bgcolor p)
                         then drawn (blank_events p true) w else w))
         end.
Proof.
  unfold is_playing. unfold bind at 1, get_self; cbn [self].
  destruct (_loop p <=? -1); [reflexivity |].
  destruct (Py.float_sub_num now (_start_time p)) as [e | elapsed]; [reflexivity |].
  unfold bind at 1, lift, ret. cbv zeta. unfold answered.
  destruct (negb (Py.float_lt_int elapsed (_duration p * _loop p)) && (_wait_time p >? 0)).
  - unfold bind at 1. rewrite blank_screen_eq.
    destruct (valid_color (_bgcolor p)); reflexivity.
  - reflexivity.
Qed.

Lemma is_playing_eq now p w :
  fst (is_playing now (mkState p w))
  = if _loop p <=? -1 then Return true
    else match Py.float_sub_num now (_start_time p) with
         | inl e => Raise e
         | inr elapsed => answered p (Py.float_lt_int elapsed (_duration p * _loop p))
         end.
Proof.
  rewrite is_playing_run.
  destruct (_loop p <=? -1); [reflexivity |].
  destruct (Py.float_sub_num now (_start_time p)); reflexivity.
Qed.

(** C10.  When [play] skips the drawing (empty filename, or no such file) it
    still stores the normalized loop count and the current clock reading in
    [_start_time], and it leaves the cache and its byte counter as they were.
    Afterwards [is_playing] treats the blank frame as any other: with a loop
    count at or below -1 it answers true; otherwise its answer is whether the
    time elapsed since that clock reading is below [_duration * _loop], so
    the blank frame plays for the full time.  ([answered] is the answer
    returned; only an answer of False with a positive [_wait_time] and a
    background colour pygame does not take ends in ValueError instead.) *)
Theorem skipped_play_still_starts_the_timer :
  forall disk fuel image loop now s,
    nothing_to_draw disk image ->
    let s' := snd (play disk fuel image loop now s) in
    let l := normalized_loop image loop in
    _loop (self s') = l
    /\ _start_time (self s') = Py.PyFloat now
    /\ _image_cache (self s') = _image_cache (self s)
    /\ _current_cache_size (self s') = _current_cache_size (self s)
    /\ forall later,
         fst (is_playing later s')
         = answered (self s)
             ((l <=? -1)
              || Py.float_lt_int (Py.fsub later now) (_duration (self s) * l)).
Proof.
  intros disk fuel image loop now [p w] Hskip s' l.
  unfold s'. rewrite play_skip_eq by exact Hskip. simpl.
  repeat split. intros later. rewrite is_playing_eq. simpl. fold l.
  destruct (l <=? -1); reflexivity.
Qed.

Lemma skipped_play_still_starts_the_timer_witness :
  let s := mkState (demo_player 1 true true) fresh_world in
  let s' := snd (play demo_disk 5 (mkImage "missing.png" 3) None (Py.Z2F 100) s) in
  _loop (self s') = 3
  /\ _start_time (self s') = Py.PyFloat (Py.Z2F 100)
  /\ _image_cache (self s') = []
  /\ _current_cache_size (self s') = 0
  /\ fst (is_playing (Py.Z2F 129) s') = Return true
  /\ fst (is_playing (Py.Z2F 130) s') = Return false.
Proof.
  intros s s'. subst s'.
  destruct (skipped_play_still_starts_the_timer demo_disk 5 (mkImage "missing.png" 3)
              None (Py.Z2F 100) s (or_intror eq_refl))
    as (Hl & Ht & Hc & Hsz & Hplaying).
  split; [exact Hl |]. split; [exact Ht |]. split; [exact Hc |]. split; [exact Hsz |].
  split.
  - rewrite (Hplaying (Py.Z2F 129)). vm_compute. reflexivity.
  - rewrite (Hplaying (Py.Z2F 130)). vm_compute. reflexivity.
Defined.

Lemma stop_eq block_timeout_sec p w :
  stop block_timeout_sec (mkState p w)
  = if valid_color (_bgcolor p)
    then match Py.num_sub_int (_start_time p) (_duration p * _loop p) with
         | inl e => (Raise e, mkState p (drawn (blank_events p true) w))
         | inr t => (Return tt, mkState (set_start_time t p) (drawn (blank_events p true) w))
         end
    else (Raise ValueError, mkState p w).
Proof.
  unfold stop. unfold bind at 1. rewrite blank_screen_eq.
  destruct (valid_color (_bgcolor p)); [| reflexivity].
  unfold bind, get_self; simpl.
  destruct (Py.num_sub_int (_start_time p) (_duration p * _loop p)); reflexivity.
Qed.

Lemma stop_keeps_loop block_timeout_sec s :
  _loop (self (snd (stop block_timeout_sec s))) = _loop (self s).
Proof.
  destruct s as [p w]. rewrite stop_eq.
  destruct (valid_color (_bgcolor p)); [| reflexivity].
  destruct (Py.num_sub_int (_start_time p) (_duration p * _loop p)); reflexivity.
Qed.

(** C4 (the code departs from the claim).  With the infinite sentinel in
    [_loop] (a loop count at or below -1), [is_playing] called right after
    [stop] still answers true: [stop] only rewinds [_start_time], and
    [is_playing] answers true for the sentinel before it looks at the time. *)
Theorem stop_does_not_end_an_infinite_loop :
  forall block_timeout_sec now s,
    _loop (self s) <= -1 ->
    fst (is_playing now (snd (stop block_timeout_sec s))) = Return true.
Proof.
  intros block_timeout_sec now s Hloop.
  pose proof (stop_keeps_loop block_timeout_sec s) as Hkeep.
  destruct (snd (stop block_timeout_sec s)) as [p' w'].
  rewrite is_playing_eq. simpl in Hkeep.
  replace (_loop p' <=? -1) with true; [reflexivity |].
  symmetry; apply Z.leb_le; lia.
Qed.

(** [play(image, loop=-1)] at clock 100, then [stop()], then [is_playing()]
    at the same clock reading. *)
Lemma stop_does_not_end_an_infinite_loop_witness :
  let s := snd (play demo_disk 5 (mkImage "" 1) (Some (-1)) (Py.Z2F 100)
                  (mkState (demo_player 1 true true) fresh_world)) in
  fst (is_playing (Py.Z2F 100) (snd (stop 0 s))) = Return true.
Proof.
  intros s.
  apply (stop_does_not_end_an_infinite_loop 0 (Py.Z2F 100) s).
  vm_compute. discriminate.
Defined.

(** For comparison, the finite case on the same player: three loops of ten
    seconds started at clock 100 are over right after [stop]. *)
Example stop_ends_a_finite_loop :
  let s := snd (play demo_disk 5 (mkImage "" 3) None (Py.Z2F 100)
                  (mkState (demo_player 1 true true) fresh_world)) in
  fst (is_playing (Py.Z2F 129) s) = Return true
  /\ fst (is_playing (Py.Z2F 100) (snd (stop 0 s))) = Return false.
Proof. vm_compute. split; reflexivity. Qed.

(** ** Drawing *)

Lemma transform_scale_eq src size p w :
  pygame_transform_scale src size (mkState p w)
  = if (fst size <? 0) || (snd size <? 0) then (Raise ValueError, mkState p w)
    else (Return (mkSurface (next_id w) (Z.to_N (fst size)) (Z.to_N (snd size))
                    (surf_bytesize src)),
          mkState p (mkWorld (screen w) (loads w) (S (next_id w)))).
Proof.
  destruct size as [wd ht]. unfold pygame_transform_scale; simpl.
  destruct ((wd <? 0) || (ht <? 0)); reflexivity.
Qed.

Lemma bind_ret {A B} (a : A) (f : A -> M B) s : bind (ret a) f s = f a s.
Proof. reflexivity. Qed.

Lemma bind_lift_inr {A B} (a : A) (f : A -> M B) s : bind (lift (inr a)) f s = f a s.
Proof. reflexivity. Qed.

Lemma bind_lift_inl {A B} (e : exn) (f : A -> M B) s :
  bind (lift (inl e)) f s = (Raise e, s).
Proof. reflexivity. Qed.

Lemma bind_assoc {A B C} (m : M A) (f : A -> M B) (g : B -> M C) s :
  bind (bind m f) g s = bind m (fun a => bind (f a) g) s.
Proof. unfold bind. destruct (m s) as [[a | e |] s1]; reflexivity. Qed.

Lemma bind_get_self {B} (f : ImagePlayer -> M B) p w :
  bind get_self f (mkState p w) = f p (mkState p w).
Proof. reflexivity. Qed.

Lemma draw_blit_flip src dest p w :
  (draw (Blit src dest) ;; draw Flip) (mkState p w)
  = (Return tt, mkState p (drawn [Blit src dest; Flip] w)).
Proof.
  unfold bind, draw, modify_world, drawn; simpl. rewrite <- app_assoc. reflexivity.
Qed.
(** [play_draw] on a display that takes the colour is: blank the display,
    fetch the bitmap, compute the placement, scale if asked to, blit and
    flip. *)
Lemma play_draw_valid disk fuel path p w :
  valid_color (_bgcolor p) = true ->
  play_draw disk fuel path (mkState p w)
  = match _load_image disk fuel path (mkState p (drawn (blank_events p false) w)) with
    | (Return pyimage, s1) =>
        match placement (_scale (self s1)) (_center (self s1)) (_size (self s1))
                (get_size pyimage) with
        | inl e => (Raise e, s1)
        | inr (None, dest) =>
            (Return tt, mkState (self s1) (drawn [Blit pyimage dest; Flip] (world s1)))
        | inr (Some target, dest) =>
            match pygame_transform_scale pyimage target s1 with
            | (Return scaled, s2) =>
                (Return tt, mkState (self s2) (drawn [Blit scaled dest; Flip] (world s2)))
            | (Raise e, s2) => (Raise e, s2)
            | (OutOfFuel, s2) => (OutOfFuel, s2)
            end
        end
    | (Raise e, s1) => (Raise e, s1)
    | (OutOfFuel, s1) => (OutOfFuel, s1)
    end.
Proof.
  intros Hvalid.
  unfold play_draw. erewrite bind_Return by (apply blank_screen_valid; exact Hvalid).
  unfold bind at 1.
  destruct (_load_image disk fuel path _) as [[pyimage | e |] [p1 w1]]; try reflexivity.
  rewrite bind_get_self. cbn [self world].
  unfold placement, scaled_size, centered.
  destruct (_size p1) as [screen_w screen_h].
  destruct (get_size pyimage) as [image_w image_h].
  destruct (Py.int_truediv screen_w screen_h) as [e | sa];
    [rewrite bind_lift_inl; reflexivity | rewrite bind_lift_inr].
  destruct (Py.int_truediv image_w image_h) as [e | pa];
    [rewrite bind_lift_inl; reflexivity | rewrite bind_lift_inr].
  destruct (_scale p1).
  - destruct (Py.flt sa pa); [| destruct (Py.flt pa sa)].
    + rewrite bind_assoc.
      destruct (Py.int_div_float screen_w pa) as [e | q];
        [rewrite bind_lift_inl; reflexivity | rewrite bind_lift_inr].
      rewrite bind_assoc.
      destruct (Py.int_of_float q) as [e | nh];
        [rewrite bind_lift_inl; reflexivity | rewrite bind_lift_inr].
      rewrite bind_assoc. unfold bind at 1.
      destruct (pygame_transform_scale pyimage (screen_w, nh) _) as [[scaled | e |] [p2 w2]];
        try reflexivity.
      rewrite bind_ret. destruct (_center p1); apply draw_blit_flip.
    + rewrite bind_assoc.
      destruct (Py.int_mul_float screen_h pa) as [e | q];
        [rewrite bind_lift_inl; reflexivity | rewrite bind_lift_inr].
      rewrite bind_assoc.
      destruct (Py.int_of_float q) as [e | nw];
        [rewrite bind_lift_inl; reflexivity | rewrite bind_lift_inr].
      rewrite bind_assoc. unfold bind at 1.
      destruct (pygame_transform_scale pyimage (nw, screen_h) _) as [[scaled | e |] [p2 w2]];
        try reflexivity.
      rewrite bind_ret. destruct (_center p1); apply draw_blit_flip.
    + rewrite bind_assoc. unfold bind at 1.
      destruct (pygame_transform_scale pyimage (screen_w, screen_h) _)
        as [[scaled | e |] [p2 w2]]; try reflexivity.
      rewrite bind_ret. destruct (_center p1); apply draw_blit_flip.
  - rewrite bind_ret.
    destruct (_center p1); [destruct (Py.flt sa pa); [| destruct (Py.flt pa sa)] |];
      apply draw_blit_flip.
Qed.

(** On a display that does not take the colour [play_draw] stops at the
    fill. *)
Lemma play_draw_invalid disk fuel path p w :
  valid_color (_bgcolor p) = false ->
  play_draw disk fuel path (mkState p w) = (Raise ValueError, mkState p w).
Proof.
  intros Hinvalid. unfold play_draw.
  erewrite bind_Raise by (apply blank_screen_invalid; exact Hinvalid). reflexivity.
Qed.

(** The fetch leaves the display alone. *)
Ltac screen_leaf :=
  first
    [ match goal with
      | |- keeps same_screen (modify_self ?f) => intros ?; reflexivity
      | |- keeps same_screen fresh_id => intros ?; reflexivity
      | |- keeps same_screen (modify_world ?f) => intros ?; reflexivity
      | |- keeps same_screen _evict_cache =>
          intros [? ?]; rewrite evict_cache_eq; reflexivity
      end ].

Ltac screen_steps known :=
  keeps_steps same_screen_refl same_screen_trans ltac:(first [known | screen_leaf]).

Lemma screen_evict_until_fits fuel image_size :
  keeps same_screen (evict_until_fits fuel image_size).
Proof. induction fuel as [| fuel IH]; simpl; screen_steps fail. Qed.

Lemma screen_load_image disk fuel path : keeps same_screen (_load_image disk fuel path).
Proof.
  unfold _load_image, _add_to_cache, pygame_image_load.
  screen_steps ltac:(apply screen_evict_until_fits).
Qed.

Lemma get_setitem_same k v d : OrderedDict.get k (OrderedDict.setitem k v d) = Some v.
Proof.
  induction d as [| [k' v'] d IH]; simpl.
  - rewrite String.eqb_refl; reflexivity.
  - destruct (String.eqb k k') eqn:E; simpl; [rewrite String.eqb_refl | rewrite E]; auto.
Qed.

(** Whatever [_load_image] returns is what the cache now holds under the path. *)
Lemma load_image_Return_cached disk fuel path s pyimage s1 :
  _load_image disk fuel path s = (Return pyimage, s1) ->
  OrderedDict.get path (_image_cache (self s1)) = Some pyimage.
Proof.
  destruct s as [p w]. destruct (OrderedDict.contains path (_image_cache p)) eqn:Hc.
  - unfold _load_image. rewrite bind_get_self, Hc. unfold OrderedDict.pop.
    destruct (OrderedDict.get path (_image_cache p)) as [v |]; [| discriminate].
    unfold bind, modify_self, ret; simpl. intros [= <- <-]. simpl.
    apply get_setitem_same.
  - destruct (decode disk path) as [[[wd ht] b] |] eqn:Hd.
    + destruct (load_image_miss_run disk fuel path p w wd ht b Hc Hd)
        as [n [[Hrun _] | Hout]]; simpl in *.
      * rewrite Hrun. intros [= <- <-]. simpl. apply get_setitem_same.
      * rewrite Hout. discriminate.
    + rewrite load_image_miss_error by assumption. discriminate.
Qed.

Lemma last_blit_app evs src dest :
  last_blit (evs ++ [Blit src dest; Flip]) = Some (src, dest).
Proof. unfold last_blit. rewrite rev_app_distr. reflexivity. Qed.

(** What a [play] that draws and returns has done. *)
Lemma play_Return_inv disk fuel image loop now s s' :
  filename image <> ""%string -> isfile disk (filename image) = true ->
  play disk fuel image loop now s = (Return tt, s') ->
  exists pyimage target blitted dest,
    OrderedDict.get (filename image) (_image_cache (self s')) = Some pyimage
    /\ placement (_scale (self s)) (_center (self s)) (_size (self s)) (get_size pyimage)
       = inr (target, dest)
    /\ match target with
       | None => blitted = pyimage
       | Some size =>
           0 <= fst size /\ 0 <= snd size /\ get_size blitted = size
           /\ get_bytesize blitted = get_bytesize pyimage
       end
    /\ screen (world s')
       = screen (world s) ++ blank_events (self s) false ++ [Blit blitted dest; Flip].
Proof.
  intros Hname Hfile. destruct s as [p w]. rewrite play_eq.
  apply String.eqb_neq in Hname. rewrite Hname, Hfile. simpl negb. simpl andb.
  intros H. apply bind_Return_inv in H. destruct H as ([] & s2 & Hdraw & Hstart).
  unfold modify_self in Hstart. injection Hstart as <-.
  set (p0 := set_loop (normalized_loop image loop) p) in *.
  destruct (valid_color (_bgcolor p0)) eqn:Hvalid;
    [| rewrite play_draw_invalid in Hdraw by exact Hvalid; discriminate Hdraw].
  rewrite play_draw_valid in Hdraw by exact Hvalid.
  pose proof (settings_load_image disk fuel (filename image)
                (mkState p0 (drawn (blank_events p0 false) w))) as Hset.
  pose proof (screen_load_image disk fuel (filename image)
                (mkState p0 (drawn (blank_events p0 false) w))) as Hscr.
  pose proof (load_image_Return_cached disk fuel (filename image)
                (mkState p0 (drawn (blank_events p0 false) w))) as Hcached.
  destruct (_load_image disk fuel (filename image) _) as [[pyimage | e |] [p1 w1]];
    try discriminate.
  specialize (Hcached pyimage _ eq_refl).
  unfold same_settings, same_screen, settings in Hset, Hscr. simpl in Hset, Hscr, Hcached.
  injection Hset as Hdur Hsize Hbg Hscale Hcenter Hwait Hbgi Hloop Hst Hlim.
  cbn [self world] in Hdraw. rewrite Hscale, Hcenter, Hsize in Hdraw.
  destruct (placement (_scale p) (_center p) (_size p) (get_size pyimage))
    as [e | [[target |] dest]] eqn:Hpl; try discriminate.
  - rewrite transform_scale_eq in Hdraw.
    destruct ((fst target <? 0) || (snd target <? 0)) eqn:Hneg; try discriminate.
    apply orb_false_elim in Hneg. destruct Hneg as [Hw Hh].
    apply Z.ltb_ge in Hw, Hh.
    injection Hdraw as <-. simpl.
    exists pyimage, (Some target),
      (mkSurface (next_id w1) (Z.to_N (fst target)) (Z.to_N (snd target))
         (surf_bytesize pyimage)), dest.
    split; [exact Hcached |]. split; [exact Hpl |]. split.
    + split; [exact Hw |]. split; [exact Hh |]. split; [| reflexivity].
      unfold get_size; simpl. rewrite !Z2N.id by assumption.
      destruct target; reflexivity.
    + rewrite Hscr. unfold drawn; simpl. rewrite <- app_assoc. reflexivity.
  - injection Hdraw as <-. simpl.
    exists pyimage, None, pyimage, dest.
    split; [exact Hcached |]. split; [exact Hpl |]. split; [reflexivity |].
    rewrite Hscr. unfold drawn; simpl. rewrite <- app_assoc. reflexivity.
Qed.

(** ** Comparing aspect ratios *)

Lemma SFcompare_antisym x y c :
  SFcompare x y = Some c -> SFcompare y x = Some (CompOpp c).
Proof.
  destruct x as [sx | sx | | sx mx ex], y as [sy | sy | | sy my ey]; simpl;
    try discriminate;
    try (destruct sx; intros [= <-]; reflexivity);
    try (destruct sy; intros [= <-]; reflexivity);
    try (destruct sx, sy; intros [= <-]; reflexivity);
    try (intros [= <-]; reflexivity).
  intros [= <-]. f_equal.
  assert (He : (ey ?= ex) = CompOpp (ex ?= ey)) by apply Z.compare_antisym.
  assert (Hm : Pos.compare_cont Eq my mx = CompOpp (Pos.compare_cont Eq mx my))
    by (rewrite Pos.compare_cont_antisym; reflexivity).
  rewrite He, Hm.
  destruct sx, sy; simpl; try reflexivity;
    destruct (ex ?= ey); simpl; try reflexivity;
    destruct (Pos.compare_cont Eq mx my); reflexivity.
Qed.

Lemma SFcompare_numbers x y :
  is_number x = true -> is_number y = true -> exists c, SFcompare x y = Some c.
Proof.
  destruct x as [sx | sx | | sx mx ex], y as [sy | sy | | sy my ey]; simpl;
    try discriminate; eauto.
Qed.

(** Neither aspect ratio is below the other exactly when they are equal. *)
Lemma aspects_equal_iff x y :
  is_number x = true -> is_number y = true ->
  (Py.flt x y = false /\ Py.flt y x = false) <-> Py.feq x y = true.
Proof.
  intros Hx Hy. destruct (SFcompare_numbers x y Hx Hy) as [c Hc].
  pose proof (SFcompare_antisym x y c Hc) as Hc'.
  unfold Py.flt, Py.feq, SFltb, SFeqb. rewrite Hc, Hc'.
  destruct c; simpl; intuition discriminate.
Qed.

Lemma placement_inv scale center screen_w screen_h image_w image_h target dest :
  placement scale center (screen_w, screen_h) (image_w, image_h) = inr (target, dest) ->
  exists sa pa new_w new_h,
    Py.int_truediv screen_w screen_h = inr sa
    /\ Py.int_truediv image_w image_h = inr pa
    /\ (if scale
        then exists size, target = Some size
                          /\ scaled_size screen_w screen_h image_w image_h sa pa
                             = inr (size, (new_w, new_h))
        else target = None /\ new_w = image_w /\ new_h = image_h)
    /\ dest = if center then centered screen_w screen_h new_w new_h sa pa else (0, 0).
Proof.
  unfold placement.
  destruct (Py.int_truediv screen_w screen_h) as [e | sa]; [discriminate |].
  destruct (Py.int_truediv image_w image_h) as [e | pa]; [discriminate |].
  destruct scale.
  - destruct (scaled_size screen_w screen_h image_w image_h sa pa)
      as [e | [size [new_w new_h]]] eqn:Hsize; [discriminate |].
    intros [= <- <-]. exists sa, pa, new_w, new_h.
    split; [reflexivity |]. split; [reflexivity |]. split; [| reflexivity].
    exists size. split; [reflexivity | exact Hsize].
  - intros [= <- <-]. exists sa, pa, image_w, image_h.
    split; [reflexivity |]. split; [reflexivity |]. split; [| reflexivity].
    split; [reflexivity |]. split; reflexivity.
Qed.

Example scale_width_bound :
  let s := mkState (demo_player 8 true true) fresh_world in
  let s' := snd (play demo_disk 5 (mkImage "wide.png" 1) None (Py.Z2F 100) s) in
  last_blit (screen (world s')) = Some (mkSurface 1 800 400 4, (0, 100)).
Proof. vm_compute. reflexivity. Qed.

Example scale_height_bound :
  let s := mkState (demo_player 8 true true) fresh_world in
  let s' := snd (play demo_disk 5 (mkImage "tall.png" 1) None (Py.Z2F 100) s) in
  last_blit (screen (world s')) = Some (mkSurface 1 300 600 4, (250, 0)).
Proof. vm_compute. reflexivity. Qed.

(** ** Binary64: digits, values *)

Lemma digits2_pos_bounds p :
  2 ^ (Zpos (digits2_pos p) - 1) <= Zpos p < 2 ^ Zpos (digits2_pos p).
Proof.
  induction p as [p IH | p IH |]; simpl digits2_pos.
  - rewrite Pos2Z.inj_succ. replace (Z.succ (Z.pos (digits2_pos p)) - 1)
      with (Z.succ (Z.pos (digits2_pos p) - 1)) by lia.
    rewrite !Z.pow_succ_r by lia. lia.
  - rewrite Pos2Z.inj_succ. replace (Z.succ (Z.pos (digits2_pos p)) - 1)
      with (Z.succ (Z.pos (digits2_pos p) - 1)) by lia.
    rewrite !Z.pow_succ_r by lia. lia.
  - simpl. lia.
Qed.

Lemma Zdigits2_bounds m :
  0 < m -> 2 ^ (Zdigits2 m - 1) <= m < 2 ^ Zdigits2 m.
Proof. destruct m as [| p | p]; try lia. intros _. apply digits2_pos_bounds. Qed.

Lemma Zdigits2_unique m k :
  2 ^ (k - 1) <= m < 2 ^ k -> 0 < k -> Zdigits2 m = k.
Proof.
  intros [Hlo Hhi] Hk.
  assert (Hm : 0 < m) by (pose proof (Z.pow_pos_nonneg 2 (k - 1)); lia).
  pose proof (Zdigits2_bounds m Hm) as [Hlo' Hhi'].
  assert (Hd : 0 < Zdigits2 m) by (destruct m; simpl; lia).
  destruct (Z.lt_trichotomy (Zdigits2 m) k) as [Hlt | [Heq | Hgt]]; [| exact Heq |].
  - assert (2 ^ Zdigits2 m <= 2 ^ (k - 1)) by (apply Z.pow_le_mono_r; lia). lia.
  - assert (2 ^ k <= 2 ^ (Zdigits2 m - 1)) by (apply Z.pow_le_mono_r; lia). lia.
Qed.

Lemma bpow_pos e : (0 < bpow e)%R.
Proof. apply powerRZ_lt. lra. Qed.

Lemma bpow_add e1 e2 : bpow (e1 + e2) = (bpow e1 * bpow e2)%R.
Proof. apply powerRZ_add. lra. Qed.

Lemma bpow_IZR k : 0 <= k -> bpow k = IZR (2 ^ k).
Proof.
  intros Hk. unfold bpow. rewrite <- (Z2Nat.id k) by exact Hk.
  rewrite <- pow_powerRZ, pow_IZR. reflexivity.
Qed.

Lemma bpow_le e1 e2 : e1 <= e2 -> (bpow e1 <= bpow e2)%R.
Proof.
  intros H. replace e2 with (e1 + (e2 - e1)) by lia.
  rewrite bpow_add, (bpow_IZR (e2 - e1)) by lia.
  pose proof (bpow_pos e1).
  assert (1 <= IZR (2 ^ (e2 - e1)))%R.
  { apply IZR_le. pose proof (Z.pow_pos_nonneg 2 (e2 - e1)). lia. }
  nra.
Qed.

Lemma F2R_shift m e k : 0 <= k -> F2R (m * 2 ^ k) e = F2R m (e + k).
Proof.
  intros Hk. unfold F2R. rewrite mult_IZR, (Z.add_comm e k), bpow_add, (bpow_IZR k) by lia.
  ring.
Qed.

Lemma F2R_le m1 m2 e : m1 <= m2 -> (F2R m1 e <= F2R m2 e)%R.
Proof.
  intros H. unfold F2R. apply Rmult_le_compat_r; [left; apply bpow_pos | apply IZR_le, H].
Qed.

Lemma F2R_lt m1 m2 e : m1 < m2 -> (F2R m1 e < F2R m2 e)%R.
Proof.
  intros H. unfold F2R. apply Rmult_lt_compat_r; [apply bpow_pos | apply IZR_lt, H].
Qed.

Lemma F2R_lt_inv m1 m2 e : (F2R m1 e < F2R m2 e)%R -> m1 < m2.
Proof.
  intros H. destruct (Z_lt_le_dec m1 m2) as [Hlt | Hle]; [exact Hlt |].
  apply (F2R_le _ _ e) in Hle. lra.
Qed.

(** ** Shifting right with a round and a sticky bit *)

Lemma iter_pos_nat {A} (f : A -> A) p x :
  SpecFloat.iter_pos f p x = Nat.iter (Pos.to_nat p) f x.
Proof.
  revert x. induction p as [p IH | p IH |]; intros x; simpl SpecFloat.iter_pos.
  - rewrite !IH, Pos2Nat.inj_xI.
    replace (S (2 * Pos.to_nat p)) with (Pos.to_nat p + (Pos.to_nat p + 1))%nat by lia.
    rewrite !Nat.iter_add. reflexivity.
  - rewrite !IH, Pos2Nat.inj_xO.
    replace (2 * Pos.to_nat p)%nat with (Pos.to_nat p + Pos.to_nat p)%nat by lia.
    rewrite Nat.iter_add. reflexivity.
  - reflexivity.
Qed.

Lemma shr_1_m mrs : 0 <= shr_m mrs -> shr_m (shr_1 mrs) = shr_m mrs / 2.
Proof.
  destruct mrs as [m r s]; simpl. intros Hm.
  destruct m as [| [p | p |] | p]; try lia; simpl; try reflexivity.
  - rewrite Pos2Z.inj_xI. apply Z.div_unique with (r := 1); lia.
  - rewrite Pos2Z.inj_xO. apply Z.div_unique with (r := 0); lia.
Qed.

Lemma shr_1_r mrs :
  0 <= shr_m mrs -> shr_r (shr_1 mrs) = true -> 2 * shr_m (shr_1 mrs) < shr_m mrs.
Proof.
  destruct mrs as [m r s]; simpl. intros Hm.
  destruct m as [| [p | p |] | p]; try lia; simpl; try discriminate; lia.
Qed.

Lemma iter_shr_1_m k mrs :
  0 <= shr_m mrs -> shr_m (Nat.iter k shr_1 mrs) = shr_m mrs / 2 ^ Z.of_nat k.
Proof.
  intros Hm. induction k as [| k IH].
  - simpl. rewrite Z.div_1_r. reflexivity.
  - rewrite Nat2Z.inj_succ, Z.pow_succ_r by lia. simpl Nat.iter.
    rewrite shr_1_m.
    + rewrite IH, Z.div_div by lia. f_equal. lia.
    + rewrite IH. apply Z.div_pos; lia.
Qed.

Lemma iter_shr_1_r k mrs :
  0 <= shr_m mrs -> shr_r (Nat.iter (S k) shr_1 mrs) = true ->
  shr_m (Nat.iter (S k) shr_1 mrs) * 2 ^ Z.of_nat (S k) < shr_m mrs.
Proof.
  intros Hm Hr. simpl Nat.iter in *.
  assert (Hk : 0 <= shr_m (Nat.iter k shr_1 mrs)).
  { rewrite iter_shr_1_m by exact Hm. apply Z.div_pos; lia. }
  pose proof (shr_1_r _ Hk Hr) as Hlt.
  pose proof (iter_shr_1_m k mrs Hm) as Hdiv.
  assert (Hp : 0 < 2 ^ Z.of_nat k) by (apply Z.pow_pos_nonneg; lia).
  pose proof (Z.mul_div_le (shr_m mrs) (2 ^ Z.of_nat k) Hp) as Hle.
  rewrite <- Hdiv in Hle.
  rewrite Nat2Z.inj_succ, Z.pow_succ_r by lia. nia.
Qed.

(** ** Rounding a normal number *)

Lemma fexp_normal d e : 53 <= d -> -1074 <= e -> fexp 53 1024 (d + e) = d + e - 53.
Proof. intros Hd He. unfold fexp, emin. lia. Qed.

Lemma Zdigits2_normal m : 2 ^ 52 <= m -> 53 <= Zdigits2 m.
Proof.
  intros Hm. assert (H0 : 0 < m) by lia.
  pose proof (Zdigits2_bounds m H0) as [_ Hhi].
  destruct (Z_lt_le_dec (Zdigits2 m) 53) as [Hlt | Hle]; [| exact Hle].
  assert (2 ^ Zdigits2 m <= 2 ^ 52).
  { apply Z.pow_le_mono_r; lia. }
  lia.
Qed.

Lemma shr_fexp_normal m e l :
  2 ^ 52 <= m -> -1074 <= e ->
  let n := Zdigits2 m - 53 in
  exists mrs,
    shr_fexp 53 1024 m e l = (mrs, e + n)
    /\ shr_m mrs = m / 2 ^ n
    /\ (shr_r mrs = true ->
        (0 < n /\ m / 2 ^ n * 2 ^ n < m) \/ (n = 0 /\ rounds_up l)).
Proof.
  intros Hm He n. pose proof (Zdigits2_normal m Hm) as Hd.
  unfold shr_fexp. rewrite fexp_normal by assumption.
  replace (Zdigits2 m + e - 53 - e) with n by (unfold n; lia).
  assert (Hn : 0 <= n) by (unfold n; lia).
  destruct n as [| p | p] eqn:En; [| | lia]; unfold shr.
  - exists (shr_record_of_loc m l). rewrite Z.add_0_r, Z.div_1_r.
    split; [reflexivity |]. split.
    + destruct l as [| []]; reflexivity.
    + intros Hr. right. split; [reflexivity |].
      unfold rounds_up. destruct l as [| []]; simpl in Hr; try discriminate; auto.
  - exists (SpecFloat.iter_pos shr_1 p (shr_record_of_loc m l)).
    split; [reflexivity |].
    assert (Hm0 : shr_m (shr_record_of_loc m l) = m) by (destruct l as [| []]; reflexivity).
    rewrite iter_pos_nat.
    split.
    + rewrite iter_shr_1_m by (rewrite Hm0; lia).
      rewrite Hm0, positive_nat_Z. reflexivity.
    + intros Hr. left. split; [lia |].
      destruct (Pos2Nat.is_succ p) as [k Hk]. rewrite Hk in Hr.
      assert (Hpk : Z.of_nat (S k) = Z.pos p) by (rewrite <- Hk; apply positive_nat_Z).
      pose proof (iter_shr_1_r k (shr_record_of_loc m l)) as H.
      rewrite Hm0 in H. specialize (H ltac:(lia) Hr).
      rewrite iter_shr_1_m in H by (rewrite Hm0; lia).
      rewrite Hm0, Hpk in H. exact H.
Qed.

Lemma normal_quotient m :
  2 ^ 52 <= m ->
  let n := Zdigits2 m - 53 in
  2 ^ 52 <= m / 2 ^ n < 2 ^ 53
  /\ m / 2 ^ n * 2 ^ n <= m < (m / 2 ^ n + 1) * 2 ^ n.
Proof.
  intros Hm n. pose proof (Zdigits2_normal m Hm) as Hd.
  assert (Hn : 0 <= n) by (unfold n; lia).
  pose proof (Zdigits2_bounds m ltac:(lia)) as [Hlo Hhi].
  replace (Zdigits2 m - 1) with (52 + n) in Hlo by (unfold n; lia).
  replace (Zdigits2 m) with (53 + n) in Hhi by (unfold n; lia).
  rewrite Z.pow_add_r in Hlo, Hhi by lia.
  assert (Hp : 0 < 2 ^ n) by (apply Z.pow_pos_nonneg; lia).
  pose proof (Z.mul_div_le m (2 ^ n) Hp) as Hq1.
  pose proof (Z.mul_succ_div_gt m (2 ^ n) Hp) as Hq2.
  set (q := m / 2 ^ n) in *. set (P := 2 ^ n) in *.
  change (2 ^ 52) with 4503599627370496 in *.
  change (2 ^ 53) with 9007199254740992 in *.
  nia.
Qed.

Lemma round_nearest_even_cases m mrs :
  shr_m mrs = m ->
  let m1 := round_nearest_even m (loc_of_shr_record mrs) in
  m1 = m \/ (m1 = m + 1 /\ shr_r mrs = true).
Proof.
  intros _. destruct mrs as [m0 [|] [|]]; simpl; auto.
  destruct (Z.even m); auto.
Qed.

Lemma binary_round_aux_normal m e l :
  2 ^ 52 <= m -> -1074 <= e -> e + (Zdigits2 m - 53) + 1 <= 971 ->
  let n := Zdigits2 m - 53 in
  exists mr er,
    binary_round_aux 53 1024 false m e l = S754_finite false mr er
    /\ digits2_pos mr = 53%positive
    /\ e + n <= er <= e + n + 1
    /\ (F2R (Zpos mr) er = F2R (m / 2 ^ n) (e + n)
        \/ (F2R (Zpos mr) er = F2R (m / 2 ^ n + 1) (e + n)
            /\ ((0 < n /\ m / 2 ^ n * 2 ^ n < m) \/ (n = 0 /\ rounds_up l)))).
Proof.
  intros Hm He Hmax n.
  destruct (shr_fexp_normal m e l Hm He) as (mrs & Hshr & Hmrs & Hup). fold n in Hshr, Hmrs, Hup.
  pose proof (normal_quotient m Hm) as [[Hqlo Hqhi] _]. fold n in Hqlo, Hqhi.
  pose proof (Zdigits2_normal m Hm) as Hd.
  unfold binary_round_aux. rewrite Hshr.
  pose proof (round_nearest_even_cases (m / 2 ^ n) mrs Hmrs) as Hcases.
  rewrite Hmrs.
  set (m1 := round_nearest_even (m / 2 ^ n) (loc_of_shr_record mrs)) in *.
  assert (Hm1 : 2 ^ 52 <= m1 <= 2 ^ 53) by (destruct Hcases as [-> | [-> _]]; lia).
  destruct (shr_fexp_normal m1 (e + n) loc_Exact) as (mrs2 & Hshr2 & Hmrs2 & _);
    [lia | unfold n; lia |].
  rewrite Hshr2, Hmrs2.
  assert (Hval : exists mr, m1 / 2 ^ (Zdigits2 m1 - 53) = Zpos mr
                   /\ digits2_pos mr = 53%positive
                   /\ F2R (Zpos mr) (e + n + (Zdigits2 m1 - 53)) = F2R m1 (e + n)
                   /\ 0 <= Zdigits2 m1 - 53 <= 1).
  { destruct (Z_lt_le_dec m1 (2 ^ 53)) as [Hlt | Hge].
    - assert (Hd1 : Zdigits2 m1 = 53) by (apply Zdigits2_unique; simpl; lia).
      rewrite Hd1. simpl (53 - 53). rewrite Z.div_1_r, Z.add_0_r.
      destruct m1 as [| mr |]; try lia. exists mr.
      split; [reflexivity |]. split; [| split; [reflexivity | lia]].
      simpl in Hd1. congruence.
    - assert (Hm1' : m1 = 2 ^ 53) by lia. rewrite Hm1'.
      exists (2 ^ 52)%positive. vm_compute Zdigits2.
      split; [reflexivity |]. split; [reflexivity |]. split; [| lia].
      replace (54 - 53) with 1 by lia.
      rewrite <- F2R_shift by lia. reflexivity. }
  destruct Hval as (mr & -> & Hdig & Hv & Hn2).
  exists mr, (e + n + (Zdigits2 m1 - 53)).
  replace (e + n + (Zdigits2 m1 - 53) <=? 1024 - 53) with true
    by (symmetry; apply Z.leb_le; unfold n; lia).
  split; [reflexivity |]. split; [exact Hdig |]. split; [lia |].
  rewrite Hv. destruct Hcases as [-> | [-> Hr]]; [left; reflexivity |].
  right. split; [reflexivity | exact (Hup Hr)].
Qed.

Lemma digits_53_bounds mf : digits2_pos mf = 53%positive -> 2 ^ 52 <= Zpos mf < 2 ^ 53.
Proof. intros H. pose proof (digits2_pos_bounds mf) as Hb. rewrite H in Hb. exact Hb. Qed.

Lemma F2R_bpow k e : 0 <= k -> F2R (2 ^ k) e = bpow (k + e).
Proof. intros Hk. unfold F2R. rewrite bpow_add, (bpow_IZR k) by lia. reflexivity. Qed.

(** A double with the smaller exponent is below every 53-bit mantissa at the
    larger exponent. *)
Lemma smaller_exponent_below mf ef m' e' :
  Zpos mf < 2 ^ 53 -> 2 ^ 52 <= m' -> ef < e' ->
  (F2R (Zpos mf) ef < F2R m' e')%R.
Proof.
  intros Hmf Hm' He.
  apply Rlt_le_trans with (F2R (2 ^ 53) ef); [apply F2R_lt; exact Hmf |].
  apply Rle_trans with (F2R (2 ^ 52) e'); [| apply F2R_le; exact Hm'].
  rewrite !F2R_bpow by lia. apply bpow_le. lia.
Qed.

Lemma rounds_to_between m' e' X r mup :
  2 ^ 52 <= m' ->
  (F2R m' e' <= X < F2R (m' + 1) e')%R ->
  (r = F2R m' e' \/ (r = F2R (m' + 1) e' /\ (F2R m' e' < X)%R)) ->
  mup = m' + 1 ->
  rounds_to X r.
Proof.
  intros Hm' [HXlo HXhi] Hr -> mf ef Hdig.
  pose proof (digits_53_bounds mf Hdig) as [Hflo Hfhi].
  destruct (Z_lt_le_dec ef e') as [Hlt | Hge].
  - (* the double has the smaller exponent: it is below m' 2^e' *)
    pose proof (smaller_exponent_below mf ef m' e' Hfhi Hm' Hlt) as Hbelow.
    pose proof (F2R_lt m' (m' + 1) e' ltac:(lia)) as Hstep.
    split; intros H; destruct Hr as [-> | [-> HX]]; lra.
  - (* the double is a multiple of 2^e' *)
    assert (HF : F2R (Zpos mf) ef = F2R (Zpos mf * 2 ^ (ef - e')) e').
    { rewrite F2R_shift by lia. f_equal. lia. }
    rewrite HF. set (k := Zpos mf * 2 ^ (ef - e')) in *.
    split; intros H; destruct Hr as [-> | [-> HX]].
    + lra.
    + apply F2R_le. assert (Hk : (F2R m' e' < F2R k e')%R) by lra.
      apply F2R_lt_inv in Hk. lia.
    + apply F2R_le. assert (Hk : (F2R k e' < F2R (m' + 1) e')%R) by lra.
      apply F2R_lt_inv in Hk. lia.
    + lra.
Qed.

(** Rounding a bracketed real in the normal range. *)
Lemma binary_round_aux_rounds m e l X :
  2 ^ 52 <= m -> -1074 <= e -> e + (Zdigits2 m - 53) + 1 <= 971 ->
  (F2R m e <= X < F2R (m + 1) e)%R ->
  (rounds_up l -> (F2R m e < X)%R) ->
  exists mr er,
    binary_round_aux 53 1024 false m e l = S754_finite false mr er
    /\ digits2_pos mr = 53%positive
    /\ e + (Zdigits2 m - 53) <= er <= e + (Zdigits2 m - 53) + 1
    /\ rounds_to X (F2R (Zpos mr) er).
Proof.
  intros Hm He Hmax [HXlo HXhi] Hl.
  destruct (binary_round_aux_normal m e l Hm He Hmax) as (mr & er & Heq & Hdig & Her & Hv).
  pose proof (normal_quotient m Hm) as [[Hqlo Hqhi] [Hq1 Hq2]].
  pose proof (Zdigits2_normal m Hm) as Hd.
  set (n := Zdigits2 m - 53) in *.
  set (m' := m / 2 ^ n) in *.
  assert (Hlo : (F2R m' (e + n) <= F2R m e)%R).
  { rewrite <- F2R_shift by lia. apply F2R_le. exact Hq1. }
  assert (Hhi : (F2R (m + 1) e <= F2R (m' + 1) (e + n))%R).
  { rewrite <- F2R_shift by lia. apply F2R_le. lia. }
  exists mr, er. split; [exact Heq |]. split; [exact Hdig |].
  assert (Hround : rounds_to X (F2R (Zpos mr) er)).
  { apply (rounds_to_between m' (e + n) X _ (m' + 1)); [exact Hqlo | lra | | reflexivity].
    destruct Hv as [-> | [-> Hup]]; [left; reflexivity |].
    right. split; [reflexivity |].
    destruct Hup as [[Hn Hlt] | [Hn Hup]].
    - apply Rlt_le_trans with (F2R m e); [| exact HXlo].
      rewrite <- F2R_shift by lia. apply F2R_lt. exact Hlt.
    - apply Hl in Hup. unfold m'. rewrite Hn, Z.div_1_r, Z.add_0_r. exact Hup. }
  split; [exact Her | exact Hround].
Qed.

(** ** The operations on normal doubles *)

Lemma F2R_0 m : F2R m 0 = IZR m.
Proof. unfold F2R, bpow. simpl. ring. Qed.

Lemma iter_xO p k : Zpos (Pos.iter xO p k) = Zpos p * 2 ^ Zpos k.
Proof.
  induction k as [| k IH] using Pos.peano_ind.
  - simpl. lia.
  - rewrite Pos.iter_succ, Pos2Z.inj_xO, IH, Pos2Z.inj_succ, Z.pow_succ_r by lia. lia.
Qed.

(** Integers below 2^53 convert exactly. *)
Lemma Z2F_exact n :
  0 < n < 2 ^ 53 ->
  exists m e, normal (Py.Z2F n) m e /\ -52 <= e <= 1 /\ F2R (Zpos m) e = IZR n.
Proof.
  intros [Hlo Hhi]. destruct n as [| p |]; try lia.
  unfold Py.Z2F, binary_normalize, binary_round.
  pose proof (digits2_pos_bounds p) as [Hdlo Hdhi].
  set (d := Zpos (digits2_pos p)) in *.
  assert (Hd : 1 <= d <= 53).
  { split; [unfold d; lia |].
    destruct (Z_lt_le_dec 53 d) as [Hgt | Hle]; [| exact Hle].
    assert (2 ^ 53 <= 2 ^ (d - 1)) by (apply Z.pow_le_mono_r; lia). lia. }
  replace (fexp Py.prec Py.emax (d + 0)) with (d - 53)
    by (unfold fexp, emin, Py.prec, Py.emax; lia).
  assert (Halign : exists mz, shl_align p 0 (d - 53) = (mz, d - 53)
                              /\ Zpos mz = Zpos p * 2 ^ (53 - d)).
  { unfold shl_align. destruct (d - 53 - 0) as [| k | k] eqn:Ek; try lia.
    - exists p. replace (d - 53) with 0 by lia. replace (53 - d) with 0 by lia.
      split; [reflexivity | simpl; lia].
    - exists (Pos.iter xO p k). split; [reflexivity |].
      rewrite iter_xO. f_equal. f_equal. lia. }
  destruct Halign as (mz & -> & Hmz).
  assert (Hmzb : 2 ^ 52 <= Zpos mz < 2 ^ 53).
  { rewrite Hmz.
    replace (2 ^ 52) with (2 ^ (d - 1) * 2 ^ (53 - d))
      by (rewrite <- Z.pow_add_r by lia; f_equal; lia).
    replace (2 ^ 53) with (2 ^ d * 2 ^ (53 - d))
      by (rewrite <- Z.pow_add_r by lia; f_equal; lia).
    pose proof (Z.pow_pos_nonneg 2 (53 - d) ltac:(lia) ltac:(lia)). nia. }
  assert (Hdz : Zdigits2 (Zpos mz) = 53) by (apply Zdigits2_unique; simpl; lia).
  destruct (binary_round_aux_normal (Zpos mz) (d - 53) loc_Exact)
    as (mr & er & Heq & Hdig & Her & Hv); [lia | lia | rewrite Hdz; lia |].
  rewrite Hdz in Her, Hv. simpl (53 - 53) in Her, Hv.
  rewrite Z.div_1_r, Z.add_0_r in Hv.
  exists mr, er. split; [split; [exact Heq | exact Hdig] |]. split; [lia |].
  destruct Hv as [Hv | [_ [[Hn _] | [_ [Hl | Hl]]]]]; try lia; try discriminate.
  rewrite Hv, Hmz, F2R_shift by lia.
  replace (d - 53 + (53 - d)) with 0 by lia. apply F2R_0.
Qed.

Lemma new_location_rounds_up nb_steps k :
  rounds_up (new_location nb_steps k) -> k <> 0.
Proof.
  unfold new_location, new_location_even, new_location_odd, rounds_up.
  intros H ->. destruct (Z.even nb_steps); simpl in H; destruct H; discriminate.
Qed.

(** Division of two normal doubles, away from overflow and underflow. *)
Lemma fdiv_rounds x mx ex y my ey :
  normal x mx ex -> normal y my ey -> -1021 <= ex - ey <= 1022 ->
  exists mr er,
    normal (Py.fdiv x y) mr er
    /\ ex - ey - 53 <= er <= ex - ey - 51
    /\ rounds_to (F2R (Zpos mx) ex / F2R (Zpos my) ey) (F2R (Zpos mr) er).
Proof.
  intros [-> Hdx] [-> Hdy] He.
  pose proof (digits_53_bounds mx Hdx) as [Hxlo Hxhi].
  pose proof (digits_53_bounds my Hdy) as [Hylo Hyhi].
  unfold Py.fdiv, SFdiv, SFdiv_core_binary. simpl Zdigits2. rewrite Hdx, Hdy.
  replace (Z.min (fexp Py.prec Py.emax (53 + ex - (53 + ey))) (ex - ey))
    with (ex - ey - 53) by (unfold fexp, emin, Py.prec, Py.emax; lia).
  replace (ex - ey - (ex - ey - 53)) with 53 by lia.
  change (IntDef.Z.shiftl (Zpos mx) 53) with (Z.shiftl (Zpos mx) 53).
  change IntDef.Z.div_eucl with Z.div_eucl.
  rewrite Z.shiftl_mul_pow2 by lia.
  pose proof (Z_div_mod (Zpos mx * 2 ^ 53) (Zpos my) ltac:(lia)) as Hdm.
  destruct (Z.div_eucl (Zpos mx * 2 ^ 53) (Zpos my)) as [q r].
  destruct Hdm as [Hq Hr].
  assert (Hqb : 2 ^ 52 <= q < 2 ^ 54).
  { change (2 ^ 52) with 4503599627370496 in *.
    change (2 ^ 53) with 9007199254740992 in *.
    change (2 ^ 54) with 18014398509481984. nia. }
  assert (Hdq : 53 <= Zdigits2 q <= 54).
  { split; [apply Zdigits2_normal; lia |].
    destruct (Z_lt_le_dec 54 (Zdigits2 q)) as [Hgt | Hle]; [| exact Hle].
    pose proof (Zdigits2_bounds q ltac:(lia)) as [Hlo _].
    assert (2 ^ 54 <= 2 ^ (Zdigits2 q - 1)) by (apply Z.pow_le_mono_r; lia). lia. }
  set (X := (F2R (Zpos mx) ex / F2R (Zpos my) ey)%R).
  assert (HX : X = (IZR (Zpos mx * 2 ^ 53) * bpow (ex - ey - 53) / IZR (Zpos my))%R).
  { unfold X, F2R. replace ex with (ey + 53 + (ex - ey - 53)) at 1 by lia.
    rewrite !bpow_add, (bpow_IZR 53), mult_IZR by lia.
    pose proof (bpow_pos ey). assert (0 < IZR (Zpos my))%R by (apply IZR_lt; lia).
    field. split; lra. }
  assert (Hmy : (0 < IZR (Zpos my))%R) by (apply IZR_lt; lia).
  pose proof (bpow_pos (ex - ey - 53)) as HB.
  assert (Hlo : (F2R q (ex - ey - 53) <= X)%R).
  { rewrite HX. unfold F2R. apply Rmult_le_reg_r with (IZR (Zpos my)); [exact Hmy |].
    replace (IZR (Zpos mx * 2 ^ 53) * bpow (ex - ey - 53) / IZR (Zpos my) * IZR (Zpos my))%R
      with (IZR (Zpos mx * 2 ^ 53) * bpow (ex - ey - 53))%R by (field; lra).
    rewrite Hq, plus_IZR, mult_IZR.
    assert (0 <= IZR r)%R by (apply IZR_le; lia). nra. }
  assert (Hhi : (X < F2R (q + 1) (ex - ey - 53))%R).
  { rewrite HX. unfold F2R. apply Rmult_lt_reg_r with (IZR (Zpos my)); [exact Hmy |].
    replace (IZR (Zpos mx * 2 ^ 53) * bpow (ex - ey - 53) / IZR (Zpos my) * IZR (Zpos my))%R
      with (IZR (Zpos mx * 2 ^ 53) * bpow (ex - ey - 53))%R by (field; lra).
    rewrite Hq, !plus_IZR, mult_IZR.
    assert (IZR r < IZR (Zpos my))%R by (apply IZR_lt; lia). nra. }
  assert (Hup : rounds_up (new_location (Zpos my) r) -> (F2R q (ex - ey - 53) < X)%R).
  { intros Hl. apply new_location_rounds_up in Hl.
    rewrite HX. unfold F2R. apply Rmult_lt_reg_r with (IZR (Zpos my)); [exact Hmy |].
    replace (IZR (Zpos mx * 2 ^ 53) * bpow (ex - ey - 53) / IZR (Zpos my) * IZR (Zpos my))%R
      with (IZR (Zpos mx * 2 ^ 53) * bpow (ex - ey - 53))%R by (field; lra).
    rewrite Hq, plus_IZR, mult_IZR.
    assert (0 < IZR r)%R by (apply IZR_lt; lia). nra. }
  destruct (binary_round_aux_rounds q (ex - ey - 53) (new_location (Zpos my) r) X)
    as (mr & er & Heq & Hdig & Her & Hround); [lia | lia | lia | lra | exact Hup |].
  exists mr, er. split; [split; [exact Heq | exact Hdig] |]. split; [lia | exact Hround].
Qed.

(** Multiplication of two normal doubles, away from overflow and underflow. *)
Lemma fmul_rounds x mx ex y my ey :
  normal x mx ex -> normal y my ey -> -1074 <= ex + ey <= 900 ->
  exists mr er,
    normal (Py.fmul x y) mr er
    /\ rounds_to (F2R (Zpos mx) ex * F2R (Zpos my) ey) (F2R (Zpos mr) er).
Proof.
  intros [-> Hdx] [-> Hdy] He.
  pose proof (digits_53_bounds mx Hdx) as [Hxlo Hxhi].
  pose proof (digits_53_bounds my Hdy) as [Hylo Hyhi].
  unfold Py.fmul, SFmul.
  change (Zpos (PosDef.Pos.mul mx my)) with (Zpos mx * Zpos my).
  set (m := Zpos mx * Zpos my).
  assert (Hm : 2 ^ 104 <= m < 2 ^ 106).
  { unfold m. change (2 ^ 52) with 4503599627370496 in *.
    change (2 ^ 53) with 9007199254740992 in *.
    change (2 ^ 104) with (4503599627370496 * 4503599627370496).
    change (2 ^ 106) with (9007199254740992 * 9007199254740992). nia. }
  assert (Hdm : 105 <= Zdigits2 m <= 106).
  { pose proof (Zdigits2_bounds m ltac:(lia)) as [Hlo Hhi]. split.
    - destruct (Z_lt_le_dec (Zdigits2 m) 105) as [Hlt | Hle]; [| exact Hle].
      assert (2 ^ Zdigits2 m <= 2 ^ 104).
      { apply Z.pow_le_mono_r; [lia |]. lia. }
      lia.
    - destruct (Z_lt_le_dec 106 (Zdigits2 m)) as [Hgt | Hle]; [| exact Hle].
      assert (2 ^ 106 <= 2 ^ (Zdigits2 m - 1)) by (apply Z.pow_le_mono_r; lia). lia. }
  set (X := (F2R (Zpos mx) ex * F2R (Zpos my) ey)%R).
  assert (HX : X = F2R m (ex + ey)).
  { unfold X, m, F2R. rewrite mult_IZR, bpow_add. ring. }
  destruct (binary_round_aux_rounds m (ex + ey) loc_Exact X)
    as (mr & er & Heq & Hdig & Her & Hround).
  - assert (2 ^ 52 <= 2 ^ 104) by (apply Z.pow_le_mono_r; lia). lia.
  - lia.
  - lia.
  - rewrite HX. split; [lra | apply F2R_lt; lia].
  - intros [Hl | Hl]; discriminate.
  - exists mr, er. split; [split; [exact Heq | exact Hdig] | exact Hround].
Qed.

(** The order of normal doubles is the order of their values. *)
Lemma flt_normal x mx ex y my ey :
  normal x mx ex -> normal y my ey ->
  Py.flt x y = true <-> (F2R (Zpos mx) ex < F2R (Zpos my) ey)%R.
Proof.
  intros [-> Hdx] [-> Hdy].
  pose proof (digits_53_bounds mx Hdx) as [Hxlo Hxhi].
  pose proof (digits_53_bounds my Hdy) as [Hylo Hyhi].
  unfold Py.flt, SFltb, SFcompare.
  change (PosDef.Pos.compare_cont Eq mx my) with (Pos.compare mx my).
  change (IntDef.Z.compare ex ey) with (Z.compare ex ey).
  destruct (Z.compare_spec ex ey) as [-> | Hlt | Hgt].
  - destruct (Pos.compare_spec mx my) as [-> | Hm | Hm].
    + split; [discriminate | lra].
    + split; [intros _; apply F2R_lt; lia | reflexivity].
    + split; [discriminate |]. intros H. apply F2R_lt_inv in H. lia.
  - split; [intros _ | reflexivity].
    apply smaller_exponent_below; assumption.
  - split; [discriminate |]. intros H.
    pose proof (smaller_exponent_below my ey (Zpos mx) ex Hyhi Hxlo Hgt). lra.
Qed.

(** [int(x)] is at most the value of [x]. *)
Lemma int_of_float_le m e :
  exists z, Py.int_of_float (S754_finite false m e) = inr z
            /\ (IZR z <= F2R (Zpos m) e)%R /\ 0 <= z.
Proof.
  unfold Py.int_of_float, cond_Zopp. eexists. split; [reflexivity |].
  change (IntDef.Z.shiftl (Zpos m) e) with (Z.shiftl (Zpos m) e).
  destruct (Z_lt_le_dec e 0) as [Hneg | Hpos].
  - rewrite Z.shiftl_div_pow2 by lia.
    assert (Hp : 0 < 2 ^ (- e)) by (apply Z.pow_pos_nonneg; lia).
    split; [| apply Z.div_pos; lia].
    rewrite <- F2R_0. replace 0 with (e + - e) by lia.
    rewrite <- F2R_shift by lia. apply F2R_le.
    rewrite Z.mul_comm. apply Z.mul_div_le. exact Hp.
  - rewrite Z.shiftl_mul_pow2 by lia.
    split; [| pose proof (Z.pow_pos_nonneg 2 e); nia].
    rewrite <- F2R_0, F2R_shift by lia. rewrite Z.add_0_l. lra.
Qed.

(** ** The quotient of two ints is a number *)

Lemma loc_of_record_of_loc m l : loc_of_shr_record (shr_record_of_loc m l) = l.
Proof. destruct l as [| []]; reflexivity. Qed.

Lemma shr_m_record_of_loc m l : shr_m (shr_record_of_loc m l) = m.
Proof. destruct l as [| []]; reflexivity. Qed.

Lemma shr_nonneg mrs e n : 0 <= shr_m mrs -> 0 <= shr_m (fst (shr mrs e n)).
Proof.
  intros Hm. unfold shr. destruct n as [| p | p]; cbn [fst]; try exact Hm.
  rewrite iter_pos_nat, iter_shr_1_m by exact Hm.
  apply Z.div_pos; [exact Hm | apply Z.pow_pos_nonneg; lia].
Qed.

Lemma round_nearest_even_nonneg m l : 0 <= m -> 0 <= round_nearest_even m l.
Proof.
  intros Hm. destruct l as [| []]; simpl; try lia.
  change (IntDef.Z.even m) with (Z.even m). destruct (Z.even m); lia.
Qed.

(** Rounding a mantissa that is not negative never gives NaN. *)
Lemma binary_round_aux_not_nan sx m e l :
  0 <= m -> binary_round_aux 53 1024 sx m e l <> S754_nan.
Proof.
  intros Hm. unfold binary_round_aux, shr_fexp.
  pose proof (shr_nonneg (shr_record_of_loc m l) e
                (fexp 53 1024 (Zdigits2 m + e) - e)) as H1.
  rewrite shr_m_record_of_loc in H1. specialize (H1 Hm).
  destruct (shr (shr_record_of_loc m l) e (fexp 53 1024 (Zdigits2 m + e) - e))
    as [mrs1 e1]. cbn [fst] in H1.
  set (m1 := round_nearest_even (shr_m mrs1) (loc_of_shr_record mrs1)).
  assert (Hm1 : 0 <= m1) by (apply round_nearest_even_nonneg; exact H1).
  pose proof (shr_nonneg (shr_record_of_loc m1 loc_Exact) e1
                (fexp 53 1024 (Zdigits2 m1 + e1) - e1)) as H2.
  rewrite shr_m_record_of_loc in H2. specialize (H2 Hm1).
  destruct (shr (shr_record_of_loc m1 loc_Exact) e1 (fexp 53 1024 (Zdigits2 m1 + e1) - e1))
    as [mrs2 e2]. cbn [fst] in H2.
  destruct (shr_m mrs2) as [| p | p]; [discriminate | | lia].
  destruct (e2 <=? 1024 - 53); discriminate.
Qed.

(** The quotient of two ints, the divisor not 0: never NaN. *)
Lemma int_exact_div_not_nan a b :
  b <> 0 -> Py.fdiv (Py.int_exact a) (Py.int_exact b) <> S754_nan.
Proof.
  intros Hb.
  assert (Hfin : forall sx mx sy my,
            Py.fdiv (S754_finite sx mx 0) (S754_finite sy my 0) <> S754_nan).
  { intros sx mx sy my. unfold Py.fdiv, SFdiv, SFdiv_core_binary.
    set (e' := Z.min _ _). set (m' := match 0 - 0 - e' with
                                      | Zpos _ => _ | 0 => _ | Zneg _ => _ end).
    assert (Hm' : 0 <= m').
    { unfold m'. destruct (0 - 0 - e') as [| ps | ps]; try lia.
      change (IntDef.Z.shiftl (Zpos mx) (Zpos ps)) with (Z.shiftl (Zpos mx) (Zpos ps)).
      rewrite Z.shiftl_mul_pow2 by lia. apply Z.mul_nonneg_nonneg; [lia |].
      apply Z.pow_nonneg. lia. }
    change IntDef.Z.div_eucl with Z.div_eucl.
    pose proof (Z_div_mod m' (Zpos my) ltac:(lia)) as Hdm.
    destruct (Z.div_eucl m' (Zpos my)) as [q r]. destruct Hdm as [Hq Hr].
    apply binary_round_aux_not_nan. nia. }
  destruct a as [| pa | pa], b as [| pb | pb]; try contradiction (Hb eq_refl);
    try apply Hfin; cbn; discriminate.
Qed.

Lemma int_truediv_is_number a b q : Py.int_truediv a b = inr q -> is_number q = true.
Proof.
  unfold Py.int_truediv. destruct (Z.eqb_spec b 0) as [-> | Hb]; [discriminate |].
  pose proof (int_exact_div_not_nan a b Hb) as Hnan.
  destruct (Py.fdiv (Py.int_exact a) (Py.int_exact b)); try discriminate;
    try contradiction (Hnan eq_refl); intros [= <-]; reflexivity.
Qed.

(** ** Where a quotient lies *)

Lemma located_bounds Y m l : located Y m l -> (IZR m <= Y < IZR m + 1)%R.
Proof. destruct l as [| []]; simpl; lra. Qed.

Lemma located_unique Y m1 l1 m2 l2 :
  located Y m1 l1 -> located Y m2 l2 -> m1 = m2 /\ l1 = l2.
Proof.
  intros H1 H2.
  pose proof (located_bounds _ _ _ H1) as B1. pose proof (located_bounds _ _ _ H2) as B2.
  assert (Hm : m1 = m2).
  { assert (IZR m1 < IZR (m2 + 1))%R by (rewrite plus_IZR; lra).
    assert (IZR m2 < IZR (m1 + 1))%R by (rewrite plus_IZR; lra).
    apply lt_IZR in H. apply lt_IZR in H0. lia. }
  subst m2. split; [reflexivity |].
  destruct l1 as [| []], l2 as [| []]; simpl in *; try reflexivity; lra.
Qed.

Lemma new_location_located my r q :
  0 <= r < my ->
  located (IZR q + IZR r / IZR my) q (new_location my r).
Proof.
  intros Hr.
  assert (Hmy : (0 < IZR my)%R) by (apply IZR_lt; lia).
  assert (Hfrac : forall c : R, (IZR r / IZR my < c <-> IZR r < c * IZR my)%R).
  { intros c. split; intros H.
    - apply Rmult_lt_compat_r with (r := IZR my) in H; [| exact Hmy].
      replace (IZR r / IZR my * IZR my)%R with (IZR r) in H by (field; lra). exact H.
    - apply Rmult_lt_reg_r with (IZR my); [exact Hmy |].
      replace (IZR r / IZR my * IZR my)%R with (IZR r) by (field; lra). exact H. }
  assert (Hfrac' : forall c : R, (c < IZR r / IZR my <-> c * IZR my < IZR r)%R).
  { intros c. split; intros H.
    - apply Rmult_lt_compat_r with (r := IZR my) in H; [| exact Hmy].
      replace (IZR r / IZR my * IZR my)%R with (IZR r) in H by (field; lra). exact H.
    - apply Rmult_lt_reg_r with (IZR my); [exact Hmy |].
      replace (IZR r / IZR my * IZR my)%R with (IZR r) by (field; lra). exact H. }
  assert (Hr1 : (IZR r < IZR my)%R) by (apply IZR_lt; lia).
  assert (Hlt1 : (IZR r / IZR my < 1)%R) by (apply Hfrac; lra).
  unfold new_location.
  change (IntDef.Z.even my) with (Z.even my).
  destruct (Z.even my) eqn:Hev.
  - unfold new_location_even. destruct (Z.eqb_spec r 0) as [-> | Hr0].
    + simpl. unfold Rdiv. rewrite Rmult_0_l. ring.
    + assert (Hr0' : (0 < IZR r)%R) by (apply IZR_lt; lia).
      destruct (Z.compare_spec (2 * r) my) as [Heq | Hlt | Hgt]; simpl.
      * assert (IZR r / IZR my = / 2)%R.
        { rewrite <- Heq, mult_IZR. field. lra. }
        lra.
      * assert (IZR r / IZR my < / 2)%R.
        { apply Hfrac. apply IZR_lt in Hlt. rewrite mult_IZR in Hlt. lra. }
        assert (0 < IZR r / IZR my)%R by (apply Hfrac'; lra).
        lra.
      * assert (/ 2 < IZR r / IZR my)%R.
        { apply Hfrac'. apply IZR_lt in Hgt. rewrite mult_IZR in Hgt. lra. }
        lra.
  - unfold new_location_odd. destruct (Z.eqb_spec r 0) as [-> | Hr0].
    + simpl. unfold Rdiv. rewrite Rmult_0_l. ring.
    + assert (Hr0' : (0 < IZR r)%R) by (apply IZR_lt; lia).
      assert (Hodd : 2 * r <> my).
      { intros <-. rewrite Z.even_mul in Hev. discriminate Hev. }
      destruct (Z.compare_spec (2 * r + 1) my) as [Heq | Hlt | Hgt]; simpl.
      * assert (IZR r / IZR my < / 2)%R.
        { apply Hfrac. assert (Hlt : 2 * r < my) by lia.
          apply IZR_lt in Hlt. rewrite mult_IZR in Hlt. lra. }
        assert (0 < IZR r / IZR my)%R by (apply Hfrac'; lra).
        lra.
      * assert (IZR r / IZR my < / 2)%R.
        { apply Hfrac. assert (Hlt' : 2 * r < my) by lia.
          apply IZR_lt in Hlt'. rewrite mult_IZR in Hlt'. lra. }
        assert (0 < IZR r / IZR my)%R by (apply Hfrac'; lra).
        lra.
      * assert (/ 2 < IZR r / IZR my)%R.
        { apply Hfrac'. assert (Hgt' : my < 2 * r) by lia.
          apply IZR_lt in Hgt'. rewrite mult_IZR in Hgt'. lra. }
        lra.
Qed.

(** Division of two normal doubles: where the exact quotient lies. *)
Lemma fdiv_located mx ex my ey :
  digits2_pos mx = 53%positive -> digits2_pos my = 53%positive ->
  -1021 <= ex - ey <= 1022 ->
  exists q l,
    Py.fdiv (S754_finite false mx ex) (S754_finite false my ey)
    = binary_round_aux 53 1024 false q (ex - ey - 53) l
    /\ 2 ^ 52 <= q < 2 ^ 54
    /\ located (F2R (Zpos mx) ex / F2R (Zpos my) ey * bpow (- (ex - ey - 53))) q l.
Proof.
  intros Hdx Hdy He.
  pose proof (digits_53_bounds mx Hdx) as [Hxlo Hxhi].
  pose proof (digits_53_bounds my Hdy) as [Hylo Hyhi].
  unfold Py.fdiv, SFdiv, SFdiv_core_binary. simpl Zdigits2. rewrite Hdx, Hdy.
  replace (Z.min (fexp Py.prec Py.emax (53 + ex - (53 + ey))) (ex - ey))
    with (ex - ey - 53) by (unfold fexp, emin, Py.prec, Py.emax; lia).
  replace (ex - ey - (ex - ey - 53)) with 53 by lia.
  change (IntDef.Z.shiftl (Zpos mx) 53) with (Z.shiftl (Zpos mx) 53).
  change IntDef.Z.div_eucl with Z.div_eucl.
  rewrite Z.shiftl_mul_pow2 by lia.
  pose proof (Z_div_mod (Zpos mx * 2 ^ 53) (Zpos my) ltac:(lia)) as Hdm.
  destruct (Z.div_eucl (Zpos mx * 2 ^ 53) (Zpos my)) as [q r].
  destruct Hdm as [Hq Hr].
  assert (Hqb : 2 ^ 52 <= q < 2 ^ 54).
  { change (2 ^ 52) with 4503599627370496 in *.
    change (2 ^ 53) with 9007199254740992 in *.
    change (2 ^ 54) with 18014398509481984. nia. }
  exists q, (new_location (Zpos my) r).
  split; [reflexivity |]. split; [exact Hqb |].
  assert (Hmy : (0 < IZR (Zpos my))%R) by (apply IZR_lt; lia).
  replace (F2R (Zpos mx) ex / F2R (Zpos my) ey * bpow (- (ex - ey - 53)))%R
    with (IZR q + IZR r / IZR (Zpos my))%R; [apply new_location_located; lia |].
  unfold F2R. replace ex with (ey + 53 + (ex - ey - 53)) at 1 by lia.
  rewrite !bpow_add, (bpow_IZR 53) by lia.
  pose proof (bpow_pos ey) as Hey. pose proof (bpow_pos (ex - ey - 53)) as Hb.
  assert (Hinv : (bpow (ex - ey - 53) * bpow (- (ex - ey - 53)) = 1)%R).
  { rewrite <- bpow_add. replace (ex - ey - 53 + - (ex - ey - 53)) with 0 by lia.
    reflexivity. }
  assert (HqR : (IZR (Zpos mx) * IZR (2 ^ 53) = IZR (Zpos my) * IZR q + IZR r)%R).
  { rewrite <- !mult_IZR, <- plus_IZR. f_equal. exact Hq. }
  set (c53 := IZR (2 ^ 53)) in *.
  set (B := bpow (ex - ey - 53)) in *. set (B' := bpow (- (ex - ey - 53))) in *.
  replace (IZR (Zpos mx) * (bpow ey * c53 * B) / (IZR (Zpos my) * bpow ey) * B')%R
    with (IZR (Zpos mx) * c53 / IZR (Zpos my) * (B * B'))%R by (field; lra).
  rewrite Hinv, HqR. field. lra.
Qed.

(** The exact quotient of two positive ints below 2^53: where it lies. *)
Lemma int_exact_div_located pa pb :
  Zpos pa < 2 ^ 53 -> Zpos pb < 2 ^ 53 ->
  let e := Zpos (digits2_pos pa) - Zpos (digits2_pos pb) - 53 in
  exists q l,
    Py.fdiv (S754_finite false pa 0) (S754_finite false pb 0)
    = binary_round_aux 53 1024 false q e l
    /\ 2 ^ 52 <= q < 2 ^ 54
    /\ located (IZR (Zpos pa) / IZR (Zpos pb) * bpow (- e)) q l.
Proof.
  intros Ha Hb e.
  pose proof (digits2_pos_bounds pa) as [Halo Hahi].
  pose proof (digits2_pos_bounds pb) as [Hblo Hbhi].
  set (da := Zpos (digits2_pos pa)) in *. set (db := Zpos (digits2_pos pb)) in *.
  assert (Hda : 1 <= da <= 53).
  { split; [unfold da; lia |].
    destruct (Z_lt_le_dec 53 da) as [Hgt | Hle]; [| exact Hle].
    assert (2 ^ 53 <= 2 ^ (da - 1)) by (apply Z.pow_le_mono_r; lia). lia. }
  assert (Hdb : 1 <= db <= 53).
  { split; [unfold db; lia |].
    destruct (Z_lt_le_dec 53 db) as [Hgt | Hle]; [| exact Hle].
    assert (2 ^ 53 <= 2 ^ (db - 1)) by (apply Z.pow_le_mono_r; lia). lia. }
  unfold Py.fdiv, SFdiv, SFdiv_core_binary.
  change (Zdigits2 (Zpos pa)) with da. change (Zdigits2 (Zpos pb)) with db.
  replace (Z.min (fexp Py.prec Py.emax (da + 0 - (db + 0))) (0 - 0)) with e
    by (unfold e, fexp, emin, Py.prec, Py.emax; lia).
  set (sft := 53 - da + db).
  replace (0 - 0 - e) with sft by (unfold sft, e; lia).
  assert (Hs : 0 < sft) by (unfold sft; lia).
  destruct sft as [| ps |] eqn:Es; try lia.
  change (IntDef.Z.shiftl (Zpos pa) (Zpos ps)) with (Z.shiftl (Zpos pa) (Zpos ps)).
  change IntDef.Z.div_eucl with Z.div_eucl.
  rewrite Z.shiftl_mul_pow2 by lia. rewrite <- Es.
  pose proof (Z_div_mod (Zpos pa * 2 ^ sft) (Zpos pb) ltac:(lia)) as Hdm.
  destruct (Z.div_eucl (Zpos pa * 2 ^ sft) (Zpos pb)) as [q r].
  destruct Hdm as [Hq Hr].
  assert (Hlow : 2 ^ 52 * 2 ^ db <= Zpos pa * 2 ^ sft).
  { replace (2 ^ 52 * 2 ^ db) with (2 ^ (da - 1) * 2 ^ sft)
      by (rewrite <- !Z.pow_add_r by lia; f_equal; unfold sft in Es; lia).
    apply Z.mul_le_mono_nonneg_r; [apply Z.pow_nonneg; lia | exact Halo]. }
  assert (Hhigh : Zpos pa * 2 ^ sft < 2 ^ 54 * 2 ^ (db - 1)).
  { replace (2 ^ 54 * 2 ^ (db - 1)) with (2 ^ da * 2 ^ sft)
      by (rewrite <- !Z.pow_add_r by lia; f_equal; unfold sft in Es; lia).
    apply Z.mul_lt_mono_pos_r; [apply Z.pow_pos_nonneg; lia | exact Hahi]. }
  assert (Hqb : 2 ^ 52 <= q < 2 ^ 54).
  { pose proof (Z.pow_pos_nonneg 2 (db - 1) ltac:(lia) ltac:(lia)) as Hp1.
    pose proof (Z.pow_pos_nonneg 2 db ltac:(lia) ltac:(lia)) as Hp2.
    change (2 ^ 52) with 4503599627370496 in *.
    change (2 ^ 54) with 18014398509481984 in *. nia. }
  exists q, (new_location (Zpos pb) r).
  split; [reflexivity |]. split; [exact Hqb |].
  assert (Hmy : (0 < IZR (Zpos pb))%R) by (apply IZR_lt; lia).
  replace (IZR (Zpos pa) / IZR (Zpos pb) * bpow (- e))%R
    with (IZR q + IZR r / IZR (Zpos pb))%R; [apply new_location_located; lia |].
  replace (- e) with sft by (unfold e, sft in *; lia).
  rewrite (bpow_IZR sft) by lia.
  assert (HqR : (IZR (Zpos pa) * IZR (2 ^ sft) = IZR (Zpos pb) * IZR q + IZR r)%R).
  { rewrite <- !mult_IZR, <- plus_IZR. f_equal. exact Hq. }
  set (c := IZR (2 ^ sft)) in *.
  replace (IZR (Zpos pa) / IZR (Zpos pb) * c)%R
    with ((IZR (Zpos pa) * c) / IZR (Zpos pb))%R by (field; lra).
  rewrite HqR. field. lra.
Qed.

(** The exponent of the double an int below 2^53 converts to. *)
Lemma Z2F_exponent p m e :
  digits2_pos m = 53%positive -> F2R (Zpos m) e = IZR (Zpos p) ->
  e = Zpos (digits2_pos p) - 53.
Proof.
  intros Hd Hv.
  pose proof (digits_53_bounds m Hd) as [Hmlo Hmhi].
  pose proof (digits2_pos_bounds p) as [Hplo Hphi].
  set (d := Zpos (digits2_pos p)) in *.
  assert (Hd1 : 1 <= d) by (unfold d; lia).
  assert (Hlo : (bpow (52 + e) <= IZR (Zpos p))%R).
  { rewrite <- Hv, <- F2R_bpow by lia. apply F2R_le. exact Hmlo. }
  assert (Hhi : (IZR (Zpos p) < bpow (53 + e))%R).
  { rewrite <- Hv, <- F2R_bpow by lia. apply F2R_lt. exact Hmhi. }
  assert (Hplo' : (bpow (d - 1) <= IZR (Zpos p))%R).
  { rewrite bpow_IZR by lia. apply IZR_le. exact Hplo. }
  assert (Hphi' : (IZR (Zpos p) < bpow d)%R).
  { rewrite bpow_IZR by lia. apply IZR_lt. exact Hphi. }
  destruct (Z.lt_trichotomy (52 + e) (d - 1)) as [Hlt | [Heq | Hgt]]; [| lia |].
  - assert (bpow (53 + e) <= bpow (d - 1))%R by (apply bpow_le; lia). lra.
  - assert (bpow d <= bpow (52 + e))%R by (apply bpow_le; lia). lra.
Qed.

(** On ints below 2^53 the quotient is the IEEE quotient of the two ints
    converted to doubles (both conversions are exact). *)
Lemma int_truediv_small a b :
  0 <= a < 2 ^ 53 -> 0 < b < 2 ^ 53 ->
  Py.int_truediv a b
  = match Py.fdiv (Py.Z2F a) (Py.Z2F b) with
    | S754_infinity _ => inl OverflowError
    | q => inr q
    end.
Proof.
  intros Ha Hb. unfold Py.int_truediv.
  replace (b =? 0) with false by (symmetry; apply Z.eqb_neq; lia).
  destruct b as [| pb |]; try lia.
  destruct (Z2F_exact (Zpos pb) Hb) as (mb & eb & [Hzb Hdb] & Heb & Hvb).
  destruct a as [| pa |]; try lia.
  - rewrite Hzb. reflexivity.
  - destruct (Z2F_exact (Zpos pa) ltac:(lia)) as (ma & ea & [Hza Hda] & Hea & Hva).
    rewrite Hza, Hzb. cbn [Py.int_exact].
    pose proof (Z2F_exponent pa ma ea Hda Hva) as Hea'.
    pose proof (Z2F_exponent pb mb eb Hdb Hvb) as Heb'.
    destruct (fdiv_located ma ea mb eb Hda Hdb ltac:(lia)) as (q1 & l1 & -> & Hq1 & Hl1).
    destruct (int_exact_div_located pa pb ltac:(lia) ltac:(lia))
      as (q2 & l2 & -> & Hq2 & Hl2).
    rewrite Hva, Hvb in Hl1.
    replace (Zpos (digits2_pos pa) - Zpos (digits2_pos pb) - 53) with (ea - eb - 53)
      in * by lia.
    destruct (located_unique _ _ _ _ _ Hl1 Hl2) as [-> ->]. reflexivity.
Qed.

(** Past 2^53 the quotient is still rounded once: [(2^53 + 1) / 3] is the
    double 3002399751580331.0, where dividing the two converted doubles would
    give 3002399751580330.5; a quotient past the largest double is an
    OverflowError, one below the smallest is a zero with the sign of the
    quotient. *)
Example int_truediv_of_large_ints :
  Py.int_truediv (2 ^ 53 + 1) 3 = inr (Py.Z2F 3002399751580331)
  /\ Py.fdiv (Py.Z2F (2 ^ 53 + 1)) (Py.Z2F 3) = S754_finite false 6004799503160661 (-1)
  /\ Py.int_truediv (2 ^ 2000) 3 = inl OverflowError
  /\ Py.int_truediv 1 (2 ^ 1074) = inr (S754_finite false 1 (-1074))
  /\ Py.int_truediv (-7) (2 ^ 1080) = inr (S754_zero true)
  /\ Py.int_truediv 0 (-5) = inr (S754_zero true)
  /\ Py.int_truediv 5 0 = inl ZeroDivisionError.
Proof. vm_compute. repeat split; reflexivity. Qed.

(** ** The aspect ratios of [play] *)

Lemma F2R_pos m e : (0 < F2R (Zpos m) e)%R.
Proof.
  unfold F2R. apply Rmult_lt_0_compat; [apply IZR_lt; lia | apply bpow_pos].
Qed.

(** [a / b] on two positive ints below 2^53: a normal double, the quotient
    rounded. *)
Lemma int_truediv_rounds a b :
  0 < a < 2 ^ 53 -> 0 < b < 2 ^ 53 ->
  exists q m e,
    Py.int_truediv a b = inr q /\ normal q m e /\ -106 <= e <= 2
    /\ rounds_to (IZR a / IZR b) (F2R (Zpos m) e).
Proof.
  intros Ha Hb.
  destruct (Z2F_exact a Ha) as (ma & ea & Hna & Hea & Hva).
  destruct (Z2F_exact b Hb) as (mb & eb & Hnb & Heb & Hvb).
  destruct (fdiv_rounds _ ma ea _ mb eb Hna Hnb ltac:(lia))
    as (mr & er & Hn & Her & Hround).
  exists (Py.fdiv (Py.Z2F a) (Py.Z2F b)), mr, er.
  rewrite int_truediv_small by lia.
  destruct Hn as [Hq Hdig]. rewrite Hq.
  split; [reflexivity |]. split; [split; [reflexivity | exact Hdig] |].
  split; [lia |]. rewrite <- Hva, <- Hvb. exact Hround.
Qed.

Lemma int_truediv_zero b : 0 < b < 2 ^ 53 -> Py.int_truediv 0 b = inr (S754_zero false).
Proof.
  intros Hb. destruct (Z2F_exact b Hb) as (mb & eb & [Hnb _] & _).
  rewrite int_truediv_small by lia.
  rewrite Hnb. reflexivity.
Qed.

(** Width-bound: the scaled height does not exceed the display height. *)
Lemma width_bound_fits sw sh sa pa mp ep q nh :
  0 < sw < 2 ^ 53 -> 0 < sh < 2 ^ 53 ->
  Py.int_truediv sw sh = inr sa ->
  normal pa mp ep -> -106 <= ep <= 2 ->
  Py.flt sa pa = true ->
  Py.int_div_float sw pa = inr q -> Py.int_of_float q = inr nh ->
  0 <= nh <= sh.
Proof.
  intros Hsw Hsh Hsa Hpa Hep Hlt Hq Hnh.
  destruct (int_truediv_rounds sw sh Hsw Hsh) as (sa' & ms & es & Hsa' & Hns & Hes & Hrs).
  rewrite Hsa in Hsa'. injection Hsa' as <-.
  apply (flt_normal sa ms es pa mp ep Hns Hpa) in Hlt.
  (* the exact ratio is below the image's aspect *)
  assert (HX : (IZR sw / IZR sh < F2R (Zpos mp) ep)%R).
  { destruct Hpa as [_ Hdp]. destruct (Hrs mp ep Hdp) as [_ H].
    destruct (Rlt_le_dec (IZR sw / IZR sh) (F2R (Zpos mp) ep)) as [Hok | Hle]; [exact Hok |].
    apply H in Hle. lra. }
  destruct (Z2F_exact sw Hsw) as (mw & ew & Hnw & Hew & Hvw).
  destruct (Z2F_exact sh Hsh) as (mh & eh & Hnh' & Heh & Hvh).
  unfold Py.int_div_float, Py.float_of_int in Hq.
  destruct Hnw as [Hzw Hdw]. rewrite Hzw in Hq.
  destruct Hpa as [Hpa Hdp]. subst pa.
  assert (Hq' : @inr exn _ (Py.fdiv (S754_finite false mw ew) (S754_finite false mp ep))
                = inr q) by exact Hq.
  clear Hq. injection Hq' as <-.
  destruct (fdiv_rounds (S754_finite false mw ew) mw ew (S754_finite false mp ep) mp ep)
    as (mq & eq & [Hq Hdq] & Heq & Hrq); [split; auto | split; auto | lia |].
  change (Py.int_of_float (Py.fdiv (S754_finite false mw ew) (S754_finite false mp ep))
          = inr nh) in Hnh.
  rewrite Hq in Hnh.
  destruct (int_of_float_le mq eq) as (z & Hz & Hzle & Hz0).
  rewrite Hz in Hnh. injection Hnh as <-.
  split; [exact Hz0 |].
  destruct Hnh' as [_ Hdh]. destruct (Hrq mh eh Hdh) as [H _].
  rewrite Hvw, Hvh in H.
  assert (Hswr : (0 < IZR sw)%R) by (apply IZR_lt; lia).
  assert (Hshr : (0 < IZR sh)%R) by (apply IZR_lt; lia).
  pose proof (F2R_pos mp ep) as Hpp.
  assert (Hle : (IZR sw / F2R (Zpos mp) ep <= IZR sh)%R).
  { apply Rmult_le_reg_r with (F2R (Zpos mp) ep); [exact Hpp |].
    replace (IZR sw / F2R (Zpos mp) ep * F2R (Zpos mp) ep)%R with (IZR sw) by (field; lra).
    assert (IZR sw < F2R (Zpos mp) ep * IZR sh)%R.
    { apply Rmult_lt_reg_r with (/ IZR sh)%R; [apply Rinv_0_lt_compat; exact Hshr |].
      replace (F2R (Zpos mp) ep * IZR sh * / IZR sh)%R with (F2R (Zpos mp) ep) by (field; lra).
      exact HX. }
    lra. }
  apply H in Hle. apply le_IZR. lra.
Qed.

(** Height-bound: the scaled width does not exceed the display width. *)
Lemma height_bound_fits sw sh sa pa mp ep q nw :
  0 < sw < 2 ^ 53 -> 0 < sh < 2 ^ 53 ->
  Py.int_truediv sw sh = inr sa ->
  normal pa mp ep -> -106 <= ep <= 2 ->
  Py.flt pa sa = true ->
  Py.int_mul_float sh pa = inr q -> Py.int_of_float q = inr nw ->
  0 <= nw <= sw.
Proof.
  intros Hsw Hsh Hsa Hpa Hep Hlt Hq Hnw.
  destruct (int_truediv_rounds sw sh Hsw Hsh) as (sa' & ms & es & Hsa' & Hns & Hes & Hrs).
  rewrite Hsa in Hsa'. injection Hsa' as <-.
  apply (flt_normal pa mp ep sa ms es Hpa Hns) in Hlt.
  assert (HX : (F2R (Zpos mp) ep < IZR sw / IZR sh)%R).
  { destruct Hpa as [_ Hdp]. destruct (Hrs mp ep Hdp) as [H _].
    destruct (Rlt_le_dec (F2R (Zpos mp) ep) (IZR sw / IZR sh)) as [Hok | Hle]; [exact Hok |].
    apply H in Hle. lra. }
  destruct (Z2F_exact sw Hsw) as (mw & ew & Hnw' & Hew & Hvw).
  destruct (Z2F_exact sh Hsh) as (mh & eh & Hnh & Heh & Hvh).
  unfold Py.int_mul_float, Py.float_of_int in Hq.
  destruct Hnh as [Hzh Hdh]. rewrite Hzh in Hq.
  destruct Hpa as [Hpa Hdp]. subst pa.
  assert (Hq' : @inr exn _ (Py.fmul (S754_finite false mh eh) (S754_finite false mp ep))
                = inr q) by exact Hq.
  clear Hq. injection Hq' as <-.
  destruct (fmul_rounds (S754_finite false mh eh) mh eh (S754_finite false mp ep) mp ep)
    as (mq & eq & [Hq Hdq] & Hrq); [split; auto | split; auto | lia |].
  change (Py.int_of_float (Py.fmul (S754_finite false mh eh) (S754_finite false mp ep))
          = inr nw) in Hnw.
  rewrite Hq in Hnw.
  destruct (int_of_float_le mq eq) as (z & Hz & Hzle & Hz0).
  rewrite Hz in Hnw. injection Hnw as <-.
  split; [exact Hz0 |].
  destruct Hnw' as [_ Hdw]. destruct (Hrq mw ew Hdw) as [H _].
  rewrite Hvw, Hvh in H.
  assert (Hshr : (0 < IZR sh)%R) by (apply IZR_lt; lia).
  assert (Hle : (IZR sh * F2R (Zpos mp) ep <= IZR sw)%R).
  { assert (F2R (Zpos mp) ep * IZR sh < IZR sw)%R; [| lra].
    apply Rmult_lt_reg_r with (/ IZR sh)%R; [apply Rinv_0_lt_compat; exact Hshr |].
    replace (F2R (Zpos mp) ep * IZR sh * / IZR sh)%R with (F2R (Zpos mp) ep) by (field; lra).
    replace (IZR sw * / IZR sh)%R with (IZR sw / IZR sh)%R by (unfold Rdiv; ring).
    exact HX. }
  apply H in Hle. apply le_IZR. lra.
Qed.

(** ** Visibility of the placement *)

Lemma flt_normal_zero x m e : normal x m e ->
  Py.flt x (S754_zero false) = false /\ Py.flt (S754_zero false) x = true.
Proof. intros [-> _]. split; reflexivity. Qed.

Lemma placement_visible scale center sw sh iw ih target dest :
  placement scale center (sw, sh) (iw, ih) = inr (target, dest) ->
  0 <= iw -> 0 <= ih ->
  (scale = true /\ 0 < sw < 2 ^ 53 /\ 0 < sh < 2 ^ 53 /\ iw < 2 ^ 53 /\ ih < 2 ^ 53)
  \/ (scale = false /\ iw <= sw /\ ih <= sh) ->
  let (w, h) := match target with Some size => size | None => (iw, ih) end in
  0 <= fst dest /\ 0 <= snd dest /\ fst dest + w <= sw /\ snd dest + h <= sh.
Proof.
  intros Hpl Hiw Hih Hcase.
  apply placement_inv in Hpl.
  destruct Hpl as (sa & pa & new_w & new_h & Hsa & Hpa & Hscaled & ->).
  destruct Hcase as [(-> & Hsw & Hsh & Hiw' & Hih') | (-> & Hw & Hh)].
  - destruct Hscaled as (size & -> & Hsize).
    assert (Hih0 : 0 < ih).
    { destruct (Z.eq_dec ih 0) as [-> | Hne]; [discriminate | lia]. }
    destruct (int_truediv_rounds sw sh Hsw Hsh) as (sa' & ms & es & Hsa' & Hns & Hes & _).
    rewrite Hsa in Hsa'. injection Hsa' as <-.
    unfold scaled_size in Hsize. unfold centered.
    destruct (Z.eq_dec iw 0) as [-> | Hiw0].
    + (* an image of width 0: its aspect is 0.0, below the display's *)
      rewrite int_truediv_zero in Hpa by lia. injection Hpa as <-.
      destruct (flt_normal_zero sa ms es Hns) as [H1 H2]. rewrite H1, H2 in *.
      destruct (Z2F_exact sh Hsh) as (mh & eh & [Hzh _] & _).
      unfold Py.int_mul_float, Py.float_of_int in Hsize. rewrite Hzh in Hsize.
      simpl in Hsize. injection Hsize as <- <- <-.
      destruct center; simpl; repeat split; try lia.
      * apply Z.div_pos; lia.
      * rewrite Z.sub_0_r, Z.add_0_r. apply Z.div_le_upper_bound; lia.
    + destruct (int_truediv_rounds iw ih ltac:(lia) ltac:(lia))
        as (pa' & mp & ep & Hpa' & Hnp & Hep & _).
      rewrite Hpa in Hpa'. injection Hpa' as <-.
      destruct (Py.flt sa pa) eqn:Hlt; [| destruct (Py.flt pa sa) eqn:Hgt].
      * destruct (Py.int_div_float sw pa) as [e | q] eqn:Hq; [discriminate |].
        destruct (Py.int_of_float q) as [e | nh] eqn:Hnh; [discriminate |].
        injection Hsize as <- <- <-.
        pose proof (width_bound_fits sw sh sa pa mp ep q nh Hsw Hsh Hsa Hnp Hep Hlt Hq Hnh)
          as Hfit.
        destruct center; simpl; repeat split; try lia.
        -- apply Z.div_pos; lia.
        -- assert ((sh - nh) / 2 <= sh - nh) by (apply Z.div_le_upper_bound; lia). lia.
      * destruct (Py.int_mul_float sh pa) as [e | q] eqn:Hq; [discriminate |].
        destruct (Py.int_of_float q) as [e | nw] eqn:Hnw; [discriminate |].
        injection Hsize as <- <- <-.
        pose proof (height_bound_fits sw sh sa pa mp ep q nw Hsw Hsh Hsa Hnp Hep Hgt Hq Hnw)
          as Hfit.
        destruct center; simpl; repeat split; try lia.
        -- apply Z.div_pos; lia.
        -- assert ((sw - nw) / 2 <= sw - nw) by (apply Z.div_le_upper_bound; lia). lia.
      * injection Hsize as <- <- <-.
        destruct center; simpl; repeat split; lia.
  - destruct Hscaled as (-> & -> & ->). unfold centered.
    destruct center; [destruct (Py.flt sa pa); [| destruct (Py.flt pa sa)] |];
      simpl; repeat split; try lia.
    + apply Z.div_pos; lia.
    + assert ((sh - ih) / 2 <= sh - ih) by (apply Z.div_le_upper_bound; lia). lia.
    + apply Z.div_pos; lia.
    + assert ((sw - iw) / 2 <= sw - iw) by (apply Z.div_le_upper_bound; lia). lia.
Qed.

(** With positive dimensions below 2^53 the placement arithmetic never
    raises, and the size it scales to is not negative. *)
Lemma placement_returns scale center sw sh iw ih :
  0 < sw < 2 ^ 53 -> 0 < sh < 2 ^ 53 -> 0 < iw < 2 ^ 53 -> 0 < ih < 2 ^ 53 ->
  exists target dest,
    placement scale center (sw, sh) (iw, ih) = inr (target, dest)
    /\ match target with
       | Some size => 0 <= fst size /\ 0 <= snd size
       | None => True
       end.
Proof.
  intros Hsw Hsh Hiw Hih.
  destruct (int_truediv_rounds sw sh Hsw Hsh) as (sa & ms & es & Hsa & Hns & Hes & _).
  destruct (int_truediv_rounds iw ih Hiw Hih) as (pa & mp & ep & Hpa & Hnp & Hep & _).
  destruct (Z2F_exact sw Hsw) as (mw & ew & [Hzw Hdw] & Hew & _).
  destruct (Z2F_exact sh Hsh) as (mh & eh & [Hzh Hdh] & Heh & _).
  unfold placement. rewrite Hsa, Hpa.
  destruct scale; [| eexists _, _; split; [reflexivity | exact I]].
  unfold scaled_size.
  destruct (Py.flt sa pa); [| destruct (Py.flt pa sa)].
  - destruct (fdiv_rounds (Py.Z2F sw) mw ew pa mp ep) as (mq & eq & [Hq _] & _);
      [split; assumption | exact Hnp | lia |].
    unfold Py.int_div_float, Py.float_of_int. rewrite Hzw.
    destruct Hnp as [-> _]. unfold Py.float_truediv, Py.is_zero.
    rewrite Hzw in Hq. rewrite Hq.
    destruct (int_of_float_le mq eq) as (z & -> & _ & Hz).
    eexists _, _. split; [reflexivity |]. simpl. lia.
  - destruct (fmul_rounds (Py.Z2F sh) mh eh pa mp ep) as (mq & eq & [Hq _] & _);
      [split; assumption | exact Hnp | lia |].
    unfold Py.int_mul_float, Py.float_of_int. rewrite Hzh.
    rewrite Hzh in Hq. rewrite Hq.
    destruct (int_of_float_le mq eq) as (z & -> & _ & Hz).
    eexists _, _. split; [reflexivity |]. simpl. lia.
  - eexists _, _. split; [reflexivity |]. simpl. lia.
Qed.

(** Once the background is painted and the fetch has returned, the rest of
    the drawing returns too, for positive dimensions below 2^53. *)
Lemma play_draw_returns disk fuel path p w pyimage s1 :
  valid_color (_bgcolor p) = true ->
  _load_image disk fuel path (mkState p (drawn (blank_events p false) w))
  = (Return pyimage, s1) ->
  0 < fst (_size p) < 2 ^ 53 -> 0 < snd (_size p) < 2 ^ 53 ->
  0 < fst (get_size pyimage) < 2 ^ 53 -> 0 < snd (get_size pyimage) < 2 ^ 53 ->
  exists s2, play_draw disk fuel path (mkState p w) = (Return tt, s2).
Proof.
  intros Hvalid Hload Hsw Hsh Hiw Hih.
  rewrite play_draw_valid by exact Hvalid.
  pose proof (settings_load_image disk fuel path
                (mkState p (drawn (blank_events p false) w))) as Hset.
  rewrite Hload in Hset. destruct s1 as [p1 w1].
  unfold same_settings, settings in Hset. simpl in Hset.
  injection Hset as _ Hsize _ Hscale Hcenter _ _ _ _ _.
  rewrite Hload. cbn [self world]. rewrite Hsize.
  destruct (_size p) as [sw sh]. destruct (get_size pyimage) as [iw ih]. cbn [fst snd] in *.
  destruct (placement_returns (_scale p1) (_center p1) sw sh iw ih Hsw Hsh Hiw Hih)
    as (target & dest & -> & Htarget).
  destruct target as [size |]; [| eauto].
  rewrite transform_scale_eq.
  replace ((fst size <? 0) || (snd size <? 0)) with false; [eauto |].
  symmetry. apply orb_false_intro; apply Z.ltb_ge; lia.
Qed.

(** C5, refuted as stated: with scaling disabled a 1000 x 1000 image is
    blitted at its own size at the origin of the 800 x 600 display, so it
    runs past both edges. *)
Lemma unscaled_large_image_is_clipped :
  exists s' b,
    play demo_disk 5 (mkImage "large.png" 1) None (Py.Z2F 100)
      (mkState (demo_player 8 false false) fresh_world) = (Return tt, s')
    /\ last_blit (screen (world s')) = Some b
    /\ ~ fully_visible (800, 600) b.
Proof.
  eexists. eexists. split; [vm_compute; reflexivity |].
  split; [vm_compute; reflexivity |].
  unfold fully_visible. simpl. lia.
Qed.

(** C5, as amended.  Whenever [play] draws an image and returns, the blit is
    wholly inside the display (offsets non-negative, offset plus drawn size
    within the display size) in each of these cases, for either value of the
    centre flag: scaling is enabled, the display dimensions are positive, and
    display and image dimensions are below 2^53 (where int to float conversion
    is exact); or scaling is disabled and the image is no larger than the
    display.  [pyimage] is the decoded bitmap, as cached under the filename. *)
Theorem drawn_frame_is_fully_visible :
  forall disk fuel image loop now s s',
    filename image <> ""%string -> isfile disk (filename image) = true ->
    play disk fuel image loop now s = (Return tt, s') ->
    exists pyimage b,
      OrderedDict.get (filename image) (_image_cache (self s')) = Some pyimage
      /\ last_blit (screen (world s')) = Some b
      /\ let (screen_w, screen_h) := _size (self s) in
         let (image_w, image_h) := get_size pyimage in
         ((_scale (self s) = true
           /\ 0 < screen_w < 2 ^ 53 /\ 0 < screen_h < 2 ^ 53
           /\ image_w < 2 ^ 53 /\ image_h < 2 ^ 53)
          \/ (_scale (self s) = false /\ image_w <= screen_w /\ image_h <= screen_h)) ->
         fully_visible (screen_w, screen_h) b.
Proof.
  intros disk fuel image loop now s s' Hname Hfile Hplay.
  destruct (play_Return_inv disk fuel image loop now s s' Hname Hfile Hplay)
    as (pyimage & target & blitted & dest & Hcached & Hpl & Htarget & Hscreen).
  exists pyimage, (blitted, dest).
  split; [exact Hcached |].
  split; [rewrite Hscreen, app_assoc; apply last_blit_app |].
  destruct (_size (self s)) as [screen_w screen_h].
  destruct (get_size pyimage) as [image_w image_h] eqn:Hsz.
  intros Hcase.
  assert (Hnonneg : 0 <= image_w /\ 0 <= image_h).
  { unfold get_size in Hsz. injection Hsz as <- <-. split; apply N2Z.is_nonneg. }
  pose proof (placement_visible _ _ _ _ _ _ _ _ Hpl (proj1 Hnonneg) (proj2 Hnonneg) Hcase)
    as Hvis.
  unfold fully_visible. destruct dest as [x y].
  destruct target as [size |].
  - destruct Htarget as (_ & _ & -> & _). destruct size as [w h]. exact Hvis.
  - subst blitted. rewrite Hsz. exact Hvis.
Qed.

(** A scaled wide image, and an unscaled image smaller than the display. *)
Lemma drawn_frame_is_fully_visible_witness :
  (exists s' pyimage b,
     play demo_disk 5 (mkImage "wide.png" 1) None (Py.Z2F 100)
       (mkState (demo_player 8 true true) fresh_world) = (Return tt, s')
     /\ OrderedDict.get "wide.png" (_image_cache (self s')) = Some pyimage
     /\ last_blit (screen (world s')) = Some b
     /\ fully_visible (800, 600) b)
  /\ (exists s' pyimage b,
        play demo_disk 5 (mkImage "a.png" 1) None (Py.Z2F 100)
          (mkState (demo_player 8 false true) fresh_world) = (Return tt, s')
        /\ OrderedDict.get "a.png" (_image_cache (self s')) = Some pyimage
        /\ last_blit (screen (world s')) = Some b
        /\ fully_visible (800, 600) b).
Proof.
  split.
  - eexists.
    destruct (drawn_frame_is_fully_visible demo_disk 5 (mkImage "wide.png" 1) None
                (Py.Z2F 100) (mkState (demo_player 8 true true) fresh_world) _
                ltac:(discriminate) eq_refl ltac:(vm_compute; reflexivity))
      as (pyimage & b & Hcached & Hblit & Hvis).
    exists pyimage, b. split; [vm_compute; reflexivity |].
    split; [exact Hcached |]. split; [exact Hblit |].
    simpl in Hcached. injection Hcached as <-.
    apply Hvis. left. repeat split; simpl; lia.
  - eexists.
    destruct (drawn_frame_is_fully_visible demo_disk 5 (mkImage "a.png" 1) None
                (Py.Z2F 100) (mkState (demo_player 8 false true) fresh_world) _
                ltac:(discriminate) eq_refl ltac:(vm_compute; reflexivity))
      as (pyimage & b & Hcached & Hblit & Hvis).
    exists pyimage, b. split; [vm_compute; reflexivity |].
    split; [exact Hcached |]. split; [exact Hblit |].
    simpl in Hcached. injection Hcached as <-.
    apply Hvis. right. repeat split; simpl; lia.
Defined.

(** ** Cache misses: when they return and what they evict *)

Lemma evict_until_fits_least fuel image_size p w s1 :
  evict_until_fits fuel image_size (mkState p w) = (Return tt, s1) ->
  exists n,
    s1 = mkState (Nat.iter n evicted p) w
    /\ _current_cache_size (Nat.iter n evicted p) + image_size <= _cache_size_limit p
    /\ forall k, (k < n)%nat ->
         _cache_size_limit p < _current_cache_size (Nat.iter k evicted p) + image_size.
Proof.
  revert p. induction fuel as [| fuel IH]; intros p H.
  - discriminate H.
  - rewrite evict_until_fits_step in H.
    destruct (_current_cache_size p + image_size >? _cache_size_limit p) eqn:Hc.
    + destruct (IH _ H) as [n [Hs [Hfit Hmin]]].
      rewrite evicted_limit in Hfit.
      exists (S n). simpl. rewrite <- iter_evicted_comm.
      split; [exact Hs | split; [exact Hfit |]].
      intros [| k] Hk; simpl.
      * lia.
      * rewrite <- iter_evicted_comm.
        specialize (Hmin k ltac:(lia)). rewrite evicted_limit in Hmin. exact Hmin.
    + exists O. simpl. injection H as <-.
      split; [reflexivity | split; [lia |]]. intros k Hk; lia.
Qed.

Lemma add_to_cache_Return_inv fuel image_path pyimage p w s1 :
  _add_to_cache fuel image_path pyimage (mkState p w) = (Return tt, s1) ->
  exists n,
    s1 = mkState (inserted image_path pyimage (Nat.iter n evicted p)) w
    /\ _current_cache_size (Nat.iter n evicted p) + _get_image_size pyimage
       <= _cache_size_limit p
    /\ forall k, (k < n)%nat ->
         _cache_size_limit p
         < _current_cache_size (Nat.iter k evicted p) + _get_image_size pyimage.
Proof.
  unfold _add_to_cache. intros H.
  apply bind_Return_inv in H. destruct H as [[] [s0 [He Hrest]]].
  apply evict_until_fits_least in He. destruct He as [n [-> [Hfit Hmin]]].
  exists n. split; [| split; assumption].
  cbv [bind modify_self] in Hrest. cbn [self world] in Hrest.
  injection Hrest as <-. reflexivity.
Qed.

Lemma load_image_miss_Return_inv disk fuel image_path p w pyimage s1 :
  OrderedDict.contains image_path (_image_cache p) = false ->
  _load_image disk fuel image_path (mkState p w) = (Return pyimage, s1) ->
  exists wd ht b n,
    decode disk image_path = Some (wd, ht, b)
    /\ pyimage = mkSurface (next_id w) wd ht b
    /\ s1 = mkState (inserted image_path pyimage (Nat.iter n evicted p))
              (after_load image_path true w)
    /\ _current_cache_size (Nat.iter n evicted p) + _get_image_size pyimage
       <= _cache_size_limit p
    /\ forall k, (k < n)%nat ->
         _cache_size_limit p
         < _current_cache_size (Nat.iter k evicted p) + _get_image_size pyimage.
Proof.
  intros Hmiss H. rewrite load_image_miss in H by exact Hmiss.
  destruct (decode disk image_path) as [[[wd ht] b] |] eqn:Hd.
  - erewrite bind_Return in H by (apply image_load_ok; exact Hd).
    apply bind_Return_inv in H. destruct H as [[] [s0 [Ha Hr]]].
    injection Hr as <- <-.
    apply add_to_cache_Return_inv in Ha. destruct Ha as [n [-> [Hfit Hmin]]].
    exists wd, ht, b, n. repeat split; auto.
  - erewrite bind_Raise in H by (apply image_load_error; exact Hd). discriminate H.
Qed.

Lemma iter_evicted_bytes n p :
  size_is_sum p ->
  _current_cache_size (Nat.iter n evicted p) = cache_bytes (skipn n (_image_cache p)).
Proof.
  intros H. rewrite <- iter_evicted_skipn. apply (iter_evicted_size_is_sum n p H).
Qed.

(** X1.  A cache miss on a file that decodes, in a state where the byte
    counter is the sum of the cached sizes and with fuel for one loop test
    per cached entry and one more: [_load_image] returns the new bitmap if
    and only if the image's bytes (width * height * bytes per pixel) do not
    exceed the cache limit. *)
Theorem miss_returns_iff_image_fits :
  forall disk fuel image_path p w wd ht b,
    size_is_sum p ->
    OrderedDict.contains image_path (_image_cache p) = false ->
    decode disk image_path = Some (wd, ht, b) ->
    (List.length (_image_cache p) < fuel)%nat ->
    (exists s1, _load_image disk fuel image_path (mkState p w)
                = (Return (mkSurface (next_id w) wd ht b), s1))
    <-> geometry_bytes (wd, ht, b) <= _cache_size_limit p.
Proof.
  intros disk fuel image_path p w wd ht b Hsum Hmiss Hd Hfuel. split.
  - intros [s1 H].
    apply load_image_miss_Return_inv in H; [| exact Hmiss].
    destruct H as [wd' [ht' [b' [n [Hd' [Hv [_ [Hfit _]]]]]]]].
    rewrite iter_evicted_bytes in Hfit by exact Hsum.
    pose proof (cache_bytes_nonneg (skipn n (_image_cache p))) as Hnn.
    injection Hv as <- <- <-.
    change (_get_image_size (mkSurface (next_id w) wd ht b))
      with (geometry_bytes (wd, ht, b)) in Hfit.
    lia.
  - intros Hfit.
    destruct (load_image_miss_returns disk fuel image_path p w wd ht b Hsum Hmiss Hd)
      as [p' H]; [exact Hfit | exact Hfuel |].
    eexists; exact H.
Qed.

Lemma miss_returns_iff_image_fits_witness :
  (exists s1, _load_image demo_disk 1 "a.png" (mkState (demo_player 1 true true) fresh_world)
              = (Return (mkSurface 0 512 256 4), s1))
  <-> geometry_bytes (512, 256, 4)%N <= 1048576.
Proof.
  apply (miss_returns_iff_image_fits demo_disk 1 "a.png" (demo_player 1 true true)
           fresh_world 512 256 4).
  - reflexivity.
  - reflexivity.
  - reflexivity.
  - simpl. lia.
Defined.

(** X2.  A cache miss that returns has evicted the oldest entries and only
    as many as needed: the cache is left holding the entries after the first
    [n] of the old cache, in their order, followed by the new image; those
    kept entries and the new image fit the limit together; and with fewer
    than [n] evictions they would not have fitted. *)
Theorem miss_evicts_only_what_is_needed :
  forall disk fuel image_path p w pyimage s1,
    size_is_sum p ->
    OrderedDict.contains image_path (_image_cache p) = false ->
    _load_image disk fuel image_path (mkState p w) = (Return pyimage, s1) ->
    exists n,
      _image_cache (self s1) = skipn n (_image_cache p) ++ [(image_path, pyimage)]
      /\ cache_bytes (skipn n (_image_cache p)) + _get_image_size pyimage
         <= _cache_size_limit p
      /\ forall k, (k < n)%nat ->
           _cache_size_limit p
           < cache_bytes (skipn k (_image_cache p)) + _get_image_size pyimage.
Proof.
  intros disk fuel image_path p w pyimage s1 Hsum Hmiss H.
  apply load_image_miss_Return_inv in H; [| exact Hmiss].
  destruct H as [wd [ht [b [n [_ [_ [-> [Hfit Hmin]]]]]]]].
  exists n. split; [| split].
  - unfold inserted. cbn [self _image_cache set_current_cache_size set_image_cache].
    rewrite setitem_new by (apply iter_evicted_contains; exact Hmiss).
    rewrite iter_evicted_skipn. reflexivity.
  - rewrite <- iter_evicted_bytes by exact Hsum. exact Hfit.
  - intros k Hk. rewrite <- iter_evicted_bytes by exact Hsum. apply Hmin; exact Hk.
Qed.

(** ** The cache across the calls of the looper *)

Lemma get_In k v d : OrderedDict.get k d = Some v -> In (k, v) d.
Proof.
  induction d as [| [k' v'] d IH]; simpl; [discriminate |].
  destruct (String.eqb_spec k k') as [-> | Hne].
  - intros [= ->]. left; reflexivity.
  - intros H. right; auto.
Qed.

Lemma remove_In k x d : In x (OrderedDict.remove k d) -> In x d.
Proof.
  induction d as [| [k' v'] d IH]; simpl; [auto |].
  destruct (String.eqb k k'); simpl; intuition.
Qed.

Lemma skipn_In {A} n (x : A) l : In x (skipn n l) -> In x l.
Proof.
  revert l; induction n as [| n IH]; intros [| a l]; simpl; auto.
Qed.

Lemma load_image_outcome disk fuel image_path p w :
  NoDup (OrderedDict.keys (_image_cache p)) ->
  (exists pyimage,
     OrderedDict.get image_path (_image_cache p) = Some pyimage
     /\ _load_image disk fuel image_path (mkState p w)
        = (Return pyimage, mkState (promoted image_path pyimage p) w))
  \/ (OrderedDict.contains image_path (_image_cache p) = false
      /\ decode disk image_path = None
      /\ _load_image disk fuel image_path (mkState p w)
         = (Raise pygame_error, mkState p (after_load image_path false w)))
  \/ (OrderedDict.contains image_path (_image_cache p) = false
      /\ exists wd ht b n,
           decode disk image_path = Some (wd, ht, b)
           /\ ((_load_image disk fuel image_path (mkState p w)
                = (Return (mkSurface (next_id w) wd ht b),
                   mkState (inserted image_path (mkSurface (next_id w) wd ht b)
                              (Nat.iter n evicted p))
                     (after_load image_path true w))
                /\ _current_cache_size (Nat.iter n evicted p)
                   + _get_image_size (mkSurface (next_id w) wd ht b)
                   <= _cache_size_limit p)
               \/ _load_image disk fuel image_path (mkState p w)
                  = (OutOfFuel, mkState (Nat.iter n evicted p)
                                  (after_load image_path true w)))).
Proof.
  intros Hnd.
  destruct (OrderedDict.contains image_path (_image_cache p)) eqn:Hc.
  - apply contains_get in Hc. destruct Hc as [v Hv].
    left. exists v. split; [exact Hv |]. apply load_image_hit; assumption.
  - right. destruct (decode disk image_path) as [[[wd ht] b] |] eqn:Hd.
    + right. split; [reflexivity |].
      destruct (load_image_miss_run disk fuel image_path p w wd ht b Hc Hd) as [n H].
      exists wd, ht, b, n. split; [reflexivity |]. exact H.
    + left. split; [reflexivity |]. split; [reflexivity |].
      apply load_image_miss_error; assumption.
Qed.

Lemma matches_evicted disk n p :
  cache_matches_disk disk p -> cache_matches_disk disk (Nat.iter n evicted p).
Proof.
  intros H k v Hin. rewrite iter_evicted_skipn in Hin.
  apply H. eapply skipn_In; exact Hin.
Qed.

Lemma matches_promoted disk k v p :
  cache_matches_disk disk p -> OrderedDict.get k (_image_cache p) = Some v ->
  cache_matches_disk disk (promoted k v p).
Proof.
  intros H Hg k' v' Hin. unfold promoted in Hin.
  cbn [_image_cache set_image_cache] in Hin.
  apply in_app_or in Hin. destruct Hin as [Hin | [[= <- <-] | []]].
  - apply H. eapply remove_In; exact Hin.
  - apply H. apply get_In; exact Hg.
Qed.

Lemma matches_inserted disk k id wd ht b p :
  cache_matches_disk disk p ->
  OrderedDict.contains k (_image_cache p) = false ->
  decode disk k = Some (wd, ht, b) ->
  cache_matches_disk disk (inserted k (mkSurface id wd ht b) p).
Proof.
  intros H Hc Hd k' v' Hin. unfold inserted in Hin.
  cbn [_image_cache set_image_cache set_current_cache_size] in Hin.
  rewrite setitem_new in Hin by exact Hc.
  apply in_app_or in Hin. destruct Hin as [Hin | [[= <- <-] | []]].
  - apply H; exact Hin.
  - exact Hd.
Qed.

(** What [_load_image] leaves behind keeps both invariants. *)
Lemma load_image_keeps_cache disk fuel image_path p w :
  cache_ok p -> cache_matches_disk disk p ->
  fst (_load_image disk fuel image_path (mkState p w)) = OutOfFuel
  \/ (cache_ok (self (snd (_load_image disk fuel image_path (mkState p w))))
      /\ cache_matches_disk disk
           (self (snd (_load_image disk fuel image_path (mkState p w))))).
Proof.
  intros Hok Hm.
  destruct (load_image_outcome disk fuel image_path p w) as
    [[v [Hg ->]] | [[Hc [Hd ->]] | [Hc [wd [ht [b [n [Hd [[-> Hfit] | ->]]]]]]]]].
  - apply Hok.
  - right. split; [apply cache_ok_promoted | apply matches_promoted]; assumption.
  - right. split; assumption.
  - right. cbn [snd self]. split.
    + apply cache_ok_inserted; assumption.
    + apply matches_inserted; [apply matches_evicted; exact Hm | | exact Hd].
      apply iter_evicted_contains; exact Hc.
  - left; reflexivity.
Qed.

Lemma play_draw_self disk fuel image_path p w :
  valid_color (_bgcolor p) = true ->
  let r := _load_image disk fuel image_path (mkState p (drawn (blank_events p false) w)) in
  self (snd (play_draw disk fuel image_path (mkState p w))) = self (snd r)
  /\ (fst (play_draw disk fuel image_path (mkState p w)) = OutOfFuel
      <-> fst r = OutOfFuel).
Proof.
  intros Hvalid r. rewrite play_draw_valid by exact Hvalid. fold r.
  destruct r as [[pyimage | e |] [p1 w1]]; cbn [fst snd self].
  - destruct (placement _ _ _ _) as [e | [[target |] dest]]; cbn [fst snd self].
    + split; [reflexivity | split; discriminate].
    + rewrite transform_scale_eq.
      destruct ((fst target <? 0) || (snd target <? 0)); cbn [fst snd self];
        (split; [reflexivity | split; discriminate]).
    + split; [reflexivity | split; discriminate].
  - split; [reflexivity | split; discriminate].
  - split; [reflexivity | split; auto].
Qed.

Lemma cache_ok_ext p p' : cache_state p' = cache_state p -> cache_ok p -> cache_ok p'.
Proof.
  unfold cache_state, cache_ok, size_is_sum. intros [= Hc Hs Hl]. rewrite Hc, Hs, Hl. auto.
Qed.

Lemma matches_ext disk p p' :
  cache_state p' = cache_state p -> cache_matches_disk disk p -> cache_matches_disk disk p'.
Proof.
  unfold cache_state, cache_matches_disk. intros [= Hc Hs Hl]. rewrite Hc. auto.
Qed.

(** [play] leaves the cache as its one call of [_load_image] left it, or as
    it was when it does not get as far as the fetch. *)
Lemma play_cache_state disk fuel image loop now p w :
  let s0 := mkState (set_loop (normalized_loop image loop) p)
              (drawn (blank_events p false) w) in
  let r := _load_image disk fuel (filename image) s0 in
  (cache_state (self (snd (play disk fuel image loop now (mkState p w)))) = cache_state p
   /\ fst (play disk fuel image loop now (mkState p w)) <> OutOfFuel)
  \/ (cache_state (self (snd (play disk fuel image loop now (mkState p w))))
      = cache_state (self (snd r))
      /\ (fst (play disk fuel image loop now (mkState p w)) = OutOfFuel
          <-> fst r = OutOfFuel)).
Proof.
  intros s0 r. rewrite play_eq.
  destruct (negb (String.eqb (filename image) "") && isfile disk (filename image));
    [| left; split; [reflexivity | discriminate]].
  destruct (valid_color (_bgcolor (set_loop (normalized_loop image loop) p))) eqn:Hvalid.
  2:{ left. unfold bind. rewrite play_draw_invalid by exact Hvalid.
      split; [reflexivity | discriminate]. }
  - right.
    pose proof (play_draw_self disk fuel (filename image)
                  (set_loop (normalized_loop image loop) p) w Hvalid) as [Hself Hfuel].
    change (blank_events (set_loop (normalized_loop image loop) p) false)
      with (blank_events p false) in Hself, Hfuel.
    fold s0 in Hself, Hfuel. fold r in Hself, Hfuel.
    unfold bind.
    destruct (play_draw disk fuel (filename image)
                (mkState (set_loop (normalized_loop image loop) p) w))
      as [[[] | e |] s1]; cbn [fst snd self] in *.
    + split; [rewrite <- Hself; reflexivity |].
      rewrite <- Hfuel. split; discriminate.
    + split; [rewrite <- Hself; reflexivity |].
      rewrite <- Hfuel. split; discriminate.
    + split; [rewrite <- Hself; reflexivity |].
      rewrite <- Hfuel. split; reflexivity.
Qed.

Lemma run_call_keeps_cache disk fuel c p w :
  cache_ok p -> cache_matches_disk disk p ->
  fst (run_call disk fuel c (mkState p w)) = OutOfFuel
  \/ (cache_ok (self (snd (run_call disk fuel c (mkState p w))))
      /\ cache_matches_disk disk (self (snd (run_call disk fuel c (mkState p w))))).
Proof.
  intros Hok Hm. destruct c as [image loop now | now | t]; cbn [run_call].
  - destruct (play_cache_state disk fuel image loop now p w) as [[Hc _] | [Hc Hfuel]].
    + right. split; [eapply cache_ok_ext | eapply matches_ext]; eassumption.
    + destruct (load_image_keeps_cache disk fuel (filename image)
                  (set_loop (normalized_loop image loop) p)
                  (drawn (blank_events p false) w)) as [Hoof | [Hok' Hm']].
      * eapply cache_ok_ext; [| exact Hok]. reflexivity.
      * eapply matches_ext; [| exact Hm]. reflexivity.
      * left. apply Hfuel. exact Hoof.
      * right. split; [eapply cache_ok_ext | eapply matches_ext]; eassumption.
  - right. unfold bind. rewrite is_playing_run.
    destruct (_loop p <=? -1); [split; assumption |].
    destruct (Py.float_sub_num now (_start_time p)) as [e | elapsed]; [split; assumption |].
    cbv zeta. destruct (answered p _); cbn [snd self]; split; assumption.
  - right. rewrite stop_eq.
    destruct (valid_color (_bgcolor p)); [| split; assumption].
    destruct (Py.num_sub_int (_start_time p) (_duration p * _loop p)); cbn [snd self].
    + split; assumption.
    + split; [eapply cache_ok_ext | eapply matches_ext]; try eassumption; reflexivity.
Qed.

Lemma run_calls_keep_cache disk fuel calls s s' :
  cache_ok (self s) -> cache_matches_disk disk (self s) ->
  run_calls disk fuel calls s = Some s' ->
  cache_ok (self s') /\ cache_matches_disk disk (self s').
Proof.
  revert s. induction calls as [| c calls IH]; intros [p w] Hok Hm H.
  - injection H as <-. split; assumption.
  - cbn [run_calls] in H. cbn [self] in Hok, Hm.
    destruct (run_call_keeps_cache disk fuel c p w Hok Hm) as [Hoof | [Hok' Hm']].
    + destruct (run_call disk fuel c (mkState p w)) as [[[] | e |] s1];
        cbn [fst] in Hoof; try discriminate Hoof. discriminate H.
    + destruct (run_call disk fuel c (mkState p w)) as [[[] | e |] s1];
        cbn [snd] in Hok', Hm'; [eauto | eauto | discriminate H].
Qed.

(** ** Recency of a fetched image *)

Lemma miss_evicts_only_what_is_needed_witness :
  let s := snd (_load_image demo_disk 2 "b.png"
                  (snd (_load_image demo_disk 2 "a.png"
                          (mkState (demo_player 1 true true) fresh_world)))) in
  let pyimage := mkSurface 2 512 256 4 in
  exists n,
    _image_cache (self (snd (_load_image demo_disk 2 "c.png" s)))
    = skipn n (_image_cache (self s)) ++ [("c.png"%string, pyimage)]
    /\ cache_bytes (skipn n (_image_cache (self s))) + _get_image_size pyimage
       <= _cache_size_limit (self s)
    /\ forall k, (k < n)%nat ->
         _cache_size_limit (self s)
         < cache_bytes (skipn k (_image_cache (self s))) + _get_image_size pyimage.
Proof.
  intros s pyimage.
  apply (miss_evicts_only_what_is_needed demo_disk 2 "c.png" (self s) (world s) pyimage
           (snd (_load_image demo_disk 2 "c.png" s))).
  - reflexivity.
  - reflexivity.
  - vm_compute. reflexivity.
Defined.

(** A fetch that returns leaves its path at the recent end of the cache. *)
Lemma load_image_Return_last disk fuel image_path p w pyimage s1 :
  NoDup (OrderedDict.keys (_image_cache p)) ->
  _load_image disk fuel image_path (mkState p w) = (Return pyimage, s1) ->
  exists older,
    _image_cache (self s1) = older ++ [(image_path, pyimage)]
    /\ OrderedDict.contains image_path older = false
    /\ NoDup (OrderedDict.keys older).
Proof.
  intros Hnd H.
  destruct (load_image_outcome disk fuel image_path p w Hnd) as
    [[v [Hg Hr]] | [[Hc [Hd Hr]] | [Hc [wd [ht [b [n [Hd [[Hr Hfit] | Hr]]]]]]]]];
    rewrite Hr in H; try discriminate H.
  - injection H as <- <-.
    exists (OrderedDict.remove image_path (_image_cache p)).
    split; [reflexivity |].
    split; [apply remove_not_contains; exact Hnd | apply remove_NoDup; exact Hnd].
  - injection H as <- <-.
    exists (_image_cache (Nat.iter n evicted p)).
    split; [| split; [apply iter_evicted_contains; exact Hc
                     | apply iter_evicted_NoDup; exact Hnd]].
    unfold inserted. cbn [self _image_cache set_current_cache_size set_image_cache].
    apply setitem_new. apply iter_evicted_contains; exact Hc.
Qed.

(** X3.  Whenever [_load_image] returns a bitmap, in a cache whose keys are
    distinct, the path is the most recently used entry: it is the last entry
    of the cache, it occurs nowhere before, the keys are still distinct, and
    looking the path up gives the very bitmap that was returned. *)
Theorem fetched_image_is_most_recent :
  forall disk fuel image_path s pyimage s1,
    NoDup (OrderedDict.keys (_image_cache (self s))) ->
    _load_image disk fuel image_path s = (Return pyimage, s1) ->
    exists older,
      _image_cache (self s1) = older ++ [(image_path, pyimage)]
      /\ OrderedDict.contains image_path older = false
      /\ NoDup (OrderedDict.keys (_image_cache (self s1)))
      /\ OrderedDict.get image_path (_image_cache (self s1)) = Some pyimage.
Proof.
  intros disk fuel image_path [p w] pyimage s1 Hnd H. cbn [self] in Hnd.
  destruct (load_image_Return_last disk fuel image_path p w pyimage s1 Hnd H)
    as [older [Hcache [Hc Hn]]].
  exists older. rewrite Hcache.
  split; [reflexivity |]. split; [exact Hc |].
  split; [apply append_NoDup; assumption | apply get_app_last; exact Hc].
Qed.

Lemma fetched_image_is_most_recent_witness :
  let s := snd (_load_image demo_disk 2 "b.png"
                  (snd (_load_image demo_disk 2 "a.png"
                          (mkState (demo_player 1 true true) fresh_world)))) in
  let pyimage := mkSurface 0 512 256 4 in
  exists older,
    _image_cache (self (snd (_load_image demo_disk 2 "a.png" s)))
    = older ++ [("a.png"%string, pyimage)]
    /\ OrderedDict.contains "a.png" older = false
    /\ NoDup (OrderedDict.keys (_image_cache (self (snd (_load_image demo_disk 2 "a.png" s)))))
    /\ OrderedDict.get "a.png" (_image_cache (self (snd (_load_image demo_disk 2 "a.png" s))))
       = Some pyimage.
Proof.
  intros s pyimage.
  apply (fetched_image_is_most_recent demo_disk 2 "a.png" s pyimage
           (snd (_load_image demo_disk 2 "a.png" s))).
  - vm_compute. repeat constructor; simpl; intuition discriminate.
  - vm_compute. reflexivity.
Defined.

(** X6.  Starting from a new player with a non-negative cache limit,
    after any sequence of completed calls of [play], [is_playing] and [stop]
    the byte counter is the sum of the sizes of the cached bitmaps, it lies
    between 0 and the limit, and no path is cached twice. *)
Theorem calls_keep_the_cache_within_its_limit :
  forall config display bgimage disk fuel calls w s',
    0 <= cfg_cache_size_limit config ->
    run_calls disk fuel calls (mkState (init config display bgimage) w) = Some s' ->
    _current_cache_size (self s') = cache_bytes (_image_cache (self s'))
    /\ 0 <= _current_cache_size (self s') <= _cache_size_limit (self s')
    /\ NoDup (OrderedDict.keys (_image_cache (self s'))).
Proof.
  intros config display bgimage disk fuel calls w s' Hlimit Hrun.
  destruct (run_calls_keep_cache disk fuel calls (mkState (init config display bgimage) w) s'
              (cache_ok_init config display bgimage Hlimit)) as [[Hsum [Hnd Hle]] _].
  - intros k v [].
  - exact Hrun.
  - split; [exact Hsum |]. split; [| exact Hnd].
    split; [| exact Hle]. rewrite Hsum. apply cache_bytes_nonneg.
Qed.

Lemma calls_keep_the_cache_within_its_limit_witness :
  exists s',
    run_calls demo_disk 5 demo_calls (mkState (demo_player 4 true true) fresh_world) = Some s'
    /\ _current_cache_size (self s') = cache_bytes (_image_cache (self s'))
    /\ 0 <= _current_cache_size (self s') <= _cache_size_limit (self s')
    /\ NoDup (OrderedDict.keys (_image_cache (self s'))).
Proof.
  destruct (run_calls demo_disk 5 demo_calls (mkState (demo_player 4 true true) fresh_world))
    as [s' |] eqn:Hrun.
  - exists s'. split; [reflexivity |].
    apply (calls_keep_the_cache_within_its_limit (mkConfig 10 4 [0; 0; 0] true true 0)
             (800, 600) (None, 0, 0) demo_disk 5 demo_calls fresh_world s').
    + cbn [cfg_cache_size_limit]; lia.
    + exact Hrun.
  - vm_compute in Hrun. discriminate Hrun.
Defined.

(** X7.  Starting from a new player, after any sequence of completed
    calls of [play], [is_playing] and [stop] every cached bitmap has the
    width, height and bytes per pixel the decoder gives for its path: the
    cache holds the decoded images, never a scaled copy. *)
Theorem cache_holds_the_decoded_bitmaps :
  forall config display bgimage disk fuel calls w s' image_path pyimage,
    0 <= cfg_cache_size_limit config ->
    run_calls disk fuel calls (mkState (init config display bgimage) w) = Some s' ->
    OrderedDict.get image_path (_image_cache (self s')) = Some pyimage ->
    decode disk image_path
    = Some (surf_w pyimage, surf_h pyimage, surf_bytesize pyimage).
Proof.
  intros config display bgimage disk fuel calls w s' image_path pyimage Hlimit Hrun Hget.
  destruct (run_calls_keep_cache disk fuel calls (mkState (init config display bgimage) w) s'
              (cache_ok_init config display bgimage Hlimit)) as [_ Hm].
  - intros k v [].
  - exact Hrun.
  - apply Hm. apply get_In. exact Hget.
Qed.

Lemma cache_holds_the_decoded_bitmaps_witness :
  exists s' pyimage,
    run_calls demo_disk 5 demo_calls (mkState (demo_player 4 true true) fresh_world) = Some s'
    /\ first_blit (screen (world s')) = Some (mkSurface 1 800 400 4, (0, 100))
    /\ OrderedDict.get "wide.png" (_image_cache (self s')) = Some pyimage
    /\ decode demo_disk "wide.png"
       = Some (surf_w pyimage, surf_h pyimage, surf_bytesize pyimage).
Proof.
  destruct (run_calls demo_disk 5 demo_calls (mkState (demo_player 4 true true) fresh_world))
    as [s' |] eqn:Hrun; [| vm_compute in Hrun; discriminate Hrun].
  destruct (OrderedDict.get "wide.png" (_image_cache (self s'))) as [pyimage |] eqn:Hget.
  - exists s', pyimage. split; [reflexivity |].
    split; [vm_compute in Hrun; injection Hrun as <-; vm_compute; reflexivity |].
    split; [exact Hget |].
    apply (cache_holds_the_decoded_bitmaps (mkConfig 10 4 [0; 0; 0] true true 0)
             (800, 600) (None, 0, 0) demo_disk 5 demo_calls fresh_world s' "wide.png" pyimage).
    + cbn [cfg_cache_size_limit]; lia.
    + exact Hrun.
    + exact Hget.
  - vm_compute in Hrun. injection Hrun as <-. vm_compute in Hget. discriminate Hget.
Defined.

(** ** When play fails *)

Lemma settings_start_time p p' :
  settings p' = settings p -> _start_time p' = _start_time p.
Proof. unfold settings; intros H; injection H; auto. Qed.

Lemma drawable_true disk image :
  filename image <> ""%string -> isfile disk (filename image) = true ->
  negb (String.eqb (filename image) "") && isfile disk (filename image) = true.
Proof.
  intros Hne ->. rewrite andb_true_r.
  destruct (String.eqb_spec (filename image) ""); [contradiction | reflexivity].
Qed.

(** What [play] does once there is a file to draw. *)
Lemma play_drawable_eq disk fuel image loop now p w :
  filename image <> ""%string -> isfile disk (filename image) = true ->
  play disk fuel image loop now (mkState p w)
  = (play_draw disk fuel (filename image) ;;
     modify_self (set_start_time (Py.PyFloat now)))
      (mkState (set_loop (normalized_loop image loop) p) w).
Proof.
  intros Hne Hfile. rewrite play_eq. unfold bind.
  rewrite drawable_true by assumption. reflexivity.
Qed.

(** X9.  When there is a file to draw and [play] does not return
    normally (it raises, or never comes back from the cache), the display has
    received the background (the fill, and the background image if there is
    one) and nothing else, in particular no flip; it has received nothing at
    all when the failure is the fill itself, on a background colour pygame
    does not take.  [_start_time] is what it was before the call, and [_loop]
    already holds the new loop count. *)
Theorem failed_play_presents_nothing :
  forall disk fuel image loop now s,
    filename image <> ""%string -> isfile disk (filename image) = true ->
    fst (play disk fuel image loop now s) <> Return tt ->
    let s' := snd (play disk fuel image loop now s) in
    screen (world s')
    = screen (world s)
      ++ (if valid_color (_bgcolor (self s)) then blank_events (self s) false else [])
    /\ _start_time (self s') = _start_time (self s)
    /\ _loop (self s') = normalized_loop image loop.
Proof.
  intros disk fuel image loop now [p w] Hne Hfile Hfail s'. subst s'.
  rewrite play_drawable_eq in * by assumption.
  unfold bind in *. cbn [self world].
  destruct (valid_color (_bgcolor p)) eqn:Hvalid.
  2:{ rewrite play_draw_invalid by exact Hvalid. cbn [snd self world].
      rewrite app_nil_r. repeat split. }
  rewrite play_draw_valid in * by exact Hvalid.
  change (blank_events (set_loop (normalized_loop image loop) p) false)
    with (blank_events p false) in *.
  set (s0 := mkState (set_loop (normalized_loop image loop) p)
               (drawn (blank_events p false) w)) in *.
  pose proof (screen_load_image disk fuel (filename image) s0) as Hscr.
  pose proof (settings_load_image disk fuel (filename image) s0) as Hset.
  unfold same_screen in Hscr. unfold same_settings in Hset.
  assert (Hgoal : screen (world (snd (_load_image disk fuel (filename image) s0)))
                  = screen w ++ blank_events p false
                  /\ _start_time (self (snd (_load_image disk fuel (filename image) s0)))
                     = _start_time p
                  /\ _loop (self (snd (_load_image disk fuel (filename image) s0)))
                     = normalized_loop image loop).
  { split; [exact Hscr |].
    split; [apply (settings_start_time _ _ Hset) | apply (settings_loop _ _ Hset)]. }
  clear Hscr Hset.
  destruct (_load_image disk fuel (filename image) s0) as [[pyimage | e |] [p1 w1]];
    cbn [fst snd self world] in *; try exact Hgoal.
  destruct (placement _ _ _ _) as [e | [[target |] dest]];
    cbn [fst snd self world] in *; try exact Hgoal.
  - rewrite transform_scale_eq in *.
    destruct ((fst target <? 0) || (snd target <? 0));
      cbn [fst snd self world] in *; [exact Hgoal | contradiction Hfail; reflexivity].
  - contradiction Hfail; reflexivity.
Qed.

Lemma failed_play_presents_nothing_witness :
  let s := mkState (demo_player 4 true true) fresh_world in
  let s' := snd (play demo_disk_with_notes 5 (mkImage "notes.txt" 3) None (Py.Z2F 100) s) in
  screen (world s') = screen (world s) ++ blank_events (self s) false
  /\ _start_time (self s') = _start_time (self s)
  /\ _loop (self s') = 3.
Proof.
  intros s.
  apply (failed_play_presents_nothing demo_disk_with_notes 5 (mkImage "notes.txt" 3) None
           (Py.Z2F 100) s).
  - discriminate.
  - reflexivity.
  - vm_compute. discriminate.
Defined.

(** X10.  [play] on a file that exists, is not cached and does not decode
    raises pygame.error.  By then the loop count is overwritten, the
    background is painted without a flip and the decoder has been called
    once; the timer, the cache and its byte counter are untouched.  (On a
    background colour pygame does not take, the fill raises ValueError before
    that: the loop count is overwritten and nothing else has happened.) *)
Theorem play_of_an_undecodable_file_raises :
  forall disk fuel image loop now p w,
    filename image <> ""%string -> isfile disk (filename image) = true ->
    OrderedDict.contains (filename image) (_image_cache p) = false ->
    decode disk (filename image) = None ->
    play disk fuel image loop now (mkState p w)
    = if valid_color (_bgcolor p)
      then (Raise pygame_error,
            mkState (set_loop (normalized_loop image loop) p)
              (after_load (filename image) false (drawn (blank_events p false) w)))
      else (Raise ValueError, mkState (set_loop (normalized_loop image loop) p) w).
Proof.
  intros disk fuel image loop now p w Hne Hfile Hmiss Hd.
  rewrite play_drawable_eq by assumption.
  unfold bind.
  destruct (valid_color (_bgcolor p)) eqn:Hvalid;
    [| rewrite play_draw_invalid by exact Hvalid; reflexivity].
  rewrite play_draw_valid by exact Hvalid.
  change (blank_events (set_loop (normalized_loop image loop) p) false)
    with (blank_events p false).
  rewrite load_image_miss_error by assumption. reflexivity.
Qed.

Lemma play_of_an_undecodable_file_raises_witness :
  play demo_disk_with_notes 5 (mkImage "notes.txt" 3) None (Py.Z2F 100)
    (mkState (demo_player 4 true true) fresh_world)
  = (Raise pygame_error,
     mkState (set_loop 3 (demo_player 4 true true))
       (mkWorld [Fill [0; 0; 0]] ["notes.txt"%string] 0)).
Proof.
  apply (play_of_an_undecodable_file_raises demo_disk_with_notes 5 (mkImage "notes.txt" 3)
           None (Py.Z2F 100) (demo_player 4 true true) fresh_world).
  - discriminate.
  - reflexivity.
  - reflexivity.
  - reflexivity.
Defined.

Lemma load_image_Raise_inv disk fuel image_path s e s1 :
  _load_image disk fuel image_path s = (Raise e, s1) -> e = pygame_error.
Proof.
  destruct s as [p w]. intros H.
  destruct (OrderedDict.contains image_path (_image_cache p)) eqn:Hc.
  - unfold _load_image in H. rewrite bind_get_self, Hc in H.
    apply contains_get in Hc. destruct Hc as [v Hv].
    unfold OrderedDict.pop in H. rewrite Hv in H. discriminate H.
  - destruct (decode disk image_path) as [[[wd ht] b] |] eqn:Hd.
    + destruct (load_image_miss_run disk fuel image_path p w wd ht b Hc Hd)
        as [n [[Hr _] | Hr]]; rewrite Hr in H; discriminate H.
    + rewrite load_image_miss_error in H by assumption. congruence.
Qed.

Lemma placement_zero_height scale center screen_w image_size :
  placement scale center (screen_w, 0) image_size = inl ZeroDivisionError.
Proof. unfold placement. destruct image_size. reflexivity. Qed.

(** X11.  On a display whose reported height is 0, [play] never returns
    normally when there is a file to draw: it raises ZeroDivisionError (from
    [screen_w / screen_h]), unless the fetch itself fails with pygame.error or
    does not come back, or the fill before it fails with ValueError, which
    happens exactly on a background colour pygame does not take.  When it
    raises ZeroDivisionError the image has already been decoded and cached. *)
Theorem play_on_a_display_without_height_fails :
  forall disk fuel image loop now s,
    snd (_size (self s)) = 0 ->
    filename image <> ""%string -> isfile disk (filename image) = true ->
    let r := fst (play disk fuel image loop now s) in
    (r = Raise ZeroDivisionError \/ r = Raise pygame_error \/ r = OutOfFuel
     \/ r = Raise ValueError)
    /\ (r = Raise ValueError <-> valid_color (_bgcolor (self s)) = false)
    /\ (r = Raise ZeroDivisionError ->
        exists pyimage,
          OrderedDict.get (filename image)
            (_image_cache (self (snd (play disk fuel image loop now s)))) = Some pyimage).
Proof.
  intros disk fuel image loop now [p w] Hzero Hne Hfile r. subst r.
  cbn [self] in Hzero. cbn [self].
  rewrite play_drawable_eq by assumption.
  unfold bind.
  destruct (valid_color (_bgcolor p)) eqn:Hvalid.
  2:{ rewrite play_draw_invalid by exact Hvalid. cbn [fst].
      split; [right; right; right; reflexivity |].
      split; [split; reflexivity | discriminate]. }
  rewrite play_draw_valid by exact Hvalid.
  change (blank_events (set_loop (normalized_loop image loop) p) false)
    with (blank_events p false).
  set (s0 := mkState (set_loop (normalized_loop image loop) p)
               (drawn (blank_events p false) w)).
  pose proof (settings_load_image disk fuel (filename image) s0) as Hset.
  unfold same_settings in Hset.
  destruct (_load_image disk fuel (filename image) s0) as [[pyimage | e |] [p1 w1]] eqn:Hload;
    cbn [fst snd self world] in *.
  - assert (Hsize : _size p1 = (fst (_size p), 0)).
    { unfold settings in Hset. injection Hset as _ Hs _ _ _ _ _ _ _ _.
      rewrite Hs. cbn [_size set_loop]. rewrite <- Hzero. destruct (_size p); reflexivity. }
    rewrite Hsize, placement_zero_height. cbn [fst snd self].
    split; [left; reflexivity |].
    split; [split; discriminate |]. intros _. exists pyimage.
    apply (load_image_Return_cached _ _ _ _ _ _ Hload).
  - apply load_image_Raise_inv in Hload. subst e.
    split; [right; left; reflexivity |]. split; [split; discriminate | discriminate].
  - split; [right; right; left; reflexivity |].
    split; [split; discriminate | discriminate].
Qed.

Lemma play_on_a_display_without_height_fails_witness :
  let s := mkState (init (mkConfig 10 4 [0; 0; 0] true true 0) (800, 0) (None, 0, 0))
             fresh_world in
  let r := fst (play demo_disk 5 (mkImage "wide.png" 1) None (Py.Z2F 100) s) in
  ((r = Raise ZeroDivisionError \/ r = Raise pygame_error \/ r = OutOfFuel
    \/ r = Raise ValueError)
   /\ (r = Raise ValueError <-> valid_color (_bgcolor (self s)) = false)
   /\ (r = Raise ZeroDivisionError ->
       exists pyimage,
         OrderedDict.get "wide.png"
           (_image_cache (self (snd (play demo_disk 5 (mkImage "wide.png" 1) None
                                       (Py.Z2F 100) s)))) = Some pyimage))
  /\ r = Raise ZeroDivisionError.
Proof.
  intros s r. split.
  - apply (play_on_a_display_without_height_fails demo_disk 5 (mkImage "wide.png" 1) None
             (Py.Z2F 100) s).
    + reflexivity.
    + discriminate.
    + reflexivity.
  - vm_compute. reflexivity.
Defined.

(** ** The frame of a drawn play *)

Lemma blank_events_no_flip p : ~ In Flip (blank_events p false).
Proof.
  unfold blank_events. destruct (_bgimage p) as [[[bg |] x] y]; simpl; intuition discriminate.
Qed.

(** X12.  A [play] that draws and returns sends exactly one frame to the
    display: the fill with the background colour, then the background image
    if there is one, then the image, then a single flip, which comes last. *)
Theorem drawn_play_presents_one_frame :
  forall disk fuel image loop now s s',
    filename image <> ""%string -> isfile disk (filename image) = true ->
    play disk fuel image loop now s = (Return tt, s') ->
    exists background blitted dest,
      screen (world s')
      = screen (world s) ++ Fill (_bgcolor (self s)) :: background
          ++ [Blit blitted dest; Flip]
      /\ ~ In Flip background
      /\ background = match _bgimage (self s) with
                      | (Some bg, x, y) => [Blit bg (x, y)]
                      | (None, _, _) => []
                      end.
Proof.
  intros disk fuel image loop now s s' Hne Hfile Hplay.
  destruct (play_Return_inv disk fuel image loop now s s' Hne Hfile Hplay)
    as [pyimage [target [blitted [dest [_ [_ [_ Hscreen]]]]]]].
  exists (match _bgimage (self s) with
          | (Some bg, x, y) => [Blit bg (x, y)]
          | (None, _, _) => []
          end), blitted, dest.
  split; [| split; [| reflexivity]].
  - rewrite Hscreen. unfold blank_events. cbn [app]. rewrite app_nil_r. reflexivity.
  - destruct (_bgimage (self s)) as [[[bg |] x] y]; simpl; intuition discriminate.
Qed.

Lemma drawn_play_presents_one_frame_witness :
  exists s' background blitted dest,
    play demo_disk 5 (mkImage "wide.png" 1) None (Py.Z2F 100)
      (mkState (demo_player 4 true true) fresh_world) = (Return tt, s')
    /\ screen (world s')
       = [] ++ Fill [0; 0; 0] :: background ++ [Blit blitted dest; Flip]
    /\ ~ In Flip background
    /\ background = [].
Proof.
  destruct (play demo_disk 5 (mkImage "wide.png" 1) None (Py.Z2F 100)
              (mkState (demo_player 4 true true) fresh_world)) as [r s'] eqn:Hplay.
  assert (Hr : r = Return tt).
  { vm_compute in Hplay. injection Hplay as <- _. reflexivity. }
  subst r.
  destruct (drawn_play_presents_one_frame demo_disk 5 (mkImage "wide.png" 1) None
              (Py.Z2F 100) (mkState (demo_player 4 true true) fresh_world) s')
    as [background [blitted [dest H]]].
  - discriminate.
  - reflexivity.
  - exact Hplay.
  - exists s', background, blitted, dest. split; [reflexivity | exact H].
Defined.

(** ** Centering *)

Lemma half_margin a : 0 <= a - 2 * (a / 2) <= 1.
Proof.
  pose proof (Z_div_mod_eq_full a 2) as H.
  pose proof (Z.mod_pos_bound a 2 ltac:(lia)) as Hb. lia.
Qed.

Lemma scaled_size_width_bound sw sh iw ih sa pa size new_w new_h :
  Py.flt sa pa = true ->
  scaled_size sw sh iw ih sa pa = inr (size, (new_w, new_h)) ->
  size = (new_w, new_h).
Proof.
  unfold scaled_size. intros ->.
  destruct (Py.int_div_float sw pa) as [e | q]; [discriminate |].
  destruct (Py.int_of_float q) as [e | nh]; [discriminate |].
  intros [= <- <- <-]. reflexivity.
Qed.

Lemma scaled_size_height_bound sw sh iw ih sa pa size new_w new_h :
  Py.flt sa pa = false -> Py.flt pa sa = true ->
  scaled_size sw sh iw ih sa pa = inr (size, (new_w, new_h)) ->
  size = (new_w, new_h).
Proof.
  unfold scaled_size. intros -> ->.
  destruct (Py.int_mul_float sh pa) as [e | q]; [discriminate |].
  destruct (Py.int_of_float q) as [e | nw]; [discriminate |].
  intros [= <- <- <-]. reflexivity.
Qed.

(** X14.  The offsets of the blit.  At least one of the two is 0, and both
    are 0 when centering is off.  An offset that is not 0 centres the blitted
    bitmap along its axis: the margin after the bitmap equals the margin
    before it, or exceeds it by one pixel.  So with centering on, a bitmap
    smaller than the display in both directions is centred along one axis
    only. *)
Theorem centering_moves_one_axis :
  forall disk fuel image loop now s s',
    filename image <> ""%string -> isfile disk (filename image) = true ->
    play disk fuel image loop now s = (Return tt, s') ->
    exists blitted x y,
      last_blit (screen (world s')) = Some (blitted, (x, y))
      /\ (x = 0 \/ y = 0)
      /\ (_center (self s) = false -> x = 0 /\ y = 0)
      /\ (x <> 0 -> 0 <= fst (_size (self s)) - fst (get_size blitted) - 2 * x <= 1)
      /\ (y <> 0 -> 0 <= snd (_size (self s)) - snd (get_size blitted) - 2 * y <= 1).
Proof.
  intros disk fuel image loop now s s' Hne Hfile Hplay.
  destruct (play_Return_inv disk fuel image loop now s s' Hne Hfile Hplay)
    as [pyimage [target [blitted [[x y] [_ [Hplace [Htarget Hscreen]]]]]]].
  exists blitted, x, y.
  split; [rewrite Hscreen, app_assoc; apply last_blit_app |].
  destruct (_size (self s)) as [sw sh]. destruct (get_size pyimage) as [iw ih] eqn:Hsize.
  destruct (placement_inv _ _ _ _ _ _ _ _ Hplace)
    as [sa [pa [new_w [new_h [_ [_ [Hscale Hdest]]]]]]].
  assert (Hblit : Py.flt sa pa = true \/ Py.flt pa sa = true ->
                  get_size blitted = (new_w, new_h)).
  { intros Hbound. destruct (_scale (self s)).
    - destruct Hscale as [size [-> Hsc]]. destruct Htarget as [_ [_ [Hb _]]].
      rewrite Hb. destruct (Py.flt sa pa) eqn:Hlt.
      + eapply scaled_size_width_bound; eassumption.
      + destruct Hbound as [Hbound | Hbound]; [discriminate |].
        eapply scaled_size_height_bound; eassumption.
    - destruct Hscale as [-> [-> ->]]. subst blitted. exact Hsize. }
  cbn [fst snd].
  destruct (_center (self s)).
  - unfold centered in Hdest.
    destruct (Py.flt sa pa) eqn:Hlt; [| destruct (Py.flt pa sa) eqn:Hgt].
    + injection Hdest as -> ->. rewrite Hblit by (left; reflexivity). cbn [fst snd].
      split; [left; reflexivity |]. split; [discriminate |].
      split; [intros H; contradiction H; reflexivity |].
      intros _. apply half_margin.
    + injection Hdest as -> ->. rewrite Hblit by (right; reflexivity). cbn [fst snd].
      split; [right; reflexivity |]. split; [discriminate |].
      split; [intros _; apply half_margin |].
      intros H; contradiction H; reflexivity.
    + injection Hdest as -> ->.
      split; [left; reflexivity |]. split; [auto |].
      split; intros H; contradiction H; reflexivity.
  - injection Hdest as -> ->.
    split; [left; reflexivity |]. split; [auto |].
    split; intros H; contradiction H; reflexivity.
Qed.

Lemma centering_moves_one_axis_witness :
  let s := mkState (demo_player 4 false true) fresh_world in
  let s' := snd (play demo_disk 5 (mkImage "a.png" 1) None (Py.Z2F 100) s) in
  exists blitted x y,
    last_blit (screen (world s')) = Some (blitted, (x, y))
    /\ (x = 0 \/ y = 0)
    /\ (_center (self s) = false -> x = 0 /\ y = 0)
    /\ (x <> 0 -> 0 <= fst (_size (self s)) - fst (get_size blitted) - 2 * x <= 1)
    /\ (y <> 0 -> 0 <= snd (_size (self s)) - snd (get_size blitted) - 2 * y <= 1).
Proof.
  intros s s'.
  apply (centering_moves_one_axis demo_disk 5 (mkImage "a.png" 1) None (Py.Z2F 100) s s').
  - discriminate.
  - reflexivity.
  - vm_compute. reflexivity.
Defined.

(** ** Decoder calls and the timer *)

Lemma load_image_loads disk fuel image_path p w :
  loads (world (snd (_load_image disk fuel image_path (mkState p w))))
  = loads w ++ (if OrderedDict.contains image_path (_image_cache p)
                then [] else [image_path]).
Proof.
  destruct (OrderedDict.contains image_path (_image_cache p)) eqn:Hc.
  - unfold _load_image. rewrite bind_get_self, Hc. unfold OrderedDict.pop.
    destruct (OrderedDict.get image_path (_image_cache p));
      cbn; rewrite app_nil_r; reflexivity.
  - destruct (decode disk image_path) as [[[wd ht] b] |] eqn:Hd.
    + destruct (load_image_miss_run disk fuel image_path p w wd ht b Hc Hd)
        as [n [[Hr _] | Hr]]; rewrite Hr; reflexivity.
    + rewrite load_image_miss_error by assumption. reflexivity.
Qed.

Lemma play_draw_loads disk fuel image_path p w :
  valid_color (_bgcolor p) = true ->
  loads (world (snd (play_draw disk fuel image_path (mkState p w))))
  = loads (world (snd (_load_image disk fuel image_path
                         (mkState p (drawn (blank_events p false) w))))).
Proof.
  intros Hvalid. rewrite play_draw_valid by exact Hvalid.
  destruct (_load_image disk fuel image_path (mkState p (drawn (blank_events p false) w)))
    as [[pyimage | e |] [p1 w1]]; cbn [fst snd self world]; try reflexivity.
  destruct (placement _ _ _ _) as [e | [[target |] dest]];
    cbn [fst snd self world]; try reflexivity.
  rewrite transform_scale_eq.
  destruct ((fst target <? 0) || (snd target <? 0)); reflexivity.
Qed.

(** X13.  Whatever its outcome, [play] hands the decoder the filename
    once when there is a file to draw that is not in the cache, and does not
    call the decoder otherwise.  (It gets as far as the fetch when the fill
    before it succeeds: on a background colour pygame does not take the
    decoder is not called either.) *)
Theorem play_decodes_only_on_a_miss :
  forall disk fuel image loop now s,
    loads (world (snd (play disk fuel image loop now s)))
    = loads (world s)
      ++ (if negb (String.eqb (filename image) "") && isfile disk (filename image)
             && valid_color (_bgcolor (self s))
             && negb (OrderedDict.contains (filename image) (_image_cache (self s)))
          then [filename image] else []).
Proof.
  intros disk fuel image loop now [p w]. rewrite play_eq. unfold bind. cbn [self world].
  destruct (negb (String.eqb (filename image) "") && isfile disk (filename image)).
  - destruct (valid_color (_bgcolor p)) eqn:Hvalid.
    2:{ rewrite play_draw_invalid by exact Hvalid. cbn. rewrite app_nil_r. reflexivity. }
    pose proof (play_draw_loads disk fuel (filename image)
                  (set_loop (normalized_loop image loop) p) w Hvalid) as Hl.
    rewrite load_image_loads in Hl. cbn [loads drawn _image_cache set_loop] in Hl.
    cbn [andb].
    destruct (play_draw disk fuel (filename image)
                (mkState (set_loop (normalized_loop image loop) p) w))
      as [[[] | e |] s1]; cbn [snd] in Hl; cbn [snd world modify_self];
      rewrite Hl; destruct (OrderedDict.contains _ _); reflexivity.
  - cbn. rewrite app_nil_r. reflexivity.
Qed.

Lemma fsub_self x : is_number x = true -> Py.fsub x x = S754_zero false.
Proof.
  destruct x as [[|] | [|] | | s m e]; try discriminate; intros _; try reflexivity.
  unfold Py.fsub, SFsub. rewrite Z.sub_diag. reflexivity.
Qed.

(** What a returned [play] leaves in the player, apart from the cache. *)
Lemma play_Return_settings disk fuel image loop now p w s' :
  play disk fuel image loop now (mkState p w) = (Return tt, s') ->
  settings (self s')
  = settings (set_start_time (Py.PyFloat now) (set_loop (normalized_loop image loop) p)).
Proof.
  rewrite play_eq. intros H.
  apply bind_Return_inv in H. destruct H as [[] [s1 [Hdraw Hset]]].
  assert (Hs1 : settings (self s1) = settings (set_loop (normalized_loop image loop) p)).
  { destruct (negb (String.eqb (filename image) "") && isfile disk (filename image)).
    - pose proof (settings_play_draw disk fuel (filename image)
                    (mkState (set_loop (normalized_loop image loop) p) w)) as Hk.
      rewrite Hdraw in Hk. exact Hk.
    - injection Hdraw as <-. reflexivity. }
  injection Hset as <-. cbn [self]. unfold settings in *.
  cbn [_duration _size _bgcolor _scale _center _wait_time _bgimage _loop _start_time
       _cache_size_limit set_start_time] in *.
  injection Hs1 as -> -> -> -> -> -> -> -> _ ->. reflexivity.
Qed.

(** X16.  Right after a [play] that returned, [is_playing] at the same
    clock reading (any finite one) answers true exactly when the loop count
    is at or below -1 or [_duration * _loop] is positive: with a duration of
    0 or less an image is over as soon as it is shown.  ([answered] is the
    answer returned; only an answer of False with a positive [_wait_time] and
    a background colour pygame does not take ends in ValueError instead.) *)
Theorem image_is_playing_right_after_play :
  forall disk fuel image loop now s s',
    is_number now = true ->
    play disk fuel image loop now s = (Return tt, s') ->
    let l := normalized_loop image loop in
    fst (is_playing now s')
    = answered (self s) ((l <=? -1) || (0 <? _duration (self s) * l)).
Proof.
  intros disk fuel image loop now [p w] [p' w'] Hnum Hplay l.
  apply play_Return_settings in Hplay. cbn [self] in *.
  unfold settings in Hplay.
  cbn [_duration _size _bgcolor _scale _center _wait_time _bgimage _loop _start_time
       _cache_size_limit set_start_time set_loop] in Hplay.
  injection Hplay as Hd _ Hbg _ _ Hwt _ Hl Hs _.
  rewrite is_playing_eq, Hl, Hs, Hd. fold l.
  destruct (l <=? -1); [reflexivity |].
  cbn [Py.float_sub_num orb]. rewrite fsub_self by exact Hnum.
  apply answered_ext; assumption.
Qed.

Lemma image_is_playing_right_after_play_witness :
  let s := mkState (demo_player 4 true true) fresh_world in
  let s' := snd (play demo_disk 5 (mkImage "wide.png" 3) None (Py.Z2F 100) s) in
  fst (is_playing (Py.Z2F 100) s') = Return true.
Proof.
  intros s s'.
  apply (image_is_playing_right_after_play demo_disk 5 (mkImage "wide.png" 3) None
           (Py.Z2F 100) s s').
  - reflexivity.
  - vm_compute. reflexivity.
Defined.

(** X17.  [is_playing] never changes the player (neither the timer nor the
    cache) and never calls the decoder or allocates a bitmap.  It draws only
    when it answers false and [_wait_time] is positive, and then exactly the
    background followed by a flip; each such poll draws it again. *)
Theorem is_playing_only_redraws_the_background :
  forall now s,
    let r := fst (is_playing now s) in
    let s' := snd (is_playing now s) in
    self s' = self s
    /\ loads (world s') = loads (world s)
    /\ next_id (world s') = next_id (world s)
    /\ screen (world s')
       = screen (world s)
         ++ match r with
            | Return false => if _wait_time (self s) >? 0
                              then blank_events (self s) true else []
            | _ => []
            end.
Proof.
  intros now [p w] r s'. subst r s'. rewrite is_playing_run. cbn [self world].
  destruct (_loop p <=? -1); cbn [fst snd self world].
  - rewrite app_nil_r. repeat split.
  - destruct (Py.float_sub_num now (_start_time p)) as [e | elapsed];
      cbn [fst snd self world].
    + rewrite app_nil_r. repeat split.
    + unfold answered.
      destruct (Py.float_lt_int elapsed (_duration p * _loop p)); cbn [negb andb].
      * rewrite app_nil_r. repeat split.
      * destruct (_wait_time p >? 0); destruct (valid_color (_bgcolor p));
          cbn [negb andb world drawn screen loads next_id];
          rewrite ?app_nil_r; repeat split.
Qed.

Lemma float_lt_int_not_negative x n :
  not_negative x = true -> n <= 0 -> Py.float_lt_int x n = false.
Proof.
  intros Hx Hn. destruct x as [s | [|] | | [|] m e]; try discriminate Hx; try reflexivity.
  - apply Z.ltb_ge. exact Hn.
  - unfold Py.float_lt_int. change (cond_Zopp false (Z.pos m)) with (Z.pos m).
    destruct (0 <=? e) eqn:He; apply Z.ltb_ge.
    + apply Z.leb_le in He.
      pose proof (Z.pow_nonneg 2 e ltac:(lia)). nia.
    + pose proof (Z.pow_nonneg 2 (- e) ltac:(lia)). nia.
Qed.

Lemma fsub_zero_not_negative x :
  not_negative x = true -> not_negative (Py.fsub x (S754_zero false)) = true.
Proof. destruct x as [[|] | [|] | | [|] m e]; try discriminate; reflexivity. Qed.

(** X18.  A player fresh from [create_player] is not playing: at every
    clock reading that is not negative the answer of [is_playing] is False,
    and [stop] leaves the player exactly as it was created.  When pygame
    takes the configured background colour both calls return normally.
    [stop] always paints the background, so on any other colour it raises
    ValueError; [is_playing] paints it, and then raises, only when
    [_wait_time] is positive. *)
Theorem new_player_is_not_playing :
  forall config display bgimage w now,
    not_negative now = true ->
    let p := create_player config display bgimage in
    fst (is_playing now (mkState p w)) = answered p false
    /\ (valid_color (cfg_bgcolor config) = true ->
        fst (is_playing now (mkState p w)) = Return false)
    /\ fst (stop 0 (mkState p w))
       = (if valid_color (cfg_bgcolor config) then Return tt else Raise ValueError)
    /\ self (snd (stop 0 (mkState p w))) = p.
Proof.
  intros config display bgimage w now Hnow p.
  assert (Hanswer : fst (is_playing now (mkState p w)) = answered p false).
  { rewrite is_playing_eq. unfold p, create_player, init.
    cbn [_loop _start_time _duration Py.float_sub_num].
    change (0 <=? -1) with false. cbv iota.
    change (Py.float_of_int 0) with (@inr exn Py.float (S754_zero false)). cbv iota.
    rewrite float_lt_int_not_negative; [reflexivity | | lia].
    apply fsub_zero_not_negative. exact Hnow. }
  split; [exact Hanswer |]. split; [| split].
  - intros Hvalid. rewrite Hanswer. apply answered_valid. exact Hvalid.
  - rewrite stop_eq. unfold p, create_player, init. cbn [_bgcolor].
    destruct (valid_color (cfg_bgcolor config)); reflexivity.
  - rewrite stop_eq. unfold p, create_player, init. cbn [_bgcolor].
    destruct (valid_color (cfg_bgcolor config)); [| reflexivity].
    cbn. rewrite Z.mul_0_r. reflexivity.
Qed.

(** A new player with a black background, and one with a red channel of 300. *)
Lemma new_player_is_not_playing_witness :
  let p := create_player (mkConfig 10 4 [0; 0; 0] true true 0) (800, 600) (None, 0, 0) in
  let p' := create_player (mkConfig 10 4 [300; 0; 0] true true 5) (800, 600) (None, 0, 0) in
  (fst (is_playing (Py.Z2F 100) (mkState p fresh_world)) = Return false
   /\ fst (stop 0 (mkState p fresh_world)) = Return tt
   /\ self (snd (stop 0 (mkState p fresh_world))) = p)
  /\ (fst (is_playing (Py.Z2F 100) (mkState p' fresh_world)) = Raise ValueError
      /\ fst (stop 0 (mkState p' fresh_world)) = Raise ValueError
      /\ self (snd (stop 0 (mkState p' fresh_world))) = p').
Proof.
  intros p p'. split.
  - destruct (new_player_is_not_playing (mkConfig 10 4 [0; 0; 0] true true 0) (800, 600)
                (None, 0, 0) fresh_world (Py.Z2F 100) eq_refl) as (_ & Hplaying & Hstop & Hself).
    split; [apply Hplaying; reflexivity |]. split; [exact Hstop | exact Hself].
  - destruct (new_player_is_not_playing (mkConfig 10 4 [300; 0; 0] true true 5) (800, 600)
                (None, 0, 0) fresh_world (Py.Z2F 100) eq_refl) as (Hanswer & _ & Hstop & Hself).
    split; [exact Hanswer |]. split; [exact Hstop | exact Hself].
Defined.

(** ** Play returns; the most recent image stays *)

(** [play] comes back from the fetch and from the drawing. *)
Lemma play_fitting_image_returns disk fuel image loop now p w wd ht b :
  cache_ok p -> cache_matches_disk disk p ->
  valid_color (_bgcolor p) = true ->
  filename image <> ""%string -> isfile disk (filename image) = true ->
  decode disk (filename image) = Some (wd, ht, b) ->
  geometry_bytes (wd, ht, b) <= _cache_size_limit p ->
  (List.length (_image_cache p) < fuel)%nat ->
  0 < fst (_size p) < 2 ^ 53 -> 0 < snd (_size p) < 2 ^ 53 ->
  0 < Z.of_N wd < 2 ^ 53 -> 0 < Z.of_N ht < 2 ^ 53 ->
  exists s', play disk fuel image loop now (mkState p w) = (Return tt, s').
Proof.
  intros [Hsum [Hnd Hle]] Hm Hvalid Hne Hfile Hd Hfit Hfuel Hsw Hsh Hw Hh.
  rewrite play_drawable_eq by assumption.
  set (p0 := set_loop (normalized_loop image loop) p).
  assert (Hload : exists pyimage s1,
            _load_image disk fuel (filename image)
              (mkState p0 (drawn (blank_events p0 false) w)) = (Return pyimage, s1)
            /\ get_size pyimage = (Z.of_N wd, Z.of_N ht)).
  { destruct (OrderedDict.contains (filename image) (_image_cache p0)) eqn:Hc.
    - apply contains_get in Hc. destruct Hc as [v Hv].
      exists v. eexists. split; [apply load_image_hit; [exact Hnd | exact Hv] |].
      pose proof (Hm _ _ (get_In _ _ _ Hv)) as Hg. rewrite Hd in Hg.
      injection Hg as -> -> _. reflexivity.
    - destruct (load_image_miss_returns disk fuel (filename image) p0
                  (drawn (blank_events p0 false) w) wd ht b Hsum Hc Hd Hfit Hfuel)
        as [p' Hr].
      eexists. eexists. split; [exact Hr | reflexivity]. }
  destruct Hload as [pyimage [s1 [Hload Hsize]]].
  destruct (play_draw_returns disk fuel (filename image) p0 w pyimage s1 Hvalid Hload)
    as [s2 Hdraw]; try (rewrite Hsize; assumption); try assumption.
  erewrite bind_Return by exact Hdraw. eexists. reflexivity.
Qed.

(** X8.  [play] returns normally when the cache is consistent (as it is
    after any sequence of calls on a new player), the background colour is
    one pygame takes, the file exists and decodes to an image that fits the
    cache limit by itself, the display and the image have positive dimensions
    below 2^53, and there is fuel for one loop test per cached entry and one
    more.  It then leaves the image cached, drawn last on the display, and
    the timer started at [now]. *)
Theorem play_returns_for_a_fitting_image :
  forall disk fuel image loop now p w wd ht b,
    cache_ok p -> cache_matches_disk disk p ->
    valid_color (_bgcolor p) = true ->
    filename image <> ""%string -> isfile disk (filename image) = true ->
    decode disk (filename image) = Some (wd, ht, b) ->
    geometry_bytes (wd, ht, b) <= _cache_size_limit p ->
    (List.length (_image_cache p) < fuel)%nat ->
    0 < fst (_size p) < 2 ^ 53 -> 0 < snd (_size p) < 2 ^ 53 ->
    0 < Z.of_N wd < 2 ^ 53 -> 0 < Z.of_N ht < 2 ^ 53 ->
    exists s' pyimage blitted dest,
      play disk fuel image loop now (mkState p w) = (Return tt, s')
      /\ OrderedDict.get (filename image) (_image_cache (self s')) = Some pyimage
      /\ get_size pyimage = (Z.of_N wd, Z.of_N ht)
      /\ last_blit (screen (world s')) = Some (blitted, dest)
      /\ _start_time (self s') = Py.PyFloat now.
Proof.
  intros disk fuel image loop now p w wd ht b Hok Hm Hvalid Hne Hfile Hd Hfit Hfuel
    Hsw Hsh Hw Hh.
  destruct (play_fitting_image_returns disk fuel image loop now p w wd ht b
              Hok Hm Hvalid Hne Hfile Hd Hfit Hfuel Hsw Hsh Hw Hh) as [s' Hplay].
  destruct (play_Return_inv disk fuel image loop now (mkState p w) s' Hne Hfile Hplay)
    as (pyimage & target & blitted & dest & Hcached & _ & _ & Hscreen).
  exists s', pyimage, blitted, dest.
  split; [exact Hplay |]. split; [exact Hcached |].
  split; [| split].
  - assert (Hkeep : cache_ok (self s') /\ cache_matches_disk disk (self s')).
    { apply (run_calls_keep_cache disk fuel [call_play image loop now] (mkState p w) s');
        [exact Hok | exact Hm |].
      cbn [run_calls run_call]. rewrite Hplay. reflexivity. }
    destruct Hkeep as [_ Hm'].
    pose proof (Hm' _ _ (get_In _ _ _ Hcached)) as Hg. rewrite Hd in Hg.
    injection Hg as -> -> _. reflexivity.
  - rewrite Hscreen, app_assoc. apply last_blit_app.
  - destruct s' as [p' w']. apply play_Return_settings in Hplay.
    apply settings_start_time in Hplay. exact Hplay.
Qed.

Lemma play_returns_for_a_fitting_image_witness :
  exists s' pyimage blitted dest,
    play demo_disk 1 (mkImage "tall.png" 1) None (Py.Z2F 100)
      (mkState (demo_player 4 true true) fresh_world) = (Return tt, s')
    /\ OrderedDict.get "tall.png" (_image_cache (self s')) = Some pyimage
    /\ get_size pyimage = (400, 800)
    /\ last_blit (screen (world s')) = Some (blitted, dest)
    /\ _start_time (self s') = Py.PyFloat (Py.Z2F 100).
Proof.
  apply (play_returns_for_a_fitting_image demo_disk 1 (mkImage "tall.png" 1) None
           (Py.Z2F 100) (demo_player 4 true true) fresh_world 400 800 4).
  - apply cache_ok_init. cbn [cfg_cache_size_limit]. lia.
  - intros k v [].
  - reflexivity.
  - discriminate.
  - reflexivity.
  - reflexivity.
  - vm_compute. discriminate.
  - simpl. lia.
  - simpl. lia.
  - simpl. lia.
  - simpl. lia.
  - simpl. lia.
Defined.

Lemma get_app k d1 d2 :
  OrderedDict.get k (d1 ++ d2)
  = match OrderedDict.get k d1 with
    | Some v => Some v
    | None => OrderedDict.get k d2
    end.
Proof.
  induction d1 as [| [k' v'] d1 IH]; simpl; [reflexivity |].
  destruct (String.eqb k k'); [reflexivity | exact IH].
Qed.

Lemma get_remove_other k k' d :
  k <> k' -> OrderedDict.get k (OrderedDict.remove k' d) = OrderedDict.get k d.
Proof.
  intros Hne. induction d as [| [k0 v0] d IH]; simpl; [reflexivity |].
  destruct (String.eqb_spec k' k0) as [-> | Hne0].
  - destruct (String.eqb_spec k k0); [contradiction | reflexivity].
  - simpl. rewrite IH. reflexivity.
Qed.

Lemma contains_false_get k d :
  OrderedDict.contains k d = false -> OrderedDict.get k d = None.
Proof.
  intros Hc. destruct (OrderedDict.get k d) as [v |] eqn:Hg; [| reflexivity].
  assert (OrderedDict.contains k d = true) by (apply contains_get; eauto). congruence.
Qed.

Lemma skipn_contains k n d :
  OrderedDict.contains k d = false -> OrderedDict.contains k (skipn n d) = false.
Proof.
  intros Hc. destruct (OrderedDict.contains k (skipn n d)) eqn:Hs; [| reflexivity].
  apply contains_In in Hs. unfold OrderedDict.keys in Hs.
  apply in_map_iff in Hs. destruct Hs as [[k0 v0] [Hk Hin]]. simpl in Hk. subst k0.
  apply skipn_In in Hin.
  assert (OrderedDict.contains k d = true).
  { apply contains_In. unfold OrderedDict.keys. apply in_map_iff.
    exists (k, v0). split; [reflexivity | exact Hin]. }
  congruence.
Qed.

(** X4.  The most recently fetched image is the last to go: when a fetch
    of [path1] is followed by a fetch of another path, both returning, and
    the two bitmaps fit the cache limit together, then [path1] is still
    cached afterwards, with the same bitmap. *)
Theorem most_recent_image_survives_the_next_fetch :
  forall disk fuel path1 path2 s pyimage1 s1 pyimage2 s2,
    cache_ok (self s) ->
    path1 <> path2 ->
    _load_image disk fuel path1 s = (Return pyimage1, s1) ->
    _load_image disk fuel path2 s1 = (Return pyimage2, s2) ->
    _get_image_size pyimage1 + _get_image_size pyimage2 <= _cache_size_limit (self s) ->
    OrderedDict.get path1 (_image_cache (self s2)) = Some pyimage1
    /\ OrderedDict.get path2 (_image_cache (self s2)) = Some pyimage2.
Proof.
  intros disk fuel path1 path2 [p w] pyimage1 [p1 w1] pyimage2 s2 Hok Hne H1 H2 Hfit.
  cbn [self] in *.
  split; [| eapply load_image_Return_cached; exact H2].
  assert (Hok1 : cache_ok p1 /\ _cache_size_limit p1 = _cache_size_limit p).
  { pose proof (run_op_cache_ok disk fuel (get_or_load path1) p w Hok) as Hk.
    pose proof (settings_load_image disk fuel path1 (mkState p w)) as Hset.
    cbn [run_op] in Hk. unfold bind in Hk. rewrite H1 in Hk, Hset.
    cbn [fst snd self] in Hk, Hset.
    split; [destruct Hk as [Hk | Hk]; [discriminate Hk | exact Hk] |].
    unfold same_settings, settings in Hset. cbn [self] in Hset.
    injection Hset; auto. }
  destruct Hok1 as [[Hsum1 [Hnd1 Hle1]] Hlim1].
  destruct Hok as [Hsum [Hnd Hle]].
  destruct (load_image_Return_last disk fuel path1 p w pyimage1 (mkState p1 w1) Hnd H1)
    as [older [Hcache [Hc1 _]]].
  cbn [self] in Hcache.
  destruct (OrderedDict.contains path2 (_image_cache p1)) eqn:Hc2.
  - (* a hit on path2: nothing is evicted *)
    apply contains_get in Hc2. destruct Hc2 as [v Hv].
    rewrite (load_image_hit disk fuel path2 v p1 w1 Hnd1 Hv) in H2.
    injection H2 as <- <-. unfold promoted. cbn [self _image_cache set_image_cache].
    rewrite get_app, get_remove_other by exact Hne.
    rewrite Hcache, get_app_last by exact Hc1. reflexivity.
  - (* a miss: eviction stops before the most recent entry *)
    destruct (load_image_miss_Return_inv disk fuel path2 p1 w1 pyimage2 s2 Hc2 H2)
      as [wd [ht [b [n [_ [_ [-> [_ Hmin]]]]]]]].
    unfold inserted. cbn [self _image_cache set_current_cache_size set_image_cache].
    rewrite setitem_new by (apply iter_evicted_contains; exact Hc2).
    rewrite iter_evicted_skipn, Hcache.
    assert (Hn : (n <= List.length older)%nat).
    { destruct (Nat.le_gt_cases n (List.length older)) as [Hok | Hgt]; [exact Hok |].
      specialize (Hmin (List.length older) Hgt).
      rewrite iter_evicted_bytes in Hmin by exact Hsum1.
      rewrite Hcache, skipn_app, skipn_all, Nat.sub_diag in Hmin.
      cbn [app skipn cache_bytes fold_right snd] in Hmin. lia. }
    rewrite skipn_app.
    replace (n - List.length older)%nat with O by lia. cbn [skipn].
    rewrite <- app_assoc, get_app.
    rewrite (contains_false_get path1 (skipn n older)) by (apply skipn_contains; exact Hc1).
    cbn [app OrderedDict.get]. rewrite String.eqb_refl. reflexivity.
Qed.

Lemma most_recent_image_survives_the_next_fetch_witness :
  let s := snd (_load_image demo_disk 2 "c.png"
                  (mkState (demo_player 1 true true) fresh_world)) in
  let s1 := snd (_load_image demo_disk 2 "a.png" s) in
  let s2 := snd (_load_image demo_disk 2 "b.png" s1) in
  (OrderedDict.get "a.png" (_image_cache (self s2)) = Some (mkSurface 1 512 256 4)
   /\ OrderedDict.get "b.png" (_image_cache (self s2)) = Some (mkSurface 2 512 256 4))
  /\ OrderedDict.contains "c.png" (_image_cache (self s2)) = false.
Proof.
  intros s s1 s2. split; [| vm_compute; reflexivity].
  apply (most_recent_image_survives_the_next_fetch demo_disk 2 "a.png" "b.png" s
           (mkSurface 1 512 256 4) s1 (mkSurface 2 512 256 4) s2).
  - apply (cache_ok_inserted "c.png" (mkSurface 0 512 256 4) 0 (demo_player 1 true true)).
    + apply cache_ok_init. cbn [cfg_cache_size_limit]. lia.
    + reflexivity.
    + vm_compute. discriminate.
  - discriminate.
  - vm_compute. reflexivity.
  - vm_compute. reflexivity.
  - vm_compute. discriminate.
Defined.

(** ** The extensions setting *)

Lemma split_not_nil sep s : Str.split sep s <> [].
Proof.
  destruct s as [| c s]; simpl; [discriminate |].
  destruct (Ascii.eqb c sep); [discriminate |].
  destruct (Str.split sep s); discriminate.
Qed.

Lemma split_concat sep s : String.concat (String sep EmptyString) (Str.split sep s) = s.
Proof.
  induction s as [| c s IH]; [reflexivity |].
  pose proof (split_not_nil sep s) as Hnil.
  cbn [Str.split]. destruct (Ascii.eqb_spec c sep) as [-> | Hne].
  - destruct (Str.split sep s) as [| f fs] eqn:Hs; [contradiction |].
    change (String.concat (String sep "") (""%string :: f :: fs))
      with (String sep (String.concat (String sep "") (f :: fs))).
    rewrite IH. reflexivity.
  - destruct (Str.split sep s) as [| f fs] eqn:Hs; [contradiction |].
    destruct fs as [| f' fs].
    + cbn [String.concat] in *. rewrite IH. reflexivity.
    + change (String.concat (String sep "") (String c f :: f' :: fs))
        with (String c (String.concat (String sep "") (f :: f' :: fs))).
      rewrite IH. reflexivity.
Qed.

Lemma split_length sep s : List.length (Str.split sep s) = S (Str.count sep s).
Proof.
  induction s as [| c s IH]; [reflexivity |].
  simpl. destruct (Ascii.eqb c sep); simpl; [rewrite IH; reflexivity |].
  pose proof (split_not_nil sep s) as Hnil.
  destruct (Str.split sep s) as [| f fs]; [contradiction | exact IH].
Qed.

Lemma split_fields sep s field :
  In field (Str.split sep s) -> Str.contains sep field = false.
Proof.
  revert field. induction s as [| c s IH]; intros field Hin.
  - destruct Hin as [<- | []]. reflexivity.
  - simpl in Hin. destruct (Ascii.eqb c sep) eqn:Hc.
    + destruct Hin as [<- | Hin]; [reflexivity | auto].
    + pose proof (split_not_nil sep s) as Hnil.
      destruct (Str.split sep s) as [| f fs]; [contradiction |].
      destruct Hin as [<- | Hin].
      * simpl. rewrite Hc. apply IH. left; reflexivity.
      * apply IH. right; exact Hin.
Qed.

Lemma split_fields_without c sep s field :
  Str.contains c s = false -> In field (Str.split sep s) -> Str.contains c field = false.
Proof.
  revert field. induction s as [| c' s IH]; intros field Hs Hin.
  - destruct Hin as [<- | []]. reflexivity.
  - simpl in Hs. apply orb_false_elim in Hs. destruct Hs as [Hc Hs].
    simpl in Hin. destruct (Ascii.eqb c' sep).
    + destruct Hin as [<- | Hin]; [reflexivity | auto].
    + pose proof (split_not_nil sep s) as Hnil.
      destruct (Str.split sep s) as [| f fs]; [contradiction |].
      destruct Hin as [<- | Hin].
      * simpl. rewrite Hc. apply IH; [exact Hs | left; reflexivity].
      * apply IH; [exact Hs | right; exact Hin].
Qed.

Lemma replace_removes old s : Str.contains old (Str.replace old "" s) = false.
Proof.
  induction s as [| c s IH]; [reflexivity |].
  simpl. destruct (Ascii.eqb c old) eqn:Hc; simpl; [exact IH |].
  rewrite Hc. exact IH.
Qed.

Lemma replace_count old c s :
  c <> old -> Str.count c (Str.replace old "" s) = Str.count c s.
Proof.
  intros Hne. induction s as [| c' s IH]; [reflexivity |].
  simpl. destruct (Ascii.eqb_spec c' old) as [-> | Hne'].
  - simpl. destruct (Ascii.eqb_spec old c); [congruence | exact IH].
  - simpl. rewrite IH. reflexivity.
Qed.

(** X19.  The extensions [_load_config] stores: joined with commas they
    give back the setting without its dots; there is one more of them than
    the setting has commas (so an empty setting gives one empty extension,
    never an empty list); and none of them contains a dot or a comma.  Blanks
    are kept. *)
Theorem extensions_are_the_comma_separated_fields :
  forall setting,
    String.concat "," (_extensions setting) = Str.replace Str.dot "" setting
    /\ List.length (_extensions setting) = S (Str.count Str.comma setting)
    /\ forall extension, In extension (_extensions setting) ->
         Str.contains Str.dot extension = false
         /\ Str.contains Str.comma extension = false.
Proof.
  intros setting. unfold _extensions. split; [apply split_concat |].
  split; [rewrite split_length, replace_count by discriminate; reflexivity |].
  intros extension Hin. split.
  - eapply split_fields_without; [apply replace_removes | exact Hin].
  - eapply split_fields; exact Hin.
Qed.

Example extensions_of_a_setting :
  _extensions ".jpg,.png, gif,"%string = ["jpg"; "png"; " gif"; ""]%string
  /\ _extensions "" = [""%string].
Proof. split; reflexivity. Qed.

(** ** A playlist that fits the cache *)

Lemma file_bytes_nonneg disk f : 0 <= file_bytes disk f.
Proof.
  unfold file_bytes. destruct (decode disk f) as [[[wd ht] b] |]; [| lia].
  unfold geometry_bytes. nia.
Qed.

Lemma playlist_bytes_nonneg disk l : 0 <= playlist_bytes disk l.
Proof.
  induction l as [| f l IH]; simpl; [lia |].
  pose proof (file_bytes_nonneg disk f). lia.
Qed.

Lemma playlist_bytes_cons disk f l :
  playlist_bytes disk (f :: l) = file_bytes disk f + playlist_bytes disk l.
Proof. reflexivity. Qed.

Lemma playlist_bytes_remove_le disk f l :
  playlist_bytes disk (List.remove string_dec f l) <= playlist_bytes disk l.
Proof.
  induction l as [| g l IH]; [reflexivity |].
  cbn [List.remove]. pose proof (file_bytes_nonneg disk g).
  destruct (string_dec f g); rewrite ?playlist_bytes_cons; lia.
Qed.

Lemma playlist_bytes_remove disk f l :
  In f l ->
  file_bytes disk f + playlist_bytes disk (List.remove string_dec f l)
  <= playlist_bytes disk l.
Proof.
  induction l as [| g l IH]; [intros [] |].
  intros Hin. cbn [List.remove].
  destruct (string_dec f g) as [<- | Hne].
  - pose proof (playlist_bytes_remove_le disk f l).
    rewrite playlist_bytes_cons. lia.
  - destruct Hin as [-> | Hin']; [contradiction Hne; reflexivity |].
    specialize (IH Hin'). rewrite !playlist_bytes_cons. lia.
Qed.

(** Distinct files among [files] take no more bytes than all of [files]. *)
Lemma playlist_bytes_incl disk l files :
  NoDup l -> incl l files -> playlist_bytes disk l <= playlist_bytes disk files.
Proof.
  revert files. induction l as [| f l IH]; intros files Hnd Hincl.
  - apply playlist_bytes_nonneg.
  - inversion Hnd as [| f' l' Hnot Hnd']; subst.
    assert (Hin : In f files) by (apply Hincl; left; reflexivity).
    pose proof (playlist_bytes_remove disk f files Hin) as Hrem.
    assert (Hrest : playlist_bytes disk l
                    <= playlist_bytes disk (List.remove string_dec f files)).
    { apply IH; [exact Hnd' |]. intros x Hx.
      apply in_in_remove; [intros ->; contradiction | apply Hincl; right; exact Hx]. }
    rewrite playlist_bytes_cons. lia.
Qed.

Lemma cache_bytes_playlist disk d :
  (forall k v, In (k, v) d -> decode disk k = Some (surf_w v, surf_h v, surf_bytesize v)) ->
  cache_bytes d = playlist_bytes disk (OrderedDict.keys d).
Proof.
  induction d as [| [k v] d IH]; intros Hm; [reflexivity |].
  change (cache_bytes ((k, v) :: d)) with (_get_image_size v + cache_bytes d).
  change (OrderedDict.keys ((k, v) :: d)) with (k :: OrderedDict.keys d).
  rewrite playlist_bytes_cons, IH by (intros k' v' Hin; apply Hm; right; exact Hin).
  unfold file_bytes. rewrite (Hm k v) by (left; reflexivity). reflexivity.
Qed.

Lemma keys_remove_or k f d :
  In f (OrderedDict.keys d) -> f = k \/ In f (OrderedDict.keys (OrderedDict.remove k d)).
Proof.
  induction d as [| [k0 v0] d IH]; simpl; [intros [] |].
  destruct (String.eqb_spec k k0) as [-> | Hne].
  - intros [<- | Hin]; [left; reflexivity | right; exact Hin].
  - intros [<- | Hin]; [right; left; reflexivity |].
    destruct (IH Hin) as [-> | Hin']; [left; reflexivity | right; right; exact Hin'].
Qed.

Lemma contains_app k d1 d2 :
  OrderedDict.contains k (d1 ++ d2)
  = OrderedDict.contains k d1 || OrderedDict.contains k d2.
Proof. apply existsb_app. Qed.

Lemma contains_promoted f k v d :
  OrderedDict.get k d = Some v ->
  OrderedDict.contains f (OrderedDict.remove k d ++ [(k, v)]) = OrderedDict.contains f d.
Proof.
  intros Hg.
  assert (Hk : In k (OrderedDict.keys d)).
  { apply contains_In, contains_get. eauto. }
  destruct (OrderedDict.contains f d) eqn:Hc.
  - apply contains_In. rewrite keys_app. apply in_or_app.
    apply contains_In in Hc. destruct (keys_remove_or k f d Hc) as [-> | Hin].
    + right. left. reflexivity.
    + left. exact Hin.
  - destruct (OrderedDict.contains f (OrderedDict.remove k d ++ [(k, v)])) eqn:Hc';
      [| reflexivity].
    apply contains_In in Hc'. rewrite keys_app in Hc'. apply in_app_or in Hc'.
    assert (In f (OrderedDict.keys d)).
    { destruct Hc' as [Hin | [<- | []]]; [eapply keys_remove_subset; exact Hin | exact Hk]. }
    apply contains_In in H. congruence.
Qed.

Lemma decoded_after_load f path ok w :
  decoded f (after_load path ok w)
  = (decoded f w + if String.eqb f path then 1 else 0)%nat.
Proof.
  unfold decoded, after_load. cbn [loads]. rewrite count_occ_app. cbn [count_occ].
  destruct (string_dec path f) as [-> | Hne].
  - rewrite String.eqb_refl. reflexivity.
  - destruct (String.eqb_spec f path) as [-> | _]; [contradiction Hne; reflexivity |].
    reflexivity.
Qed.

Lemma fetch_while_playlist_fits disk fuel files path p w :
  In path files -> playlist_fits disk files p ->
  exists r s',
    _load_image disk (S fuel) path (mkState p w) = (r, s')
    /\ r <> OutOfFuel
    /\ playlist_fits disk files (self s')
    /\ (forall f, OrderedDict.contains f (_image_cache p) = true ->
          OrderedDict.contains f (_image_cache (self s')) = true)
    /\ (decode disk path <> None ->
        OrderedDict.contains path (_image_cache (self s')) = true)
    /\ (forall f, decode disk f <> None ->
          (decoded f (world s') + cached f p = decoded f w + cached f (self s'))%nat).
Proof.
  intros Hin (Hnd & Hsum & Hm & Hincl & Hlimit).
  destruct (OrderedDict.contains path (_image_cache p)) eqn:Hc.
  - (* a hit *)
    pose proof Hc as Hc0.
    apply contains_get in Hc. destruct Hc as [v Hv].
    exists (Return v), (mkState (promoted path v p) w).
    split; [apply load_image_hit; assumption |]. split; [discriminate |].
    cbn [self world]. unfold promoted. cbn [_image_cache set_image_cache].
    split; [| split; [| split]].
    + split; [apply append_NoDup; [apply remove_NoDup; exact Hnd
                                  | apply remove_not_contains; exact Hnd] |].
      split.
      { unfold size_is_sum in *. cbn [_image_cache _current_cache_size set_image_cache].
        rewrite cache_bytes_app, (cache_bytes_remove path v) by exact Hv.
        rewrite Hsum. cbn. lia. }
      split; [apply (matches_promoted disk path v p Hm Hv) |].
      split; [| exact Hlimit].
      cbn [_image_cache set_image_cache]. intros f Hf. apply Hincl.
      apply contains_In. rewrite <- (contains_promoted f path v _ Hv). apply contains_In. exact Hf.
    + intros f Hf. rewrite contains_promoted by exact Hv. exact Hf.
    + intros _. rewrite contains_promoted by exact Hv. exact Hc0.
    + intros f _. unfold cached. cbn [_image_cache set_image_cache].
      rewrite contains_promoted by exact Hv. reflexivity.
  - destruct (decode disk path) as [g |] eqn:Hd.
    + (* a miss that decodes: it fits without eviction *)
      assert (Hfit : _current_cache_size p + geometry_bytes g <= _cache_size_limit p).
      { rewrite Hsum, (cache_bytes_playlist disk _ Hm).
        assert (Hle : playlist_bytes disk (path :: OrderedDict.keys (_image_cache p))
                      <= playlist_bytes disk files).
        { apply playlist_bytes_incl.
          - constructor; [| exact Hnd]. intros Hk. apply contains_In in Hk. congruence.
          - intros x [<- | Hx]; [exact Hin | apply Hincl; exact Hx]. }
        rewrite playlist_bytes_cons in Hle. unfold file_bytes at 1 in Hle.
        rewrite Hd in Hle. lia. }
      pose proof (miss_fits disk fuel path p w g Hc Hd Hfit) as Hr. cbv zeta in Hr.
      set (v := mkSurface (next_id w) (fst (fst g)) (snd (fst g)) (snd g)) in *.
      exists (Return v), (mkState (inserted path v p) (after_load path true w)).
      split; [exact Hr |]. split; [discriminate |].
      cbn [self world].
      assert (Hcache : _image_cache (inserted path v p) = _image_cache p ++ [(path, v)]).
      { unfold inserted. cbn [_image_cache set_image_cache set_current_cache_size].
        apply setitem_new. exact Hc. }
      split; [| split; [| split]].
      * split; [rewrite Hcache; apply append_NoDup; assumption |].
        split.
        { unfold size_is_sum. rewrite Hcache, cache_bytes_app.
          unfold inserted. cbn [_current_cache_size set_current_cache_size].
          rewrite Hsum. cbn. lia. }
        split.
        { destruct g as [[wd ht] b]. apply matches_inserted; assumption. }
        split; [| exact Hlimit].
        rewrite Hcache, keys_app. intros f Hf. apply in_app_or in Hf.
        destruct Hf as [Hf | [<- | []]]; [apply Hincl; exact Hf | exact Hin].
      * intros f Hf. rewrite Hcache, contains_app, Hf. reflexivity.
      * intros _. rewrite Hcache, contains_app. cbn. rewrite String.eqb_refl.
        apply orb_true_r.
      * intros f _. rewrite decoded_after_load. unfold cached.
        rewrite Hcache, contains_app. cbn [OrderedDict.contains existsb fst].
        rewrite orb_false_r.
        destruct (String.eqb_spec f path) as [-> | Hne].
        -- rewrite Hc. cbn. lia.
        -- rewrite orb_false_r. lia.
    + (* a miss that does not decode *)
      exists (Raise pygame_error), (mkState p (after_load path false w)).
      split; [apply load_image_miss_error; assumption |]. split; [discriminate |].
      cbn [self world].
      split; [repeat split; assumption |].
      split; [auto |]. split; [intros H; contradiction H; reflexivity |].
      intros f Hf. rewrite decoded_after_load.
      destruct (String.eqb_spec f path) as [-> | Hne]; [contradiction | lia].
Qed.

Lemma fetches_while_playlist_fits disk fuel files paths :
  forall p w,
    incl paths files -> playlist_fits disk files p ->
    exists s',
      run_ops disk (S fuel) (map get_or_load paths) (mkState p w) = Some s'
      /\ playlist_fits disk files (self s')
      /\ (forall f, OrderedDict.contains f (_image_cache p) = true ->
            OrderedDict.contains f (_image_cache (self s')) = true)
      /\ (forall f, In f paths -> decode disk f <> None ->
            OrderedDict.contains f (_image_cache (self s')) = true)
      /\ (forall f, decode disk f <> None ->
            (decoded f (world s') + cached f p = decoded f w + cached f (self s'))%nat).
Proof.
  induction paths as [| path paths IH]; intros p w Hincl Hfits.
  - exists (mkState p w). split; [reflexivity |]. split; [exact Hfits |].
    split; [auto |]. split; [intros f [] |]. intros f _. reflexivity.
  - destruct (fetch_while_playlist_fits disk fuel files path p w) as
      (r & [p1 w1] & Hr & Hfuel & Hfits1 & Hmono1 & Hin1 & Hdec1);
      [apply Hincl; left; reflexivity | exact Hfits |].
    cbn [self world] in *.
    destruct (IH p1 w1) as (s' & Hrun & Hfits' & Hmono' & Hin' & Hdec');
      [intros x Hx; apply Hincl; right; exact Hx | exact Hfits1 |].
    exists s'. split; [| split; [exact Hfits' | split; [| split]]].
    + cbn [map run_ops run_op]. unfold bind. rewrite Hr.
      destruct r as [v | e |]; [exact Hrun | exact Hrun | contradiction Hfuel; reflexivity].
    + intros f Hf. apply Hmono', Hmono1, Hf.
    + intros f [<- | Hf] Hd; [apply Hmono', Hin1, Hd | apply Hin'; assumption].
    + intros f Hd. specialize (Hdec1 f Hd). specialize (Hdec' f Hd). lia.
Qed.

(** X5.  When the files of a playlist fit the cache limit together (the
    sum of their decoded sizes, a file that does not decode counting 0), then
    starting from an empty cache no fetch ever evicts: any sequence of
    fetches of these files completes with one unit of fuel per fetch, every
    fetched file that decodes ends up cached, and the decoder has been handed
    it exactly once. *)
Theorem playlist_that_fits_is_decoded_once :
  forall disk fuel files paths p w,
    _image_cache p = [] -> _current_cache_size p = 0 ->
    incl paths files ->
    playlist_bytes disk files <= _cache_size_limit p ->
    (1 <= fuel)%nat ->
    exists s',
      run_ops disk fuel (map get_or_load paths) (mkState p w) = Some s'
      /\ forall f, In f paths -> decode disk f <> None ->
           OrderedDict.contains f (_image_cache (self s')) = true
           /\ decoded f (world s') = S (decoded f w).
Proof.
  intros disk fuel files paths p w Hempty Hzero Hincl Hlimit Hfuel.
  destruct fuel as [| fuel]; [lia |].
  destruct (fetches_while_playlist_fits disk fuel files paths p w Hincl)
    as (s' & Hrun & _ & _ & Hin & Hdec).
  - unfold playlist_fits, size_is_sum, cache_matches_disk. rewrite Hempty, Hzero.
    split; [constructor |]. split; [reflexivity |]. split; [intros k v [] |].
    split; [intros x [] | exact Hlimit].
  - exists s'. split; [exact Hrun |]. intros f Hf Hd.
    specialize (Hin f Hf Hd). specialize (Hdec f Hd).
    split; [exact Hin |]. unfold cached in Hdec. rewrite Hempty, Hin in Hdec.
    cbn in Hdec. lia.
Qed.

Lemma playlist_that_fits_is_decoded_once_witness :
  exists s',
    run_ops demo_disk 1
      (map get_or_load ["a.png"; "b.png"; "c.png"; "a.png"; "b.png"; "c.png"; "a.png"]%string)
      (mkState (demo_player 2 true true) fresh_world) = Some s'
    /\ forall f, In f ["a.png"; "b.png"; "c.png"; "a.png"; "b.png"; "c.png"; "a.png"]%string ->
         decode demo_disk f <> None ->
         OrderedDict.contains f (_image_cache (self s')) = true
         /\ decoded f (world s') = S (decoded f fresh_world).
Proof.
  apply (playlist_that_fits_is_decoded_once demo_disk 1 ["a.png"; "b.png"; "c.png"]%string
           ["a.png"; "b.png"; "c.png"; "a.png"; "b.png"; "c.png"; "a.png"]%string
           (demo_player 2 true true) fresh_world).
  - reflexivity.
  - reflexivity.
  - intros x Hx. simpl in *. intuition.
  - vm_compute. discriminate.
  - lia.
Defined.

(** ** Relative rounding errors *)

Lemma bpow_52 : (bpow (-52) * IZR (2 ^ 52) = 1)%R.
Proof.
  rewrite <- (bpow_IZR 52) by lia. rewrite <- bpow_add. reflexivity.
Qed.

Lemma F2R_succ m e : F2R (m + 1) e = (F2R m e + bpow e)%R.
Proof. unfold F2R. rewrite plus_IZR. ring. Qed.

(** Rounding a bracketed real in the normal range: the relative error. *)
Lemma binary_round_aux_close m e l X :
  2 ^ 52 <= m -> -1074 <= e -> e + (Zdigits2 m - 53) + 1 <= 971 ->
  (F2R m e <= X < F2R (m + 1) e)%R ->
  exists mr er,
    binary_round_aux 53 1024 false m e l = S754_finite false mr er
    /\ digits2_pos mr = 53%positive
    /\ e + (Zdigits2 m - 53) <= er <= e + (Zdigits2 m - 53) + 1
    /\ close_to X (F2R (Zpos mr) er).
Proof.
  intros Hm He Hmax [HXlo HXhi].
  destruct (binary_round_aux_normal m e l Hm He Hmax) as (mr & er & Heq & Hdig & Her & Hv).
  pose proof (normal_quotient m Hm) as [[Hqlo Hqhi] [Hq1 Hq2]].
  pose proof (Zdigits2_normal m Hm) as Hd.
  set (n := Zdigits2 m - 53) in *.
  set (m' := m / 2 ^ n) in *.
  assert (Hlo : (F2R m' (e + n) <= F2R m e)%R).
  { rewrite <- F2R_shift by lia. apply F2R_le. exact Hq1. }
  assert (Hhi : (F2R (m + 1) e <= F2R (m' + 1) (e + n))%R).
  { rewrite <- F2R_shift by lia. apply F2R_le. lia. }
  exists mr, er. split; [exact Heq |]. split; [exact Hdig |]. split; [exact Her |].
  rewrite (F2R_succ m') in Hhi.
  pose proof (bpow_pos (e + n)) as Hu.
  pose proof (bpow_pos (-52)) as He52.
  assert (Hulp : (bpow (e + n) <= F2R m' (e + n) * bpow (-52))%R).
  { unfold F2R.
    assert (Hm52 : (IZR (2 ^ 52) <= IZR m')%R) by (apply IZR_le; exact Hqlo).
    pose proof bpow_52 as H52.
    set (c := IZR (2 ^ 52)) in *.
    replace (bpow (e + n)) with (bpow (e + n) * (bpow (-52) * c))%R at 1
      by (rewrite H52; ring).
    replace (IZR m' * bpow (e + n) * bpow (-52))%R
      with (bpow (e + n) * (bpow (-52) * IZR m'))%R by ring.
    apply Rmult_le_compat_l; [lra |]. apply Rmult_le_compat_l; lra. }
  assert (Hd0 : (0 < F2R m' (e + n))%R).
  { unfold F2R. apply Rmult_lt_0_compat; [apply IZR_lt; lia | exact Hu]. }
  assert (HX : (F2R m' (e + n) * bpow (-52) <= X * bpow (-52))%R).
  { apply Rmult_le_compat_r; lra. }
  unfold close_to.
  assert (Hr : F2R (Zpos mr) er = F2R m' (e + n)
               \/ F2R (Zpos mr) er = (F2R m' (e + n) + bpow (e + n))%R).
  { destruct Hv as [-> | [-> _]]; [left; reflexivity | right; apply F2R_succ]. }
  destruct Hr as [-> | ->]; lra.
Qed.

(** Division of two normal doubles: the quotient of the mantissas brackets
    the exact quotient. *)
Lemma fdiv_bracket mx ex my ey :
  digits2_pos mx = 53%positive -> digits2_pos my = 53%positive ->
  -1021 <= ex - ey <= 1022 ->
  exists q l,
    Py.fdiv (S754_finite false mx ex) (S754_finite false my ey)
    = binary_round_aux 53 1024 false q (ex - ey - 53) l
    /\ 2 ^ 52 <= q < 2 ^ 54
    /\ (F2R q (ex - ey - 53) <= F2R (Zpos mx) ex / F2R (Zpos my) ey
        < F2R (q + 1) (ex - ey - 53))%R.
Proof.
  intros Hdx Hdy He.
  pose proof (digits_53_bounds mx Hdx) as [Hxlo Hxhi].
  pose proof (digits_53_bounds my Hdy) as [Hylo Hyhi].
  unfold Py.fdiv, SFdiv, SFdiv_core_binary. simpl Zdigits2. rewrite Hdx, Hdy.
  replace (Z.min (fexp Py.prec Py.emax (53 + ex - (53 + ey))) (ex - ey))
    with (ex - ey - 53) by (unfold fexp, emin, Py.prec, Py.emax; lia).
  replace (ex - ey - (ex - ey - 53)) with 53 by lia.
  change (IntDef.Z.shiftl (Zpos mx) 53) with (Z.shiftl (Zpos mx) 53).
  change IntDef.Z.div_eucl with Z.div_eucl.
  rewrite Z.shiftl_mul_pow2 by lia.
  pose proof (Z_div_mod (Zpos mx * 2 ^ 53) (Zpos my) ltac:(lia)) as Hdm.
  destruct (Z.div_eucl (Zpos mx * 2 ^ 53) (Zpos my)) as [q r].
  destruct Hdm as [Hq Hr].
  assert (Hqb : 2 ^ 52 <= q < 2 ^ 54).
  { change (2 ^ 52) with 4503599627370496 in *.
    change (2 ^ 53) with 9007199254740992 in *.
    change (2 ^ 54) with 18014398509481984. nia. }
  exists q, (new_location (Zpos my) r).
  split; [reflexivity |]. split; [exact Hqb |].
  set (X := (F2R (Zpos mx) ex / F2R (Zpos my) ey)%R).
  assert (HX : X = (IZR (Zpos mx * 2 ^ 53) * bpow (ex - ey - 53) / IZR (Zpos my))%R).
  { unfold X, F2R. replace ex with (ey + 53 + (ex - ey - 53)) at 1 by lia.
    rewrite !bpow_add, (bpow_IZR 53), mult_IZR by lia.
    pose proof (bpow_pos ey). assert (0 < IZR (Zpos my))%R by (apply IZR_lt; lia).
    field. split; lra. }
  assert (Hmy : (0 < IZR (Zpos my))%R) by (apply IZR_lt; lia).
  pose proof (bpow_pos (ex - ey - 53)) as HB.
  split.
  - rewrite HX. unfold F2R. apply Rmult_le_reg_r with (IZR (Zpos my)); [exact Hmy |].
    replace (IZR (Zpos mx * 2 ^ 53) * bpow (ex - ey - 53) / IZR (Zpos my) * IZR (Zpos my))%R
      with (IZR (Zpos mx * 2 ^ 53) * bpow (ex - ey - 53))%R by (field; lra).
    rewrite Hq, plus_IZR, mult_IZR.
    assert (0 <= IZR r)%R by (apply IZR_le; lia). nra.
  - rewrite HX. unfold F2R. apply Rmult_lt_reg_r with (IZR (Zpos my)); [exact Hmy |].
    replace (IZR (Zpos mx * 2 ^ 53) * bpow (ex - ey - 53) / IZR (Zpos my) * IZR (Zpos my))%R
      with (IZR (Zpos mx * 2 ^ 53) * bpow (ex - ey - 53))%R by (field; lra).
    rewrite Hq, !plus_IZR, mult_IZR.
    assert (IZR r < IZR (Zpos my))%R by (apply IZR_lt; lia). nra.
Qed.

Lemma digits_54 q : 2 ^ 52 <= q < 2 ^ 54 -> 53 <= Zdigits2 q <= 54.
Proof.
  intros Hqb. split; [apply Zdigits2_normal; lia |].
  destruct (Z_lt_le_dec 54 (Zdigits2 q)) as [Hgt | Hle]; [| exact Hle].
  pose proof (Zdigits2_bounds q ltac:(lia)) as [Hlo _].
  assert (2 ^ 54 <= 2 ^ (Zdigits2 q - 1)) by (apply Z.pow_le_mono_r; lia). lia.
Qed.

(** Division of two normal doubles: the relative error. *)
Lemma fdiv_close x mx ex y my ey :
  normal x mx ex -> normal y my ey -> -1021 <= ex - ey <= 1022 ->
  exists mr er,
    normal (Py.fdiv x y) mr er
    /\ ex - ey - 53 <= er <= ex - ey - 51
    /\ close_to (F2R (Zpos mx) ex / F2R (Zpos my) ey) (F2R (Zpos mr) er).
Proof.
  intros [-> Hdx] [-> Hdy] He.
  destruct (fdiv_bracket mx ex my ey Hdx Hdy He) as (q & l & Heq & Hqb & HX).
  pose proof (digits_54 q Hqb) as Hdq.
  destruct (binary_round_aux_close q (ex - ey - 53) l _ ltac:(lia) ltac:(lia) ltac:(lia) HX)
    as (mr & er & Hr & Hdig & Her & Hclose).
  exists mr, er. rewrite Heq.
  split; [split; [exact Hr | exact Hdig] |]. split; [lia | exact Hclose].
Qed.

(** Multiplication of two normal doubles: the relative error. *)
Lemma fmul_close x mx ex y my ey :
  normal x mx ex -> normal y my ey -> -1074 <= ex + ey <= 900 ->
  exists mr er,
    normal (Py.fmul x y) mr er
    /\ close_to (F2R (Zpos mx) ex * F2R (Zpos my) ey) (F2R (Zpos mr) er).
Proof.
  intros [-> Hdx] [-> Hdy] He.
  pose proof (digits_53_bounds mx Hdx) as [Hxlo Hxhi].
  pose proof (digits_53_bounds my Hdy) as [Hylo Hyhi].
  unfold Py.fmul, SFmul.
  change (Zpos (PosDef.Pos.mul mx my)) with (Zpos mx * Zpos my).
  set (m := Zpos mx * Zpos my).
  assert (Hm : 2 ^ 104 <= m < 2 ^ 106).
  { unfold m. change (2 ^ 52) with 4503599627370496 in *.
    change (2 ^ 53) with 9007199254740992 in *.
    change (2 ^ 104) with (4503599627370496 * 4503599627370496).
    change (2 ^ 106) with (9007199254740992 * 9007199254740992). nia. }
  assert (Hdm : 105 <= Zdigits2 m <= 106).
  { pose proof (Zdigits2_bounds m ltac:(lia)) as [Hlo Hhi]. split.
    - destruct (Z_lt_le_dec (Zdigits2 m) 105) as [Hlt | Hle]; [| exact Hle].
      assert (2 ^ Zdigits2 m <= 2 ^ 104).
      { apply Z.pow_le_mono_r; [lia |]. lia. }
      lia.
    - destruct (Z_lt_le_dec 106 (Zdigits2 m)) as [Hgt | Hle]; [| exact Hle].
      assert (2 ^ 106 <= 2 ^ (Zdigits2 m - 1)) by (apply Z.pow_le_mono_r; lia). lia. }
  set (X := (F2R (Zpos mx) ex * F2R (Zpos my) ey)%R).
  assert (HX : X = F2R m (ex + ey)).
  { unfold X, m, F2R. rewrite mult_IZR, bpow_add. ring. }
  destruct (binary_round_aux_close m (ex + ey) loc_Exact X)
    as (mr & er & Heq & Hdig & Her & Hclose).
  - assert (2 ^ 52 <= 2 ^ 104) by (apply Z.pow_le_mono_r; lia). lia.
  - lia.
  - lia.
  - rewrite HX. split; [lra | apply F2R_lt; lia].
  - exists mr, er. split; [split; [exact Heq | exact Hdig] | exact Hclose].
Qed.

(** [a / b] on two positive ints below 2^53: the relative error. *)
Lemma int_truediv_close a b :
  0 < a < 2 ^ 53 -> 0 < b < 2 ^ 53 ->
  exists q m e,
    Py.int_truediv a b = inr q /\ normal q m e /\ -106 <= e <= 2
    /\ close_to (IZR a / IZR b) (F2R (Zpos m) e).
Proof.
  intros Ha Hb.
  destruct (Z2F_exact a Ha) as (ma & ea & Hna & Hea & Hva).
  destruct (Z2F_exact b Hb) as (mb & eb & Hnb & Heb & Hvb).
  destruct (fdiv_close _ ma ea _ mb eb Hna Hnb ltac:(lia))
    as (mr & er & Hn & Her & Hclose).
  exists (Py.fdiv (Py.Z2F a) (Py.Z2F b)), mr, er.
  rewrite int_truediv_small by lia.
  destruct Hn as [Hq Hdig]. rewrite Hq.
  split; [reflexivity |]. split; [split; [reflexivity | exact Hdig] |].
  split; [lia |]. rewrite <- Hva, <- Hvb. exact Hclose.
Qed.

(** [int(x)] is the floor of a positive [x]. *)
Lemma int_of_float_floor m e :
  exists z, Py.int_of_float (S754_finite false m e) = inr z
            /\ (IZR z <= F2R (Zpos m) e < IZR z + 1)%R /\ 0 <= z.
Proof.
  unfold Py.int_of_float, cond_Zopp. eexists. split; [reflexivity |].
  change (IntDef.Z.shiftl (Zpos m) e) with (Z.shiftl (Zpos m) e).
  destruct (Z_lt_le_dec e 0) as [Hneg | Hpos].
  - rewrite Z.shiftl_div_pow2 by lia.
    assert (Hp : 0 < 2 ^ (- e)) by (apply Z.pow_pos_nonneg; lia).
    split; [| apply Z.div_pos; lia].
    rewrite <- plus_IZR. rewrite <- !F2R_0.
    replace 0 with (e + - e) by lia.
    rewrite <- !F2R_shift by lia. split.
    + apply F2R_le. rewrite Z.mul_comm. apply Z.mul_div_le. exact Hp.
    + apply F2R_lt. pose proof (Z.mul_succ_div_gt (Zpos m) (2 ^ (- e)) Hp). nia.
  - rewrite Z.shiftl_mul_pow2 by lia.
    split; [| pose proof (Z.pow_pos_nonneg 2 e); nia].
    rewrite <- F2R_0, F2R_shift by lia. rewrite Z.add_0_l. lra.
Qed.

Lemma bpow_52_small : (0 < bpow (-52) /\ bpow (-52) * 4503599627370496 = 1)%R.
Proof.
  split; [apply bpow_pos |]. pose proof bpow_52 as H.
  change (2 ^ 52) with 4503599627370496 in H. exact H.
Qed.

(** The floor of a real within 2^-50 (relative) of [T / d]. *)
Lemma floor_within_pixel T d z q :
  0 < d -> 0 <= T -> T < 2 ^ 50 ->
  (IZR T / IZR d * (1 - 4 * bpow (-52)) <= q <= IZR T / IZR d * (1 + 4 * bpow (-52)))%R ->
  (IZR z <= q < IZR z + 1)%R ->
  T / d - 1 <= z <= T / d /\ (T mod d <> 0 -> z = T / d).
Proof.
  intros Hd HT0 HT [Hlo Hhi] [Hzlo Hzhi].
  destruct bpow_52_small as [He0 He].
  set (eps := bpow (-52)) in *.
  pose proof (Z_div_mod_eq_full T d) as Hdiv.
  pose proof (Z.mod_pos_bound T d Hd) as Hmod.
  set (F := T / d) in *. set (rho := T mod d) in *.
  assert (HdR : (0 < IZR d)%R) by (apply IZR_lt; exact Hd).
  assert (HTR : (0 <= IZR T < 1125899906842624)%R).
  { split; [apply IZR_le; exact HT0 |].
    change 1125899906842624%R with (IZR (2 ^ 50)). apply IZR_lt; exact HT. }
  assert (HTeps : (IZR T * (4 * eps) < 1)%R) by nra.
  assert (Hq : (IZR T - 1 < q * IZR d < IZR T + 1)%R).
  { assert (HE : (IZR T / IZR d * IZR d = IZR T)%R) by (field; lra).
    assert (H1 : (IZR T / IZR d * (1 - 4 * eps) * IZR d <= q * IZR d)%R)
      by (apply Rmult_le_compat_r; lra).
    assert (H2 : (q * IZR d <= IZR T / IZR d * (1 + 4 * eps) * IZR d)%R)
      by (apply Rmult_le_compat_r; lra).
    replace (IZR T / IZR d * (1 - 4 * eps) * IZR d)%R
      with (IZR T / IZR d * IZR d * (1 - 4 * eps))%R in H1 by ring.
    replace (IZR T / IZR d * (1 + 4 * eps) * IZR d)%R
      with (IZR T / IZR d * IZR d * (1 + 4 * eps))%R in H2 by ring.
    rewrite HE in H1, H2. lra. }
  assert (HTd : IZR T = (IZR d * IZR F + IZR rho)%R).
  { rewrite <- mult_IZR, <- plus_IZR. f_equal. exact Hdiv. }
  assert (Hrho : (0 <= IZR rho <= IZR d - 1)%R).
  { split; [apply IZR_le; lia |]. rewrite <- minus_IZR. apply IZR_le. lia. }
  assert (Hup : (IZR z < IZR (F + 1))%R).
  { rewrite plus_IZR.
    apply Rmult_lt_reg_r with (IZR d); [exact HdR |]. nra. }
  assert (Hdown : (IZR (F - 2) < IZR z)%R).
  { rewrite minus_IZR.
    apply Rmult_lt_reg_r with (IZR d); [exact HdR |]. nra. }
  apply lt_IZR in Hup. apply lt_IZR in Hdown.
  split; [lia |]. intros Hne.
  assert (Hrho1 : (1 <= IZR rho)%R) by (apply IZR_le; lia).
  assert (Hdown' : (IZR (F - 1) < IZR z)%R).
  { rewrite minus_IZR.
    apply Rmult_lt_reg_r with (IZR d); [exact HdR |]. nra. }
  apply lt_IZR in Hdown'. lia.
Qed.

(** Dividing by a rounded ratio and rounding again. *)
Lemma close_div S A pa q :
  (0 < S)%R -> (0 < A)%R ->
  close_to A pa -> close_to (S / pa) q ->
  (S / A * (1 - 4 * bpow (-52)) <= q <= S / A * (1 + 4 * bpow (-52)))%R.
Proof.
  intros HS HA [Hplo Hphi] [Hqlo Hqhi].
  destruct bpow_52_small as [He0 He].
  set (eps := bpow (-52)) in *.
  assert (Heps : (eps < 1 / 8)%R) by nra.
  assert (Hpa : (0 < pa)%R) by nra.
  set (u := (S / A)%R) in *. set (v := (S / pa)%R) in *.
  assert (Hu : (u * A = S)%R) by (unfold u; field; lra).
  assert (Hv : (v * pa = S)%R) by (unfold v; field; lra).
  assert (Hu0 : (0 < u)%R) by (unfold u; apply Rdiv_lt_0_compat; assumption).
  assert (Hv0 : (0 < v)%R) by (unfold v; apply Rdiv_lt_0_compat; assumption).
  assert (Hv1 : (v * (1 - eps) <= u)%R).
  { apply Rmult_le_reg_r with A; [exact HA |]. nra. }
  assert (Hv2 : (u <= v * (1 + eps))%R).
  { apply Rmult_le_reg_r with A; [exact HA |]. nra. }
  split.
  - apply Rle_trans with (v * (1 - eps))%R; [| exact Hqlo]. nra.
  - apply Rle_trans with (v * (1 + eps))%R; [exact Hqhi |].
    apply Rmult_le_reg_r with (1 - eps)%R; [lra |]. nra.
Qed.

(** Multiplying by a rounded ratio and rounding again. *)
Lemma close_mul S A pa q :
  (0 < S)%R -> (0 < A)%R ->
  close_to A pa -> close_to (S * pa) q ->
  (S * A * (1 - 4 * bpow (-52)) <= q <= S * A * (1 + 4 * bpow (-52)))%R.
Proof.
  intros HS HA [Hplo Hphi] [Hqlo Hqhi].
  destruct bpow_52_small as [He0 He].
  set (eps := bpow (-52)) in *.
  assert (Heps : (eps < 1 / 8)%R) by nra.
  assert (Hpa : (0 < pa)%R) by nra.
  assert (HSA : (0 < S * A)%R) by (apply Rmult_lt_0_compat; assumption).
  assert (H1 : (S * (A * (1 - eps)) <= S * pa)%R) by (apply Rmult_le_compat_l; lra).
  assert (H2 : (S * pa <= S * (A * (1 + eps)))%R) by (apply Rmult_le_compat_l; lra).
  split.
  - apply Rle_trans with (S * pa * (1 - eps))%R; [| exact Hqlo].
    apply Rle_trans with (S * (A * (1 - eps)) * (1 - eps))%R;
      [| apply Rmult_le_compat_r; lra].
    nra.
  - apply Rle_trans with (S * pa * (1 + eps))%R; [exact Hqhi |].
    apply Rle_trans with (S * (A * (1 + eps)) * (1 + eps))%R;
      [apply Rmult_le_compat_r; lra |].
    nra.
Qed.

Lemma below_2_25 a b : 0 < a < 2 ^ 25 -> 0 < b < 2 ^ 25 -> 0 < a * b < 2 ^ 50.
Proof.
  change (2 ^ 25) with 33554432. change (2 ^ 50) with (33554432 * 33554432). nia.
Qed.

Lemma below_2_53 a : 0 < a < 2 ^ 25 -> 0 < a < 2 ^ 53.
Proof. change (2 ^ 25) with 33554432. change (2 ^ 53) with 9007199254740992. lia. Qed.

(** Width-bound: the scaled height is the exact proportional height rounded
    down, or one less. *)
Lemma width_bound_pixel sw iw ih pa q nh :
  0 < sw < 2 ^ 25 -> 0 < iw < 2 ^ 25 -> 0 < ih < 2 ^ 25 ->
  Py.int_truediv iw ih = inr pa ->
  Py.int_div_float sw pa = inr q -> Py.int_of_float q = inr nh ->
  sw * ih / iw - 1 <= nh <= sw * ih / iw
  /\ ((sw * ih) mod iw <> 0 -> nh = sw * ih / iw).
Proof.
  intros Hsw Hiw Hih Hpa Hq Hnh.
  destruct (int_truediv_close iw ih (below_2_53 _ Hiw) (below_2_53 _ Hih))
    as (pa' & mp & ep & Hpa' & Hnp & Hep & Hcp).
  rewrite Hpa in Hpa'. injection Hpa' as <-.
  destruct (Z2F_exact sw (below_2_53 _ Hsw)) as (mw & ew & Hnw & Hew & Hvw).
  unfold Py.int_div_float, Py.float_of_int in Hq.
  destruct Hnw as [Hzw Hdw]. rewrite Hzw in Hq.
  destruct Hnp as [Hp Hdp]. subst pa.
  assert (Hq' : @inr exn _ (Py.fdiv (S754_finite false mw ew) (S754_finite false mp ep))
                = inr q) by exact Hq.
  clear Hq. injection Hq' as <-.
  destruct (fdiv_close (S754_finite false mw ew) mw ew (S754_finite false mp ep) mp ep)
    as (mq & eq & [Hq Hdq] & Heq & Hcq); [split; auto | split; auto | lia |].
  change (Py.int_of_float (Py.fdiv (S754_finite false mw ew) (S754_finite false mp ep))
          = inr nh) in Hnh.
  rewrite Hq in Hnh.
  destruct (int_of_float_floor mq eq) as (z & Hz & Hzq & Hz0).
  rewrite Hz in Hnh. injection Hnh as <-.
  rewrite Hvw in Hcq.
  assert (Hswr : (0 < IZR sw)%R) by (apply IZR_lt; lia).
  assert (Hiwr : (0 < IZR iw)%R) by (apply IZR_lt; lia).
  assert (Hihr : (0 < IZR ih)%R) by (apply IZR_lt; lia).
  pose proof (close_div (IZR sw) (IZR iw / IZR ih) _ _ Hswr
                (Rdiv_lt_0_compat _ _ Hiwr Hihr) Hcp Hcq) as Hbound.
  replace (IZR sw / (IZR iw / IZR ih))%R with (IZR (sw * ih) / IZR iw)%R in Hbound
    by (rewrite mult_IZR; field; lra).
  pose proof (below_2_25 sw ih Hsw Hih) as HT.
  apply (floor_within_pixel (sw * ih) iw z _ ltac:(lia) ltac:(lia) ltac:(lia) Hbound Hzq).
Qed.

(** Height-bound: the scaled width is the exact proportional width rounded
    down, or one less. *)
Lemma height_bound_pixel sh iw ih pa q nw :
  0 < sh < 2 ^ 25 -> 0 < iw < 2 ^ 25 -> 0 < ih < 2 ^ 25 ->
  Py.int_truediv iw ih = inr pa ->
  Py.int_mul_float sh pa = inr q -> Py.int_of_float q = inr nw ->
  sh * iw / ih - 1 <= nw <= sh * iw / ih
  /\ ((sh * iw) mod ih <> 0 -> nw = sh * iw / ih).
Proof.
  intros Hsh Hiw Hih Hpa Hq Hnw.
  destruct (int_truediv_close iw ih (below_2_53 _ Hiw) (below_2_53 _ Hih))
    as (pa' & mp & ep & Hpa' & Hnp & Hep & Hcp).
  rewrite Hpa in Hpa'. injection Hpa' as <-.
  destruct (Z2F_exact sh (below_2_53 _ Hsh)) as (mh & eh & Hnh & Heh & Hvh).
  unfold Py.int_mul_float, Py.float_of_int in Hq.
  destruct Hnh as [Hzh Hdh]. rewrite Hzh in Hq.
  destruct Hnp as [Hp Hdp]. subst pa.
  assert (Hq' : @inr exn _ (Py.fmul (S754_finite false mh eh) (S754_finite false mp ep))
                = inr q) by exact Hq.
  clear Hq. injection Hq' as <-.
  destruct (fmul_close (S754_finite false mh eh) mh eh (S754_finite false mp ep) mp ep)
    as (mq & eq & [Hq Hdq] & Hcq); [split; auto | split; auto | lia |].
  change (Py.int_of_float (Py.fmul (S754_finite false mh eh) (S754_finite false mp ep))
          = inr nw) in Hnw.
  rewrite Hq in Hnw.
  destruct (int_of_float_floor mq eq) as (z & Hz & Hzq & Hz0).
  rewrite Hz in Hnw. injection Hnw as <-.
  rewrite Hvh in Hcq.
  assert (Hshr : (0 < IZR sh)%R) by (apply IZR_lt; lia).
  assert (Hiwr : (0 < IZR iw)%R) by (apply IZR_lt; lia).
  assert (Hihr : (0 < IZR ih)%R) by (apply IZR_lt; lia).
  pose proof (close_mul (IZR sh) (IZR iw / IZR ih) _ _ Hshr
                (Rdiv_lt_0_compat _ _ Hiwr Hihr) Hcp Hcq) as Hbound.
  replace (IZR sh * (IZR iw / IZR ih))%R with (IZR (sh * iw) / IZR ih)%R in Hbound
    by (rewrite mult_IZR; field; lra).
  pose proof (below_2_25 sh iw Hsh Hiw) as HT.
  apply (floor_within_pixel (sh * iw) ih z _ ltac:(lia) ltac:(lia) ltac:(lia) Hbound Hzq).
Qed.

(** Below 2^25 the rounded aspect ratios compare as the exact ones. *)
Lemma aspect_order a b c d x y :
  0 < a < 2 ^ 25 -> 0 < b < 2 ^ 25 -> 0 < c < 2 ^ 25 -> 0 < d < 2 ^ 25 ->
  Py.int_truediv a b = inr x -> Py.int_truediv c d = inr y ->
  a * d < c * b -> Py.flt x y = true.
Proof.
  intros Ha Hb Hc Hd Hx Hy Hlt.
  destruct (int_truediv_close a b (below_2_53 _ Ha) (below_2_53 _ Hb))
    as (x' & mx & ex & Hx' & Hnx & Hex & [_ Hcx]).
  rewrite Hx in Hx'. injection Hx' as <-.
  destruct (int_truediv_close c d (below_2_53 _ Hc) (below_2_53 _ Hd))
    as (y' & my & ey & Hy' & Hny & Hey & [Hcy _]).
  rewrite Hy in Hy'. injection Hy' as <-.
  apply (flt_normal x mx ex y my ey Hnx Hny).
  destruct bpow_52_small as [He0 He].
  set (eps := bpow (-52)) in *.
  assert (Har : (0 < IZR a)%R) by (apply IZR_lt; lia).
  assert (Hbr : (0 < IZR b)%R) by (apply IZR_lt; lia).
  assert (Hcr : (0 < IZR c)%R) by (apply IZR_lt; lia).
  assert (Hdr : (0 < IZR d)%R) by (apply IZR_lt; lia).
  pose proof (below_2_25 a d Ha Hd) as [_ Had].
  pose proof (below_2_25 c b Hc Hb) as [_ Hcb].
  assert (Hadr : (IZR a * IZR d < 1125899906842624)%R).
  { rewrite <- mult_IZR. change 1125899906842624%R with (IZR (2 ^ 50)). apply IZR_lt; exact Had. }
  assert (Hcbr : (IZR c * IZR b < 1125899906842624)%R).
  { rewrite <- mult_IZR. change 1125899906842624%R with (IZR (2 ^ 50)). apply IZR_lt; exact Hcb. }
  assert (Hgap : (IZR a * IZR d + 1 <= IZR c * IZR b)%R).
  { rewrite <- !mult_IZR. rewrite <- plus_IZR. apply IZR_le. lia. }
  apply Rle_lt_trans with (IZR a / IZR b * (1 + eps))%R; [exact Hcx |].
  apply Rlt_le_trans with (IZR c / IZR d * (1 - eps))%R; [| exact Hcy].
  apply Rmult_lt_reg_r with (IZR b * IZR d)%R; [apply Rmult_lt_0_compat; assumption |].
  replace (IZR a / IZR b * (1 + eps) * (IZR b * IZR d))%R
    with (IZR a * IZR d * (1 + eps))%R by (field; lra).
  replace (IZR c / IZR d * (1 - eps) * (IZR b * IZR d))%R
    with (IZR c * IZR b * (1 - eps))%R by (field; lra).
  nra.
Qed.

(** ** The rounded quotient depends on the ratio only *)

(** One shift to the right keeps track of where the value lies. *)
Lemma shr_1_located Y m l :
  0 < m -> located Y m l ->
  located (Y / 2) (m / 2) (loc_of_shr_record (shr_1 (shr_record_of_loc m l)))
  /\ shr_m (shr_1 (shr_record_of_loc m l)) = m / 2.
Proof.
  intros Hm Hloc.
  destruct m as [| p |]; try lia.
  destruct p as [p | p |].
  - (* odd *)
    assert (Hdiv : Z.pos p~1 / 2 = Z.pos p).
    { rewrite Pos2Z.inj_xI. symmetry. apply (Z.div_unique _ 2 _ 1); lia. }
    rewrite Hdiv.
    assert (Hval : IZR (Z.pos p~1) = (2 * IZR (Z.pos p) + 1)%R).
    { rewrite Pos2Z.inj_xI, plus_IZR, mult_IZR. reflexivity. }
    unfold located in Hloc. rewrite Hval in Hloc.
    destruct l as [| []]; simpl; split; try reflexivity; simpl in Hloc; lra.
  - (* even *)
    assert (Hdiv : Z.pos p~0 / 2 = Z.pos p).
    { rewrite Pos2Z.inj_xO. symmetry. apply (Z.div_unique _ 2 _ 0); lia. }
    rewrite Hdiv.
    assert (Hval : IZR (Z.pos p~0) = (2 * IZR (Z.pos p))%R).
    { rewrite Pos2Z.inj_xO, mult_IZR. reflexivity. }
    unfold located in Hloc. rewrite Hval in Hloc.
    destruct l as [| []]; simpl; split; try reflexivity; simpl in Hloc; lra.
  - change (1 / 2) with 0.
    unfold located in Hloc.
    destruct l as [| []]; simpl; split; try reflexivity; simpl in Hloc; lra.
Qed.

Lemma bpow_m1 : bpow (-1) = (/ 2)%R.
Proof. unfold bpow. simpl. lra. Qed.

Lemma bpow_0 : bpow 0 = 1%R.
Proof. reflexivity. Qed.

Lemma binary_round_aux_located q e l Y :
  2 ^ 52 <= q < 2 ^ 54 -> -1074 <= e ->
  located Y q l ->
  exists m' e' l',
    binary_round_aux 53 1024 false q e l = round_located m' e' l'
    /\ 2 ^ 52 <= m' < 2 ^ 53
    /\ located (Y * bpow (e - e')) m' l'.
Proof.
  intros Hq He Hloc.
  pose proof (digits_54 q Hq) as Hd.
  unfold binary_round_aux, shr_fexp. rewrite fexp_normal by lia.
  destruct (Z.eq_dec (Zdigits2 q) 53) as [H53 | H54].
  - rewrite H53. replace (53 + e - 53 - e) with 0 by lia. unfold shr.
    exists q, e, l. rewrite shr_m_record_of_loc, loc_of_record_of_loc.
    split; [reflexivity |]. split.
    + pose proof (Zdigits2_bounds q ltac:(lia)) as [_ Hhi]. rewrite H53 in Hhi. lia.
    + rewrite Z.sub_diag, bpow_0, Rmult_1_r. exact Hloc.
  - assert (Hd54 : Zdigits2 q = 54) by lia. rewrite Hd54.
    replace (54 + e - 53 - e) with 1 by lia. unfold shr.
    change (SpecFloat.iter_pos shr_1 1 (shr_record_of_loc q l))
      with (shr_1 (shr_record_of_loc q l)).
    destruct (shr_1_located Y q l ltac:(lia) Hloc) as [Hloc' Hm'].
    exists (q / 2), (e + 1), (loc_of_shr_record (shr_1 (shr_record_of_loc q l))).
    rewrite Hm'. split; [reflexivity |]. split.
    + pose proof (Zdigits2_bounds q ltac:(lia)) as [Hlo _]. rewrite Hd54 in Hlo.
      change (54 - 1) with 53 in Hlo.
      change (2 ^ 52) with 4503599627370496 in *.
      change (2 ^ 53) with 9007199254740992 in *.
      change (2 ^ 54) with 18014398509481984 in *.
      split; [apply Z.div_le_lower_bound; lia | apply Z.div_lt_upper_bound; lia].
    + replace (e - (e + 1)) with (-1) by lia. rewrite bpow_m1. exact Hloc'.
Qed.

Lemma round_located_unique X m1 e1 l1 m2 e2 l2 :
  2 ^ 52 <= m1 < 2 ^ 53 -> 2 ^ 52 <= m2 < 2 ^ 53 ->
  located (X * bpow (- e1)) m1 l1 -> located (X * bpow (- e2)) m2 l2 ->
  m1 = m2 /\ e1 = e2 /\ l1 = l2.
Proof.
  intros Hm1 Hm2 H1 H2.
  assert (Hrange : forall m e l, 2 ^ 52 <= m < 2 ^ 53 -> located (X * bpow (- e)) m l ->
                     (bpow 52 <= X * bpow (- e) < bpow 53)%R).
  { intros m e l [Hlo Hhi] Hl. apply located_bounds in Hl.
    rewrite (bpow_IZR 52), (bpow_IZR 53) by lia.
    assert (IZR (2 ^ 52) <= IZR m)%R by (apply IZR_le; exact Hlo).
    assert (IZR (m + 1) <= IZR (2 ^ 53))%R by (apply IZR_le; lia).
    rewrite plus_IZR in H0.
    set (c52 := IZR (2 ^ 52)) in *. set (c53 := IZR (2 ^ 53)) in *. lra. }
  pose proof (Hrange _ _ _ Hm1 H1) as R1. pose proof (Hrange _ _ _ Hm2 H2) as R2.
  assert (Hstep : forall ea eb, ea < eb ->
            (bpow 52 <= X * bpow (- ea) < bpow 53)%R ->
            (bpow 52 <= X * bpow (- eb) < bpow 53)%R -> False).
  { intros ea eb Hlt [Ha0 Ha] [Hb _].
    assert (Heq : (X * bpow (- eb) = X * bpow (- ea) * bpow (ea - eb))%R).
    { rewrite Rmult_assoc, <- bpow_add. f_equal. f_equal. lia. }
    assert (Hle : (bpow (ea - eb) <= bpow (-1))%R) by (apply bpow_le; lia).
    pose proof (bpow_pos (ea - eb)) as Hpos.
    assert (H53 : bpow 53 = (bpow 52 * 2)%R).
    { change 53 with (52 + 1). rewrite bpow_add.
      assert (Hb1 : bpow 1 = 2%R) by (unfold bpow; simpl; lra).
      rewrite Hb1. reflexivity. }
    pose proof (bpow_pos 52) as H52. rewrite bpow_m1 in Hle.
    rewrite Heq in Hb. rewrite H53 in Ha.
    set (A := (X * bpow (- ea))%R) in *. set (t := bpow (ea - eb)) in *.
    set (c := bpow 52) in *. nra. }
  assert (He : e1 = e2).
  { destruct (Z.lt_trichotomy e1 e2) as [Hlt | [Heq | Hgt]]; [| exact Heq |].
    - exfalso. eapply Hstep; eassumption.
    - exfalso. eapply (Hstep e2 e1); eassumption. }
  subst e2. destruct (located_unique _ _ _ _ _ H1 H2) as [-> ->]. auto.
Qed.

(** The quotient of two ints depends on their ratio only. *)
Lemma int_truediv_ratio a b c d :
  0 < a < 2 ^ 53 -> 0 < b < 2 ^ 53 -> 0 < c < 2 ^ 53 -> 0 < d < 2 ^ 53 ->
  a * d = c * b ->
  Py.int_truediv a b = Py.int_truediv c d.
Proof.
  intros Ha Hb Hc Hd Heq.
  assert (Hfdiv : Py.fdiv (Py.Z2F a) (Py.Z2F b) = Py.fdiv (Py.Z2F c) (Py.Z2F d)).
  { destruct (Z2F_exact a Ha) as (ma & ea & [Hza Hda] & Hea & Hva).
    destruct (Z2F_exact b Hb) as (mb & eb & [Hzb Hdb] & Heb & Hvb).
    destruct (Z2F_exact c Hc) as (mc & ec & [Hzc Hdc] & Hec & Hvc).
    destruct (Z2F_exact d Hd) as (md & ed & [Hzd Hdd] & Hed & Hvd).
    rewrite Hza, Hzb, Hzc, Hzd.
    destruct (fdiv_located ma ea mb eb Hda Hdb ltac:(lia)) as (q1 & l1 & -> & Hq1 & Hl1).
    destruct (fdiv_located mc ec md ed Hdc Hdd ltac:(lia)) as (q2 & l2 & -> & Hq2 & Hl2).
    rewrite Hva, Hvb in Hl1. rewrite Hvc, Hvd in Hl2.
    assert (HX : (IZR c / IZR d = IZR a / IZR b)%R).
    { assert (0 < IZR b)%R by (apply IZR_lt; lia).
      assert (0 < IZR d)%R by (apply IZR_lt; lia).
      assert (IZR a * IZR d = IZR c * IZR b)%R by (rewrite <- !mult_IZR; f_equal; exact Heq).
      apply Rmult_eq_reg_r with (IZR b * IZR d)%R; [| nra].
      replace (IZR c / IZR d * (IZR b * IZR d))%R with (IZR c * IZR b)%R by (field; lra).
      replace (IZR a / IZR b * (IZR b * IZR d))%R with (IZR a * IZR d)%R by (field; lra).
      lra. }
    rewrite HX in Hl2. set (X := (IZR a / IZR b)%R) in *.
    destruct (binary_round_aux_located q1 (ea - eb - 53) l1 _ Hq1 ltac:(lia) Hl1)
      as (m1 & e1 & l1' & -> & Hm1 & Hloc1).
    destruct (binary_round_aux_located q2 (ec - ed - 53) l2 _ Hq2 ltac:(lia) Hl2)
      as (m2 & e2 & l2' & -> & Hm2 & Hloc2).
    rewrite Rmult_assoc, <- bpow_add in Hloc1, Hloc2.
    replace (- (ea - eb - 53) + (ea - eb - 53 - e1)) with (- e1) in Hloc1 by lia.
    replace (- (ec - ed - 53) + (ec - ed - 53 - e2)) with (- e2) in Hloc2 by lia.
    destruct (round_located_unique X m1 e1 l1' m2 e2 l2' Hm1 Hm2 Hloc1 Hloc2)
      as (-> & -> & ->).
    reflexivity. }
  rewrite !int_truediv_small by lia.
  rewrite Hfdiv. reflexivity.
Qed.

Lemma flt_irrefl x m e : normal x m e -> Py.flt x x = false.
Proof.
  intros Hn. destruct (Py.flt x x) eqn:H; [| reflexivity].
  apply (flt_normal x m e x m e Hn Hn) in H. lra.
Qed.

(** ** Scaling keeps the aspect ratio *)

Lemma int_truediv_normal a b x :
  0 < a < 2 ^ 53 -> 0 < b < 2 ^ 53 -> Py.int_truediv a b = inr x ->
  exists m e, normal x m e.
Proof.
  intros Ha Hb Hx.
  destruct (int_truediv_rounds a b Ha Hb) as (x' & m & e & Hx' & Hn & _).
  rewrite Hx in Hx'. injection Hx' as <-. eauto.
Qed.

Lemma flt_asym x mx ex y my ey :
  normal x mx ex -> normal y my ey -> Py.flt x y = true -> Py.flt y x = false.
Proof.
  intros Hx Hy H. apply (flt_normal x mx ex y my ey Hx Hy) in H.
  destruct (Py.flt y x) eqn:H'; [| reflexivity].
  apply (flt_normal y my ey x mx ex Hy Hx) in H'. lra.
Qed.

(** The size [play] scales to, for dimensions below 2^25. *)
Lemma scaled_size_pixel sw sh iw ih sa pa size new :
  0 < sw < 2 ^ 25 -> 0 < sh < 2 ^ 25 -> 0 < iw < 2 ^ 25 -> 0 < ih < 2 ^ 25 ->
  Py.int_truediv sw sh = inr sa -> Py.int_truediv iw ih = inr pa ->
  scaled_size sw sh iw ih sa pa = inr (size, new) ->
  let (bw, bh) := size in
  (sw * ih < sh * iw ->
   bw = sw /\ sw * ih / iw - 1 <= bh <= sw * ih / iw
   /\ ((sw * ih) mod iw <> 0 -> bh = sw * ih / iw))
  /\ (sh * iw < sw * ih ->
      bh = sh /\ sh * iw / ih - 1 <= bw <= sh * iw / ih
      /\ ((sh * iw) mod ih <> 0 -> bw = sh * iw / ih))
  /\ (sw * ih = sh * iw -> bw = sw /\ bh = sh).
Proof.
  intros Hsw Hsh Hiw Hih Hsa Hpa Hsize.
  destruct (int_truediv_normal sw sh sa (below_2_53 _ Hsw) (below_2_53 _ Hsh) Hsa)
    as (ms & es & Hns).
  destruct (int_truediv_normal iw ih pa (below_2_53 _ Hiw) (below_2_53 _ Hih) Hpa)
    as (mp & ep & Hnp).
  unfold scaled_size in Hsize.
  destruct (Z.lt_trichotomy (sw * ih) (sh * iw)) as [Hlt | [Heq | Hgt]].
  - (* the image is wider than the display *)
    rewrite (aspect_order sw sh iw ih sa pa Hsw Hsh Hiw Hih Hsa Hpa) in Hsize by lia.
    destruct (Py.int_div_float sw pa) as [e | q] eqn:Hq; [discriminate |].
    destruct (Py.int_of_float q) as [e | nh] eqn:Hnh; [discriminate |].
    injection Hsize as <- _.
    split; [| split; intros; lia]. intros _.
    split; [reflexivity |].
    exact (width_bound_pixel sw iw ih pa q nh Hsw Hiw Hih Hpa Hq Hnh).
  - (* the same aspect ratio *)
    assert (Hsame : sa = pa).
    { pose proof (int_truediv_ratio sw sh iw ih (below_2_53 _ Hsw) (below_2_53 _ Hsh)
                    (below_2_53 _ Hiw) (below_2_53 _ Hih) ltac:(lia)) as H.
      rewrite Hsa, Hpa in H. injection H as ->. reflexivity. }
    subst pa. rewrite (flt_irrefl sa ms es Hns) in Hsize.
    injection Hsize as <- _.
    split; [intros; lia |]. split; [intros; lia |]. intros _. split; reflexivity.
  - (* the image is taller than the display *)
    pose proof (aspect_order iw ih sw sh pa sa Hiw Hih Hsw Hsh Hpa Hsa ltac:(lia)) as Hflt.
    rewrite (flt_asym pa mp ep sa ms es Hnp Hns Hflt), Hflt in Hsize.
    destruct (Py.int_mul_float sh pa) as [e | q] eqn:Hq; [discriminate |].
    destruct (Py.int_of_float q) as [e | nw] eqn:Hnw; [discriminate |].
    injection Hsize as <- _.
    split; [intros; lia |]. split; [| intros; lia]. intros _.
    split; [reflexivity |].
    exact (height_bound_pixel sh iw ih pa q nw Hsh Hiw Hih Hpa Hq Hnw).
Qed.

(** X15.  With scaling on and all four dimensions (display and decoded
    image) positive and below 2^25, the bitmap [play] blits keeps the image's
    aspect ratio to within one pixel.  When the image is relatively wider
    than the display the bitmap is as wide as the display and its height is
    the exact proportional height [screen_w * image_h / image_w] rounded
    down, or one pixel less; one pixel less only when the exact height is a
    whole number.  Symmetrically for an image relatively taller than the
    display.  An image with the display's aspect ratio is scaled to exactly
    the display's size.  (The witness shows the lost pixel: an 11 x 15 image
    on an 800 x 600 display is blitted 439 pixels wide, the exact width
    being 440.) *)
Theorem scaling_keeps_the_aspect_ratio_to_a_pixel :
  forall disk fuel image loop now s s',
    _scale (self s) = true ->
    filename image <> ""%string -> isfile disk (filename image) = true ->
    play disk fuel image loop now s = (Return tt, s') ->
    exists pyimage blitted dest,
      OrderedDict.get (filename image) (_image_cache (self s')) = Some pyimage
      /\ last_blit (screen (world s')) = Some (blitted, dest)
      /\ let (sw, sh) := _size (self s) in
         let (iw, ih) := get_size pyimage in
         let (bw, bh) := get_size blitted in
         0 < sw < 2 ^ 25 -> 0 < sh < 2 ^ 25 -> 0 < iw < 2 ^ 25 -> 0 < ih < 2 ^ 25 ->
         (sw * ih < sh * iw ->
          bw = sw /\ sw * ih / iw - 1 <= bh <= sw * ih / iw
          /\ ((sw * ih) mod iw <> 0 -> bh = sw * ih / iw))
         /\ (sh * iw < sw * ih ->
             bh = sh /\ sh * iw / ih - 1 <= bw <= sh * iw / ih
             /\ ((sh * iw) mod ih <> 0 -> bw = sh * iw / ih))
         /\ (sw * ih = sh * iw -> bw = sw /\ bh = sh).
Proof.
  intros disk fuel image loop now s s' Hscale Hname Hfile Hplay.
  destruct (play_Return_inv disk fuel image loop now s s' Hname Hfile Hplay)
    as (pyimage & target & blitted & dest & Hcached & Hpl & Htarget & Hscreen).
  exists pyimage, blitted, dest.
  split; [exact Hcached |].
  split; [rewrite Hscreen, app_assoc; apply last_blit_app |].
  rewrite Hscale in Hpl.
  destruct (_size (self s)) as [sw sh].
  destruct (get_size pyimage) as [iw ih] eqn:Hsz.
  apply placement_inv in Hpl.
  destruct Hpl as (sa & pa & new_w & new_h & Hsa & Hpa & (size & -> & Hsize) & _).
  destruct Htarget as (_ & _ & -> & _).
  destruct size as [bw bh].
  intros Hsw Hsh Hiw Hih.
  exact (scaled_size_pixel sw sh iw ih sa pa (bw, bh) (new_w, new_h)
           Hsw Hsh Hiw Hih Hsa Hpa Hsize).
Qed.

Lemma scaling_keeps_the_aspect_ratio_to_a_pixel_witness :
  let s := mkState (demo_player 8 true true) fresh_world in
  let s' := snd (play thumb_disk 5 (mkImage "thumb.png" 1) None (Py.Z2F 100) s) in
  (exists pyimage blitted dest,
     OrderedDict.get "thumb.png" (_image_cache (self s')) = Some pyimage
     /\ last_blit (screen (world s')) = Some (blitted, dest)
     /\ let (sw, sh) := _size (self s) in
        let (iw, ih) := get_size pyimage in
        let (bw, bh) := get_size blitted in
        0 < sw < 2 ^ 25 -> 0 < sh < 2 ^ 25 -> 0 < iw < 2 ^ 25 -> 0 < ih < 2 ^ 25 ->
        (sw * ih < sh * iw ->
         bw = sw /\ sw * ih / iw - 1 <= bh <= sw * ih / iw
         /\ ((sw * ih) mod iw <> 0 -> bh = sw * ih / iw))
        /\ (sh * iw < sw * ih ->
            bh = sh /\ sh * iw / ih - 1 <= bw <= sh * iw / ih
            /\ ((sh * iw) mod ih <> 0 -> bw = sh * iw / ih))
        /\ (sw * ih = sh * iw -> bw = sw /\ bh = sh))
  /\ last_blit (screen (world s')) = Some (mkSurface 1 439 600 4, (180, 0))
  /\ 600 * 11 / 15 = 440.
Proof.
  intros s s'. split; [| split; [vm_compute; reflexivity | reflexivity]].
  apply (scaling_keeps_the_aspect_ratio_to_a_pixel thumb_disk 5 (mkImage "thumb.png" 1) None
           (Py.Z2F 100) s s').
  - reflexivity.
  - discriminate.
  - reflexivity.
  - vm_compute. reflexivity.
Defined.

(** ** The timer against the clock *)

(** Shifting an exact mantissa to the right by [n] places. *)
Lemma shr_exact m e n :
  0 <= m ->
  exists mrs,
    shr (shr_record_of_loc m loc_Exact) e n = (mrs, e + Z.max n 0)
    /\ shr_m mrs = m / 2 ^ Z.max n 0
    /\ (shr_r mrs = true -> m / 2 ^ Z.max n 0 * 2 ^ Z.max n 0 < m).
Proof.
  intros Hm. unfold shr. destruct n as [| p | p].
  - exists (shr_record_of_loc m loc_Exact). simpl Z.max.
    rewrite Z.add_0_r, Z.div_1_r. split; [reflexivity |]. split; [reflexivity |].
    simpl. discriminate.
  - exists (SpecFloat.iter_pos shr_1 p (shr_record_of_loc m loc_Exact)).
    replace (Z.max (Z.pos p) 0) with (Z.pos p) by lia.
    split; [reflexivity |].
    rewrite iter_pos_nat.
    assert (Hm0 : shr_m (shr_record_of_loc m loc_Exact) = m) by reflexivity.
    split.
    + rewrite iter_shr_1_m by (rewrite Hm0; exact Hm).
      rewrite Hm0, positive_nat_Z. reflexivity.
    + intros Hr.
      destruct (Pos2Nat.is_succ p) as [k Hk]. rewrite Hk in Hr.
      assert (Hpk : Z.of_nat (S k) = Z.pos p) by (rewrite <- Hk; apply positive_nat_Z).
      pose proof (iter_shr_1_r k (shr_record_of_loc m loc_Exact)) as H.
      rewrite Hm0 in H. specialize (H Hm Hr).
      rewrite iter_shr_1_m in H by (rewrite Hm0; exact Hm).
      rewrite Hm0, Hpk in H. exact H.
  - exists (shr_record_of_loc m loc_Exact).
    replace (Z.max (Z.neg p) 0) with 0 by lia.
    rewrite Z.add_0_r, Z.div_1_r. split; [reflexivity |]. split; [reflexivity |].
    simpl. discriminate.
Qed.

Lemma fexp_eq x : fexp 53 1024 x = Z.max (x - 53) (-1074).
Proof. reflexivity. Qed.

Lemma Zdigits2_shift m k :
  0 < m -> 0 <= k -> Zdigits2 (m * 2 ^ k) = Zdigits2 m + k.
Proof.
  intros Hm Hk. pose proof (Zdigits2_bounds m Hm) as [Hlo Hhi].
  assert (Hd : 0 < Zdigits2 m).
  { destruct m; try lia. simpl. lia. }
  apply Zdigits2_unique; [| lia].
  replace (Zdigits2 m + k - 1) with (Zdigits2 m - 1 + k) by lia.
  rewrite !Z.pow_add_r by lia.
  pose proof (Z.pow_pos_nonneg 2 k ltac:(lia) Hk). nia.
Qed.

(** Aligning a mantissa to the exponent of its rounding keeps the value. *)
Lemma shl_align_fexp m ex :
  let fe := fexp 53 1024 (Zpos (digits2_pos m) + ex) in
  exists mz e1,
    shl_align m ex fe = (mz, e1)
    /\ e1 <= fe /\ e1 <= ex
    /\ Zpos mz = Zpos m * 2 ^ (ex - e1)
    /\ Zdigits2 (Zpos mz) + e1 = Zpos (digits2_pos m) + ex.
Proof.
  intros fe. unfold shl_align.
  destruct (fe - ex) as [| k | k] eqn:Hk.
  - exists m, ex. split; [reflexivity |]. rewrite Z.sub_diag. simpl (2 ^ 0).
    split; [lia |]. split; [lia |]. split; [lia | reflexivity].
  - exists m, ex. split; [reflexivity |]. rewrite Z.sub_diag. simpl (2 ^ 0).
    split; [lia |]. split; [lia |]. split; [lia | reflexivity].
  - exists (Pos.iter xO m k), fe. split; [reflexivity |].
    assert (Hek : ex - fe = Z.pos k) by lia.
    assert (Hmz : Zpos (Pos.iter xO m k) = Zpos m * 2 ^ Zpos k) by apply iter_xO.
    assert (Hd : Zdigits2 (Zpos (Pos.iter xO m k)) = Zdigits2 (Zpos m) + Zpos k).
    { rewrite Hmz. apply Zdigits2_shift; lia. }
    split; [lia |]. split; [lia |]. split; [rewrite Hek; exact Hmz |].
    rewrite Hd. simpl Zdigits2. lia.
Qed.

Lemma Zdigits2_le_53 m : 0 <= m < 2 ^ 53 -> Zdigits2 m <= 53.
Proof.
  intros [Hlo Hhi]. destruct (Z.eq_dec m 0) as [-> | Hne]; [simpl; lia |].
  pose proof (Zdigits2_bounds m ltac:(lia)) as [Hd _].
  destruct (Z_lt_le_dec 53 (Zdigits2 m)) as [Hgt | Hle]; [| exact Hle].
  assert (2 ^ 53 <= 2 ^ (Zdigits2 m - 1)) by (apply Z.pow_le_mono_r; lia). lia.
Qed.

(** Rounding any positive mantissa: the result is one of the two multiples of
    2^fe around the value, and the upper one only when the value is not the
    lower one. *)
Lemma binary_round_general sx m ex :
  let fe := fexp 53 1024 (Zpos (digits2_pos m) + ex) in
  exists m',
    0 <= m' < 2 ^ 53
    /\ (F2R m' fe <= F2R (Zpos m) ex < F2R (m' + 1) fe)%R
    /\ (-1074 < fe -> 2 ^ 52 <= m')
    /\ ((binary_round 53 1024 sx m ex = S754_zero sx /\ m' = 0)
        \/ (exists mr er,
              binary_round 53 1024 sx m ex = S754_finite sx mr er
              /\ (F2R (Zpos mr) er = F2R m' fe
                  \/ (F2R (Zpos mr) er = F2R (m' + 1) fe
                      /\ (F2R m' fe < F2R (Zpos m) ex)%R)))
        \/ (binary_round 53 1024 sx m ex = S754_infinity sx /\ 0 < fe)).
Proof.
  intros fe.
  destruct (shl_align_fexp m ex) as (mz & e1 & Hal & He1 & He1x & Hmz & Hdz).
  fold fe in Hal, He1.
  assert (Hfe : -1074 <= fe) by (unfold fe; rewrite fexp_eq; lia).
  assert (Hfed : Zpos (digits2_pos m) + ex - 53 <= fe) by (unfold fe; rewrite fexp_eq; lia).
  unfold binary_round.
  change (fexp 53 1024 (Z.pos (digits2_pos m) + ex)) with fe. rewrite Hal.
  unfold binary_round_aux, shr_fexp. rewrite Hdz.
  change (fexp 53 1024 (Z.pos (digits2_pos m) + ex)) with fe.
  set (n := fe - e1). assert (Hn : 0 <= n) by (unfold n; lia).
  destruct (shr_exact (Zpos mz) e1 n ltac:(lia)) as (mrs & Hshr & Hm' & Hr).
  rewrite Hshr. replace (Z.max n 0) with n in * by lia.
  replace (e1 + n) with fe by (unfold n; lia).
  set (m' := Zpos mz / 2 ^ n) in *.
  assert (Hp : 0 < 2 ^ n) by (apply Z.pow_pos_nonneg; lia).
  pose proof (Z.mul_div_le (Zpos mz) (2 ^ n) Hp) as Hq1.
  pose proof (Z.mul_succ_div_gt (Zpos mz) (2 ^ n) Hp) as Hq2.
  fold m' in Hq1, Hq2.
  assert (Hm'0 : 0 <= m') by (apply Z.div_pos; lia).
  assert (HV : F2R (Zpos m) ex = F2R (Zpos mz) e1).
  { rewrite Hmz, F2R_shift by lia. f_equal. lia. }
  assert (Hlo : (F2R m' fe <= F2R (Zpos mz) e1)%R).
  { replace fe with (e1 + n) by (unfold n; lia).
    rewrite <- F2R_shift by lia. apply F2R_le. lia. }
  assert (Hhi : (F2R (Zpos mz) e1 < F2R (m' + 1) fe)%R).
  { replace fe with (e1 + n) by (unfold n; lia).
    rewrite <- F2R_shift by lia. apply F2R_lt. lia. }
  pose proof (Zdigits2_bounds (Zpos mz) ltac:(lia)) as [Hdlo Hdhi].
  set (dz := Zdigits2 (Zpos mz)) in *.
  assert (Hdzn : dz - n <= 53) by (unfold n; lia).
  assert (Hm'53 : m' < 2 ^ 53).
  { apply Z.div_lt_upper_bound; [exact Hp |].
    apply Z.lt_le_trans with (2 ^ dz); [exact Hdhi |].
    rewrite <- Z.pow_add_r by lia. apply Z.pow_le_mono_r; lia. }
  assert (Hm'52 : -1074 < fe -> 2 ^ 52 <= m').
  { intros Hnorm.
    assert (Hfe' : fe = Zpos (digits2_pos m) + ex - 53).
    { unfold fe in *. rewrite fexp_eq in *. lia. }
    assert (Hdz53 : dz - 1 = 52 + n) by (unfold n; lia).
    apply Z.div_le_lower_bound; [exact Hp |].
    rewrite Hdz53, Z.pow_add_r in Hdlo by lia. lia. }
  exists m'. split; [lia |]. split; [rewrite HV; lra |]. split; [exact Hm'52 |].
  rewrite Hm'.
  pose proof (round_nearest_even_cases m' mrs Hm') as Hcases. cbv zeta in Hcases.
  set (m1 := round_nearest_even m' (loc_of_shr_record mrs)) in *.
  assert (Hm1 : 0 <= m1 <= 2 ^ 53) by (destruct Hcases as [-> | [-> _]]; lia).
  assert (Hup : m1 = m' + 1 -> (F2R m' fe < F2R (Zpos m) ex)%R).
  { intros Heq. destruct Hcases as [Hc | [_ Hc]]; [lia |].
    rewrite HV. replace fe with (e1 + n) by (unfold n; lia).
    rewrite <- F2R_shift by lia. apply F2R_lt. apply Hr. exact Hc. }
  set (n2 := fexp 53 1024 (Zdigits2 m1 + fe) - fe).
  destruct (shr_exact m1 fe n2 ltac:(lia)) as (mrs2 & Hshr2 & Hm2 & _).
  rewrite Hshr2, Hm2.
  destruct (Z_lt_le_dec m1 (2 ^ 53)) as [Hlt | Hge].
  - (* no carry out of the mantissa *)
    assert (Hn2 : Z.max n2 0 = 0).
    { pose proof (Zdigits2_le_53 m1 ltac:(lia)). unfold n2. rewrite fexp_eq. lia. }
    rewrite Hn2, Z.add_0_r. simpl (2 ^ 0). rewrite Z.div_1_r.
    destruct m1 as [| p1 | p1] eqn:Em1; [| | lia].
    + left. split; [reflexivity |]. destruct Hcases as [Hc | [Hc _]]; lia.
    + right. destruct (fe <=? 1024 - 53) eqn:Hle.
      * left. exists p1, fe. split; [reflexivity |].
        destruct Hcases as [Hc | [Hc _]].
        -- left. rewrite <- Hc. reflexivity.
        -- right. split; [rewrite <- Hc; reflexivity | apply Hup; exact Hc].
      * right. split; [reflexivity |]. apply Z.leb_gt in Hle. lia.
  - (* the mantissa has become 2^53 *)
    assert (Hm1' : m1 = 2 ^ 53) by lia.
    assert (Hnext : m1 = m' + 1) by (destruct Hcases as [Hc | [Hc _]]; lia).
    assert (Hn2 : Z.max n2 0 = 1).
    { unfold n2. rewrite Hm1', fexp_eq.
      change (Zdigits2 (2 ^ 53)) with 54. lia. }
    rewrite Hn2, Hm1'. change (2 ^ 53 / 2 ^ 1) with (Zpos (2 ^ 52)).
    right. destruct (fe + 1 <=? 1024 - 53) eqn:Hle.
    + left. exists (2 ^ 52)%positive, (fe + 1). split; [reflexivity |].
      right. split; [| apply Hup; exact Hnext].
      rewrite <- Hnext, Hm1'.
      change (2 ^ 53) with (Zpos (2 ^ 52) * 2 ^ 1).
      rewrite F2R_shift by lia. reflexivity.
    + right. split; [reflexivity |]. apply Z.leb_gt in Hle. lia.
Qed.

Lemma float_lt_int_finite s m e n :
  Py.float_lt_int (S754_finite s m e) n = true
  <-> (F2R (cond_Zopp s (Zpos m)) e < IZR n)%R.
Proof.
  unfold Py.float_lt_int. set (M := cond_Zopp s (Zpos m)).
  destruct (0 <=? e) eqn:He.
  - apply Z.leb_le in He.
    assert (HF : F2R M e = IZR (M * 2 ^ e)).
    { rewrite <- F2R_0, F2R_shift by lia. f_equal. }
    rewrite HF, Z.ltb_lt. split; [apply IZR_lt | apply lt_IZR].
  - apply Z.leb_gt in He.
    assert (HF : IZR n = F2R (n * 2 ^ (- e)) e).
    { rewrite F2R_shift by lia. replace (e + - e) with 0 by lia. symmetry. apply F2R_0. }
    rewrite HF, Z.ltb_lt. split; [apply F2R_lt | apply F2R_lt_inv].
Qed.

Lemma F2R_neg m e : F2R (Zneg m) e = (- F2R (Zpos m) e)%R.
Proof. unfold F2R. change (Zneg m) with (- Zpos m). rewrite opp_IZR. ring. Qed.

Lemma F2R_sub a b e : F2R (a - b) e = (F2R a e - F2R b e)%R.
Proof. unfold F2R. rewrite minus_IZR. ring. Qed.

Lemma F2R_grid K fe : fe <= 0 -> IZR K = F2R (K * 2 ^ (- fe)) fe.
Proof.
  intros Hfe. rewrite F2R_shift by lia. replace (fe + - fe) with 0 by lia.
  symmetry. apply F2R_0.
Qed.

Lemma F2R_above_2_53 m' fe K :
  0 < fe -> 2 ^ 52 <= m' -> K < 2 ^ 53 -> (IZR K < F2R m' fe)%R.
Proof.
  intros Hfe Hm' HK.
  apply Rlt_le_trans with (F2R (2 ^ 53) 0); [rewrite F2R_0; apply IZR_lt; exact HK |].
  apply Rle_trans with (F2R (2 ^ 52) fe); [| apply F2R_le; exact Hm'].
  rewrite !F2R_bpow by lia. apply bpow_le. lia.
Qed.

(** A rounded positive value stays on its side of an integer below 2^53. *)
Lemma round_ge m ex K :
  0 < K < 2 ^ 53 -> (IZR K <= F2R (Zpos m) ex)%R ->
  Py.float_lt_int (binary_round 53 1024 false m ex) K = false.
Proof.
  intros HK HV.
  destruct (binary_round_general false m ex) as (m' & Hm' & [Hlo Hhi] & Hnorm & Hres).
  set (fe := fexp 53 1024 (Zpos (digits2_pos m) + ex)) in *.
  assert (Hfloor : (IZR K <= F2R m' fe)%R).
  { destruct (Z_lt_le_dec 0 fe) as [Hpos | Hneg].
    - apply Rlt_le. apply F2R_above_2_53; [exact Hpos | apply Hnorm; lia | lia].
    - rewrite (F2R_grid K fe Hneg). apply F2R_le.
      assert (Hlt : (F2R (K * 2 ^ (- fe)) fe < F2R (m' + 1) fe)%R).
      { rewrite <- (F2R_grid K fe Hneg). lra. }
      apply F2R_lt_inv in Hlt. lia. }
  destruct Hres as [[Hz Hm0] | [(mr & er & Hr & Hv) | [Hinf _]]].
  - exfalso. subst m'. unfold F2R in Hfloor. rewrite Rmult_0_l in Hfloor.
    assert (0 < IZR K)%R by (apply IZR_lt; lia). lra.
  - rewrite Hr. destruct (Py.float_lt_int (S754_finite false mr er) K) eqn:Hlt;
      [| reflexivity].
    apply float_lt_int_finite in Hlt. cbn [cond_Zopp] in Hlt.
    pose proof (F2R_le m' (m' + 1) fe ltac:(lia)) as Hstep.
    destruct Hv as [Hv | [Hv _]]; rewrite Hv in Hlt; lra.
  - rewrite Hinf. reflexivity.
Qed.

Lemma round_le sx m ex K D :
  0 <= K < 2 ^ 53 -> K < D ->
  (F2R (cond_Zopp sx (Zpos m)) ex <= IZR K)%R ->
  Py.float_lt_int (binary_round 53 1024 sx m ex) D = true.
Proof.
  intros HK HD HV.
  destruct (binary_round_general sx m ex) as (m' & Hm' & [Hlo Hhi] & Hnorm & Hres).
  set (fe := fexp 53 1024 (Zpos (digits2_pos m) + ex)) in *.
  assert (HKD : (IZR K < IZR D)%R) by (apply IZR_lt; exact HD).
  assert (HK0 : (0 <= IZR K)%R) by (apply IZR_le; lia).
  destruct sx.
  - (* a negative value: the result is not above zero *)
    destruct Hres as [[Hz _] | [(mr & er & Hr & _) | [Hinf _]]].
    + rewrite Hz. apply Z.ltb_lt. lia.
    + rewrite Hr. apply float_lt_int_finite. cbn [cond_Zopp].
      change (- Zpos mr) with (Zneg mr). rewrite F2R_neg.
      pose proof (F2R_pos mr er). lra.
    + rewrite Hinf. reflexivity.
  - cbn [cond_Zopp] in HV.
    assert (Hnormal : 0 < fe -> False).
    { intros Hpos.
      pose proof (F2R_above_2_53 m' fe K Hpos (Hnorm ltac:(lia)) ltac:(lia)). lra. }
    destruct Hres as [[Hz _] | [(mr & er & Hr & Hv) | [Hinf Hfe]]].
    + rewrite Hz. apply Z.ltb_lt. lia.
    + rewrite Hr. apply float_lt_int_finite. cbn [cond_Zopp].
      destruct Hv as [Hv | [Hv Hstrict]]; rewrite Hv; [lra |].
      destruct (Z_lt_le_dec 0 fe) as [Hpos | Hneg]; [contradiction (Hnormal Hpos) |].
      apply Rle_lt_trans with (IZR K); [| exact HKD].
      rewrite (F2R_grid K fe Hneg). apply F2R_le.
      assert (Hlt : (F2R m' fe < F2R (K * 2 ^ (- fe)) fe)%R).
      { rewrite <- (F2R_grid K fe Hneg). lra. }
      apply F2R_lt_inv in Hlt. lia.
    + contradiction (Hnormal Hfe).
Qed.

Lemma shl_align_min mx ex ez :
  ez <= ex -> Zpos (fst (shl_align mx ex ez)) = Zpos mx * 2 ^ (ex - ez).
Proof.
  intros Hle. unfold shl_align. destruct (ez - ex) as [| k | k] eqn:Hk; try lia.
  - replace (ex - ez) with 0 by lia. simpl. lia.
  - simpl fst. rewrite iter_xO. f_equal. f_equal. lia.
Qed.

Lemma cond_Zopp_mul s a b : cond_Zopp s (a * b) = cond_Zopp s a * b.
Proof. destruct s; simpl; lia. Qed.

(** The difference of two finite doubles, before it is rounded. *)
Lemma fsub_finite sx mx ex sy my ey :
  exists M ez,
    Py.fsub (S754_finite sx mx ex) (S754_finite sy my ey)
    = binary_normalize 53 1024 M ez false
    /\ F2R M ez = (val (S754_finite sx mx ex) - val (S754_finite sy my ey))%R.
Proof.
  unfold Py.fsub, SFsub.
  change (IntDef.Z.min ex ey) with (Z.min ex ey).
  set (ez := Z.min ex ey).
  eexists. exists ez. split; [reflexivity |].
  rewrite F2R_sub, !shl_align_min by (unfold ez; lia).
  rewrite !cond_Zopp_mul, !F2R_shift by (unfold ez; lia).
  unfold val. f_equal; f_equal; lia.
Qed.

Lemma float_lt_int_val x n :
  is_number x = true -> (Py.float_lt_int x n = true <-> (val x < IZR n)%R).
Proof.
  destruct x as [s | s | | s m e]; try discriminate; intros _.
  - simpl. rewrite Z.ltb_lt. split; [apply IZR_lt | apply lt_IZR].
  - apply float_lt_int_finite.
Qed.

(** [x - y] against an integer below 2^53, by the exact difference. *)
Lemma fsub_ge x y K :
  is_number x = true -> is_number y = true ->
  0 < K < 2 ^ 53 -> (IZR K <= val x - val y)%R ->
  Py.float_lt_int (Py.fsub x y) K = false.
Proof.
  intros Hx Hy HK HV.
  assert (HK0 : (0 < IZR K)%R) by (apply IZR_lt; lia).
  assert (Hexact : forall r, is_number r = true -> val r = (val x - val y)%R ->
                     Py.float_lt_int r K = false).
  { intros r Hr Hval. destruct (Py.float_lt_int r K) eqn:Hlt; [| reflexivity].
    apply (float_lt_int_val r K Hr) in Hlt. lra. }
  destruct x as [sx | sx | | sx mx ex]; try discriminate Hx;
    destruct y as [sy | sy | | sy my ey]; try discriminate Hy.
  - simpl in HV. lra.
  - apply Hexact; [reflexivity |]. simpl. destruct sy; simpl; rewrite ?F2R_neg; lra.
  - apply Hexact; [reflexivity |]. simpl. lra.
  - destruct (fsub_finite sx mx ex sy my ey) as (M & ez & -> & HM).
    rewrite <- HM in HV. destruct M as [| m | m]; unfold binary_normalize.
    + unfold F2R in HV. rewrite Rmult_0_l in HV. lra.
    + apply round_ge; assumption.
    + rewrite F2R_neg in HV. pose proof (F2R_pos m ez). lra.
Qed.

Lemma fsub_le x y K D :
  is_number x = true -> is_number y = true ->
  0 <= K < 2 ^ 53 -> K < D -> (val x - val y <= IZR K)%R ->
  Py.float_lt_int (Py.fsub x y) D = true.
Proof.
  intros Hx Hy HK HD HV.
  assert (HKD : (IZR K < IZR D)%R) by (apply IZR_lt; exact HD).
  assert (Hexact : forall r, is_number r = true -> val r = (val x - val y)%R ->
                     Py.float_lt_int r D = true).
  { intros r Hr Hval. apply (float_lt_int_val r D Hr). lra. }
  destruct x as [sx | sx | | sx mx ex]; try discriminate Hx;
    destruct y as [sy | sy | | sy my ey]; try discriminate Hy.
  - apply Hexact; [destruct sx, sy; reflexivity |].
    destruct sx, sy; simpl; lra.
  - apply Hexact; [reflexivity |]. simpl. destruct sy; simpl; rewrite ?F2R_neg; lra.
  - apply Hexact; [reflexivity |]. simpl. lra.
  - destruct (fsub_finite sx mx ex sy my ey) as (M & ez & -> & HM).
    rewrite <- HM in HV. destruct M as [| m | m]; unfold binary_normalize.
    + apply Z.ltb_lt. lia.
    + apply (round_le false m ez K D); assumption.
    + apply (round_le true m ez K D); assumption.
Qed.

(** [is_playing] with a float in [_start_time] and a finite loop count. *)
Lemma is_playing_by_the_clock :
  forall now t0 p w,
    _start_time p = Py.PyFloat t0 ->
    -1 < _loop p ->
    is_number now = true -> is_number t0 = true ->
    0 < _duration p * _loop p < 2 ^ 53 ->
    ((IZR (_duration p * _loop p) <= val now - val t0)%R ->
     fst (is_playing now (mkState p w)) = answered p false)
    /\ ((val now - val t0 <= IZR (_duration p * _loop p - 1))%R ->
        fst (is_playing now (mkState p w)) = Return true).
Proof.
  intros now t0 p w Hstart Hloop Hnow Ht0 HD.
  rewrite is_playing_eq, Hstart.
  replace (_loop p <=? -1) with false by (symmetry; apply Z.leb_gt; lia).
  cbn [Py.float_sub_num]. split; intros HV.
  - rewrite fsub_ge by assumption. reflexivity.
  - rewrite (fsub_le now t0 (_duration p * _loop p - 1)) by (try assumption; lia).
    reflexivity.
Qed.

Lemma val_Z2F n : 0 < n < 2 ^ 53 -> val (Py.Z2F n) = IZR n.
Proof.
  intros Hn. destruct (Z2F_exact n Hn) as (m & e & [-> _] & _ & Hv). exact Hv.
Qed.

(** X20.  How long an image plays.  After a [play] that returned at the
    clock reading [started], with a finite loop count and a total time
    [_duration * _loop] between 1 and 2^53 seconds, [is_playing] answers
    false at every clock reading at which at least the total time has passed,
    and true at every clock reading at which at most the total time less one
    second has passed.  The elapsed time is the exact difference of the two
    doubles; the rounding of the subtraction in [is_playing] never moves the
    answer across these two bounds.  ([answered] is the answer returned: the
    answer False comes back as such when [_wait_time] is not positive or
    pygame takes the background colour, and ends in ValueError otherwise.) *)
Theorem image_plays_for_its_duration :
  forall disk fuel image loop started s s' later,
    play disk fuel image loop started s = (Return tt, s') ->
    is_number started = true -> is_number later = true ->
    let total := _duration (self s) * normalized_loop image loop in
    -1 < normalized_loop image loop -> 0 < total < 2 ^ 53 ->
    ((IZR total <= val later - val started)%R ->
     fst (is_playing later s') = answered (self s) false)
    /\ ((val later - val started <= IZR (total - 1))%R ->
        fst (is_playing later s') = Return true).
Proof.
  intros disk fuel image loop started [p w] [p' w'] later Hplay Hstarted Hlater total
    Hloop Htotal.
  apply play_Return_settings in Hplay. cbn [self] in *.
  unfold settings in Hplay.
  cbn [_duration _size _bgcolor _scale _center _wait_time _bgimage _loop _start_time
       _cache_size_limit set_start_time set_loop] in Hplay.
  injection Hplay as Hd _ Hbg _ _ Hwt _ Hl Hs _.
  assert (Htot : _duration p' * _loop p' = total) by (rewrite Hd, Hl; reflexivity).
  rewrite <- Htot in *.
  rewrite <- (answered_ext p p' false Hbg Hwt).
  apply is_playing_by_the_clock; try assumption. rewrite Hl. exact Hloop.
Qed.

Lemma image_plays_for_its_duration_witness :
  let s := mkState (demo_player 4 true true) fresh_world in
  let s' := snd (play demo_disk 5 (mkImage "wide.png" 3) None (Py.Z2F 100) s) in
  fst (is_playing (Py.Z2F 130) s') = Return false
  /\ fst (is_playing (Py.Z2F 129) s') = Return true.
Proof.
  intros s s'.
  destruct (image_plays_for_its_duration demo_disk 5 (mkImage "wide.png" 3) None
              (Py.Z2F 100) s s' (Py.Z2F 130)) as [Hover _].
  - vm_compute. reflexivity.
  - reflexivity.
  - reflexivity.
  - vm_compute. reflexivity.
  - vm_compute. split; reflexivity.
  - destruct (image_plays_for_its_duration demo_disk 5 (mkImage "wide.png" 3) None
                (Py.Z2F 100) s s' (Py.Z2F 129)) as [_ Hshown].
    + vm_compute. reflexivity.
    + reflexivity.
    + reflexivity.
    + vm_compute. reflexivity.
    + vm_compute. split; reflexivity.
    + split.
      * apply Hover. rewrite !val_Z2F by (vm_compute; split; reflexivity).
        change (_duration (self s) * normalized_loop (mkImage "wide.png" 3) None) with 30.
        lra.
      * apply Hshown. rewrite !val_Z2F by (vm_compute; split; reflexivity).
        change (_duration (self s) * normalized_loop (mkImage "wide.png" 3) None - 1) with 29.
        lra.
Defined.

(** ** Stop against the clock *)

Lemma bpow_opp e : (bpow e * bpow (- e) = 1)%R.
Proof. rewrite <- bpow_add. replace (e + - e) with 0 by lia. reflexivity. Qed.

(** One shift to the right of any record keeps track of where the value lies. *)
Lemma shr_1_record_located Y mrs :
  0 <= shr_m mrs -> located Y (shr_m mrs) (loc_of_shr_record mrs) ->
  located (Y / 2) (shr_m (shr_1 mrs)) (loc_of_shr_record (shr_1 mrs)).
Proof.
  destruct mrs as [m r s]. cbn [shr_m]. intros Hm Hloc.
  destruct m as [| p |]; [| | lia].
  - destruct r, s; simpl in *; lra.
  - destruct p as [p | p |].
    + assert (Hval : IZR (Z.pos p~1) = (2 * IZR (Z.pos p) + 1)%R).
      { rewrite Pos2Z.inj_xI, plus_IZR, mult_IZR. reflexivity. }
      unfold located in Hloc. cbn [loc_of_shr_record] in Hloc.
      destruct r, s; simpl in *; rewrite Hval in Hloc; lra.
    + assert (Hval : IZR (Z.pos p~0) = (2 * IZR (Z.pos p))%R).
      { rewrite Pos2Z.inj_xO, mult_IZR. reflexivity. }
      unfold located in Hloc. cbn [loc_of_shr_record] in Hloc.
      destruct r, s; simpl in *; rewrite Hval in Hloc; lra.
    + destruct r, s; simpl in *; lra.
Qed.

Lemma iter_shr_1_located k Y mrs :
  0 <= shr_m mrs -> located Y (shr_m mrs) (loc_of_shr_record mrs) ->
  located (Y * bpow (- Z.of_nat k)) (shr_m (Nat.iter k shr_1 mrs))
    (loc_of_shr_record (Nat.iter k shr_1 mrs)).
Proof.
  intros Hm Hloc. induction k as [| k IH].
  - cbn [Nat.iter]. change (bpow (- Z.of_nat 0)) with 1%R. rewrite Rmult_1_r. exact Hloc.
  - simpl Nat.iter.
    replace (Y * bpow (- Z.of_nat (S k)))%R with (Y * bpow (- Z.of_nat k) / 2)%R.
    + apply shr_1_record_located; [| exact IH].
      rewrite iter_shr_1_m by exact Hm. apply Z.div_pos; lia.
    + rewrite Nat2Z.inj_succ. replace (- Z.succ (Z.of_nat k)) with (- Z.of_nat k + -1) by lia.
      rewrite bpow_add, bpow_m1. field.
Qed.

(** Shifting an exact mantissa to the right: where the exact quotient lies. *)
Lemma shr_located m e n :
  0 <= m -> 0 <= n ->
  exists mrs,
    shr (shr_record_of_loc m loc_Exact) e n = (mrs, e + n)
    /\ 0 <= shr_m mrs
    /\ located (IZR m * bpow (- n)) (shr_m mrs) (loc_of_shr_record mrs).
Proof.
  intros Hm Hn. unfold shr. destruct n as [| p | p]; [| | lia].
  - exists (shr_record_of_loc m loc_Exact). rewrite Z.add_0_r.
    split; [reflexivity |]. split; [exact Hm |].
    simpl. rewrite Rmult_1_r. reflexivity.
  - exists (SpecFloat.iter_pos shr_1 p (shr_record_of_loc m loc_Exact)).
    split; [reflexivity |]. rewrite iter_pos_nat.
    assert (Hm0 : shr_m (shr_record_of_loc m loc_Exact) = m) by reflexivity.
    split.
    + rewrite iter_shr_1_m by (rewrite Hm0; exact Hm). rewrite Hm0.
      apply Z.div_pos; [exact Hm | apply Z.pow_pos_nonneg; lia].
    + rewrite <- (positive_nat_Z p). apply iter_shr_1_located.
      * rewrite Hm0; exact Hm.
      * simpl. reflexivity.
Qed.

(** Rounding any positive mantissa: nearest, ties to even, on the grid of
    its exponent. *)
Lemma binary_round_located sx m ex :
  let fe := fexp 53 1024 (Zpos (digits2_pos m) + ex) in
  exists m' l,
    located (F2R (Zpos m) ex * bpow (- fe)) m' l
    /\ 0 <= m' < 2 ^ 53
    /\ binary_round 53 1024 sx m ex = finish sx (round_nearest_even m' l) fe.
Proof.
  intros fe.
  destruct (shl_align_fexp m ex) as (mz & e1 & Hal & He1 & He1x & Hmz & Hdz).
  fold fe in Hal, He1.
  assert (Hfed : Zpos (digits2_pos m) + ex - 53 <= fe) by (unfold fe; rewrite fexp_eq; lia).
  unfold binary_round.
  change (fexp 53 1024 (Z.pos (digits2_pos m) + ex)) with fe. rewrite Hal.
  unfold binary_round_aux, shr_fexp at 1. rewrite Hdz.
  change (fexp 53 1024 (Z.pos (digits2_pos m) + ex)) with fe.
  set (n := fe - e1). assert (Hn : 0 <= n) by (unfold n; lia).
  destruct (shr_located (Zpos mz) e1 n ltac:(lia) Hn) as (mrs & Hshr & Hm0 & Hloc).
  destruct (shr_exact (Zpos mz) e1 n ltac:(lia)) as (mrs' & Hshr' & Hdiv & _).
  replace (Z.max n 0) with n in * by lia.
  rewrite Hshr in Hshr'. injection Hshr' as <-.
  rewrite Hshr. replace (e1 + n) with fe by (unfold n; lia).
  exists (shr_m mrs), (loc_of_shr_record mrs). split; [| split; [| reflexivity]].
  - replace (F2R (Zpos m) ex * bpow (- fe))%R with (IZR (Zpos mz) * bpow (- n))%R;
      [exact Hloc |].
    rewrite Hmz, <- F2R_0, F2R_shift by lia. unfold F2R.
    rewrite !Rmult_assoc, <- !bpow_add. f_equal. f_equal. unfold n. lia.
  - split; [exact Hm0 |]. rewrite Hdiv.
    assert (Hp : 0 < 2 ^ n) by (apply Z.pow_pos_nonneg; lia).
    pose proof (Zdigits2_bounds (Zpos mz) ltac:(lia)) as [_ Hdhi].
    apply Z.div_lt_upper_bound; [exact Hp |].
    apply Z.lt_le_trans with (2 ^ Zdigits2 (Zpos mz)); [exact Hdhi |].
    rewrite <- Z.pow_add_r by lia. apply Z.pow_le_mono_r; [lia | unfold n; lia].
Qed.

Lemma cond_Zopp_F2R sx m e : F2R (cond_Zopp sx m) e = (if sx then - F2R m e else F2R m e)%R.
Proof. destruct sx; simpl; [| reflexivity]. unfold F2R. rewrite opp_IZR. ring. Qed.

(** The value [finish] gives to a rounded mantissa, away from overflow. *)
Lemma finish_val sx m1 fe :
  0 <= m1 <= 2 ^ 53 -> -1074 <= fe -> fe + 1 <= 971 ->
  is_number (finish sx m1 fe) = true
  /\ val (finish sx m1 fe) = F2R (cond_Zopp sx m1) fe.
Proof.
  intros Hm1 Hfe Hmax. unfold finish, shr_fexp.
  set (n2 := fexp 53 1024 (Zdigits2 m1 + fe) - fe).
  destruct (shr_exact m1 fe n2 ltac:(lia)) as (mrs2 & Hshr2 & Hm2 & _).
  rewrite Hshr2, Hm2.
  destruct (Z_lt_le_dec m1 (2 ^ 53)) as [Hlt | Hge].
  - assert (Hn2 : Z.max n2 0 = 0).
    { pose proof (Zdigits2_le_53 m1 ltac:(lia)). unfold n2. rewrite fexp_eq. lia. }
    rewrite Hn2, Z.add_0_r. simpl (2 ^ 0). rewrite Z.div_1_r.
    destruct m1 as [| p1 | p1]; [| | lia].
    + split; [reflexivity |]. rewrite cond_Zopp_F2R. unfold val, F2R.
      destruct sx; rewrite ?Rmult_0_l; lra.
    + replace (fe <=? 1024 - 53) with true by (symmetry; apply Z.leb_le; lia).
      split; reflexivity.
  - assert (Hm1' : m1 = 2 ^ 53) by lia.
    assert (Hn2 : Z.max n2 0 = 1).
    { unfold n2. rewrite Hm1', fexp_eq. change (Zdigits2 (2 ^ 53)) with 54. lia. }
    rewrite Hn2, Hm1'. change (2 ^ 53 / 2 ^ 1) with (Zpos (2 ^ 52)).
    replace (fe + 1 <=? 1024 - 53) with true by (symmetry; apply Z.leb_le; lia).
    split; [reflexivity |]. cbn [val].
    rewrite !cond_Zopp_F2R.
    change (2 ^ 53) with (Zpos (2 ^ 52) * 2 ^ 1).
    rewrite F2R_shift by lia. reflexivity.
Qed.

(** The exponent of the grid on which a positive value is rounded. *)
Lemma fexp_of_value m ex g :
  -1074 <= g ->
  (bpow (52 + g) <= F2R (Zpos m) ex < bpow (53 + g))%R ->
  fexp 53 1024 (Zpos (digits2_pos m) + ex) = g.
Proof.
  intros Hg [Hlo Hhi].
  pose proof (digits2_pos_bounds m) as [Hdlo Hdhi].
  set (d := Zpos (digits2_pos m)) in *.
  assert (Hd : 1 <= d) by (unfold d; lia).
  assert (Hvlo : (bpow (d - 1 + ex) <= F2R (Zpos m) ex)%R).
  { rewrite <- F2R_bpow by lia. apply F2R_le. exact Hdlo. }
  assert (Hvhi : (F2R (Zpos m) ex < bpow (d + ex))%R).
  { rewrite <- F2R_bpow by lia. apply F2R_lt. exact Hdhi. }
  assert (Hmag : d + ex = 53 + g).
  { destruct (Z.lt_trichotomy (d + ex) (53 + g)) as [Hlt | [Heq | Hgt]]; [| exact Heq |].
    - assert (bpow (d + ex) <= bpow (52 + g))%R by (apply bpow_le; lia). lra.
    - assert (bpow (53 + g) <= bpow (d - 1 + ex))%R by (apply bpow_le; lia). lra. }
  rewrite fexp_eq. lia.
Qed.

Lemma fexp_of_small_value m ex g :
  -1074 <= g -> (F2R (Zpos m) ex < bpow (53 + g))%R ->
  fexp 53 1024 (Zpos (digits2_pos m) + ex) <= g.
Proof.
  intros Hg Hhi.
  pose proof (digits2_pos_bounds m) as [Hdlo Hdhi].
  set (d := Zpos (digits2_pos m)) in *.
  assert (Hd : 1 <= d) by (unfold d; lia).
  assert (Hvlo : (bpow (d - 1 + ex) <= F2R (Zpos m) ex)%R).
  { rewrite <- F2R_bpow by lia. apply F2R_le. exact Hdlo. }
  assert (Hmag : d + ex <= 53 + g).
  { destruct (Z_lt_le_dec (53 + g) (d + ex)) as [Hgt | Hle]; [| exact Hle].
    assert (bpow (53 + g) <= bpow (d - 1 + ex))%R by (apply bpow_le; lia). lra. }
  rewrite fexp_eq. lia.
Qed.

(** A value within half a step below [P * 2^g], with [P] even, rounds up to it. *)
Lemma rounds_up_to m ex P g K :
  2 ^ 52 < P <= 2 ^ 53 -> Z.even P = true -> -1074 <= g -> g + 1 <= 971 ->
  IZR K = F2R P g ->
  (IZR K - bpow (g - 1) <= F2R (Zpos m) ex < IZR K)%R ->
  Py.float_lt_int (binary_round 53 1024 false m ex) K = false.
Proof.
  intros HP Heven Hg Hmax HK [Hlo Hhi].
  set (Y := F2R (Zpos m) ex) in *.
  pose proof (bpow_pos g) as Hbg.
  assert (Hhalf : bpow (g - 1) = (bpow g / 2)%R).
  { replace (g - 1) with (g + -1) by lia. rewrite bpow_add, bpow_m1. field. }
  assert (HPr : (IZR (2 ^ 52) + 1 <= IZR P <= IZR (2 ^ 53))%R).
  { split; [rewrite <- plus_IZR; apply IZR_le; lia | apply IZR_le; lia]. }
  assert (H52 : bpow (52 + g) = (IZR (2 ^ 52) * bpow g)%R).
  { rewrite bpow_add, (bpow_IZR 52) by lia. reflexivity. }
  assert (H53 : bpow (53 + g) = (IZR (2 ^ 53) * bpow g)%R).
  { rewrite bpow_add, (bpow_IZR 53) by lia. reflexivity. }
  unfold F2R in HK. rewrite Hhalf, HK in Hlo. rewrite HK in Hhi.
  set (c52 := IZR (2 ^ 52)) in *. set (c53 := IZR (2 ^ 53)) in *.
  assert (Hfe : fexp 53 1024 (Zpos (digits2_pos m) + ex) = g).
  { apply fexp_of_value; [exact Hg |]. fold Y. rewrite H52, H53. fold c52 c53. nra. }
  destruct (binary_round_located false m ex) as (m' & l & Hloc & _ & Hr).
  rewrite Hfe in Hloc, Hr. fold Y in Hloc.
  set (y := (Y * bpow (- g))%R) in *.
  assert (Hy : (IZR P - / 2 <= y < IZR P)%R).
  { unfold y. pose proof (bpow_pos (- g)) as Hbg'. pose proof (bpow_opp g) as Hinv.
    assert (Hlo' : ((IZR P * bpow g - bpow g / 2) * bpow (- g) <= Y * bpow (- g))%R)
      by (apply Rmult_le_compat_r; lra).
    assert (Hhi' : (Y * bpow (- g) < IZR P * bpow g * bpow (- g))%R)
      by (apply Rmult_lt_compat_r; lra).
    replace ((IZR P * bpow g - bpow g / 2) * bpow (- g))%R
      with ((IZR P - / 2) * (bpow g * bpow (- g)))%R in Hlo' by field.
    replace (IZR P * bpow g * bpow (- g))%R
      with (IZR P * (bpow g * bpow (- g)))%R in Hhi' by ring.
    rewrite Hinv in Hlo', Hhi'. lra. }
  assert (Hm' : m' = P - 1).
  { pose proof (located_bounds _ _ _ Hloc) as [Hb1 Hb2].
    assert (IZR m' < IZR P)%R by lra.
    assert (IZR (P - 2) < IZR m')%R by (rewrite minus_IZR; lra).
    apply lt_IZR in H. apply lt_IZR in H0. lia. }
  assert (Hm1 : round_nearest_even m' l = P).
  { subst m'. unfold located in Hloc. rewrite minus_IZR in Hloc.
    destruct l as [| []]; simpl.
    - lra.
    - change (IntDef.Z.even (P - 1)) with (Z.even (P - 1)).
      rewrite Z.even_sub, Heven. simpl. lia.
    - lra.
    - lia. }
  rewrite Hr, Hm1.
  destruct (finish_val false P g ltac:(lia) Hg Hmax) as [Hnum Hval].
  destruct (Py.float_lt_int (finish false P g) K) eqn:Hlt; [| reflexivity].
  apply (float_lt_int_val _ K Hnum) in Hlt. rewrite Hval in Hlt. cbn [cond_Zopp] in Hlt.
  unfold F2R in Hlt. lra.
Qed.

Lemma round_nearest_even_located y m' l :
  located y m' l ->
  (IZR (round_nearest_even m' l) - / 2 <= y <= IZR (round_nearest_even m' l) + / 2)%R
  /\ m' <= round_nearest_even m' l <= m' + 1.
Proof.
  intros Hloc. unfold located in Hloc.
  destruct l as [| []]; simpl.
  - split; [lra | lia].
  - change (IntDef.Z.even m') with (Z.even m').
    destruct (Z.even m'); [split; [lra | lia] |].
    rewrite plus_IZR. split; [lra | lia].
  - split; [lra | lia].
  - rewrite plus_IZR. split; [lra | lia].
Qed.

(** The rounding error of a value below 2^(53+g): at most half a step of the
    grid 2^g. *)
Lemma round_error sx m ex g :
  -1074 <= g -> g + 1 <= 971 ->
  (F2R (Zpos m) ex < bpow (53 + g))%R ->
  is_number (binary_round 53 1024 sx m ex) = true
  /\ (F2R (cond_Zopp sx (Zpos m)) ex - bpow (g - 1)
      <= val (binary_round 53 1024 sx m ex)
      <= F2R (cond_Zopp sx (Zpos m)) ex + bpow (g - 1))%R.
Proof.
  intros Hg Hmax Hsmall.
  pose proof (fexp_of_small_value m ex g Hg Hsmall) as Hfe.
  destruct (binary_round_located sx m ex) as (m' & l & Hloc & Hm' & Hr).
  set (fe := fexp 53 1024 (Zpos (digits2_pos m) + ex)) in *.
  assert (Hfe0 : -1074 <= fe) by (unfold fe; rewrite fexp_eq; lia).
  destruct (round_nearest_even_located _ _ _ Hloc) as [Hnear Hm1].
  set (m1 := round_nearest_even m' l) in *.
  destruct (finish_val sx m1 fe ltac:(lia) Hfe0 ltac:(lia)) as [Hnum Hval].
  rewrite Hr. split; [exact Hnum |]. rewrite Hval, !cond_Zopp_F2R.
  set (u := F2R (Zpos m) ex) in *.
  assert (Hstep : (bpow (fe - 1) <= bpow (g - 1))%R) by (apply bpow_le; lia).
  assert (Hhalf : bpow (fe - 1) = (bpow fe / 2)%R).
  { replace (fe - 1) with (fe + -1) by lia. rewrite bpow_add, bpow_m1. field. }
  pose proof (bpow_pos fe) as Hbfe. pose proof (bpow_opp fe) as Hinv.
  assert (Hu : (F2R m1 fe - bpow fe / 2 <= u <= F2R m1 fe + bpow fe / 2)%R).
  { unfold F2R. destruct Hnear as [Hn1 Hn2].
    assert (H1 : ((IZR m1 - / 2) * bpow fe <= u * bpow (- fe) * bpow fe)%R)
      by (apply Rmult_le_compat_r; lra).
    assert (H2 : (u * bpow (- fe) * bpow fe <= (IZR m1 + / 2) * bpow fe)%R)
      by (apply Rmult_le_compat_r; lra).
    replace (u * bpow (- fe) * bpow fe)%R with (u * (bpow fe * bpow (- fe)))%R in H1, H2
      by ring.
    rewrite Hinv in H1, H2. lra. }
  destruct sx; lra.
Qed.

(** A value that is a double rounds to itself. *)
Lemma round_exact sx m ex N e0 :
  0 < N < 2 ^ 53 -> -1074 <= e0 ->
  F2R (Zpos m) ex = F2R N e0 -> (F2R (Zpos m) ex < bpow 53)%R ->
  is_number (binary_round 53 1024 sx m ex) = true
  /\ val (binary_round 53 1024 sx m ex) = F2R (cond_Zopp sx (Zpos m)) ex.
Proof.
  intros HN He0 Hrep Hsmall.
  assert (Hfe0' : fexp 53 1024 (Zpos (digits2_pos m) + ex) <= 0).
  { apply fexp_of_small_value; [lia | exact Hsmall]. }
  assert (Hfe1 : fexp 53 1024 (Zpos (digits2_pos m) + ex) <= e0).
  { apply fexp_of_small_value; [exact He0 |]. rewrite Hrep.
    rewrite <- F2R_bpow by lia. apply F2R_lt. lia. }
  destruct (binary_round_located sx m ex) as (m' & l & Hloc & Hm' & Hr).
  set (fe := fexp 53 1024 (Zpos (digits2_pos m) + ex)) in *.
  assert (Hfe0 : -1074 <= fe) by (unfold fe; rewrite fexp_eq; lia).
  assert (Hint : (F2R (Zpos m) ex * bpow (- fe) = IZR (N * 2 ^ (e0 - fe)))%R).
  { rewrite Hrep. replace e0 with (fe + (e0 - fe)) at 1 by lia.
    rewrite <- F2R_shift by lia. unfold F2R.
    rewrite Rmult_assoc, bpow_opp, Rmult_1_r. reflexivity. }
  rewrite Hint in Hloc.
  assert (Hexact : located (IZR (N * 2 ^ (e0 - fe))) (N * 2 ^ (e0 - fe)) loc_Exact)
    by reflexivity.
  destruct (located_unique _ _ _ _ _ Hloc Hexact) as [Hm'eq ->].
  simpl round_nearest_even in Hr.
  destruct (finish_val sx m' fe ltac:(lia) Hfe0 ltac:(lia)) as [Hnum Hval].
  rewrite Hr. split; [exact Hnum |]. rewrite Hval, !cond_Zopp_F2R.
  assert (HF : F2R m' fe = F2R (Zpos m) ex).
  { rewrite Hm'eq, F2R_shift by lia. rewrite Hrep. f_equal. lia. }
  rewrite HF. reflexivity.
Qed.

(** An integer below 2^52 on the grid just below it: an even multiple. *)
Lemma grid_below D :
  0 < D < 2 ^ 52 ->
  exists P g,
    2 ^ 52 < P <= 2 ^ 53 /\ Z.even P = true /\ -1074 <= g /\ g <= -1
    /\ IZR D = F2R P g.
Proof.
  intros HD.
  pose proof (Zdigits2_bounds D ltac:(lia)) as [Hlo Hhi].
  set (k := Zdigits2 D - 1) in *.
  replace (Zdigits2 D) with (k + 1) in Hhi by (unfold k; lia).
  assert (Hk0 : 0 <= k).
  { unfold k. destruct D as [| p | p]; try lia.
    change (Zdigits2 (Zpos p)) with (Zpos (digits2_pos p)). lia. }
  assert (Hk : k <= 51).
  { destruct (Z_lt_le_dec 51 k) as [Hgt | Hle]; [| exact Hle].
    assert (2 ^ 52 <= 2 ^ k) by (apply Z.pow_le_mono_r; lia). lia. }
  destruct (Z.eq_dec D (2 ^ k)) as [Heq | Hne].
  - exists (2 ^ 53), (k - 53).
    split; [change (2 ^ 52) with 4503599627370496; change (2 ^ 53) with 9007199254740992; lia |].
    split; [reflexivity |]. split; [lia |]. split; [lia |].
    rewrite F2R_bpow by lia. rewrite Heq, <- bpow_IZR by lia. f_equal. lia.
  - exists (D * 2 ^ (52 - k)), (k - 52).
    assert (Hp : 0 < 2 ^ (52 - k)) by (apply Z.pow_pos_nonneg; lia).
    assert (H52 : 2 ^ 52 = 2 ^ k * 2 ^ (52 - k)).
    { rewrite <- Z.pow_add_r by lia. f_equal. lia. }
    assert (H53 : 2 ^ 53 = 2 ^ (k + 1) * 2 ^ (52 - k)).
    { rewrite <- Z.pow_add_r by lia. f_equal. lia. }
    split; [rewrite H52, H53; nia |].
    split.
    + rewrite Z.even_mul. apply orb_true_iff. right.
      replace (52 - k) with (1 + (51 - k)) by lia.
      rewrite Z.pow_add_r by lia. rewrite Z.even_mul. reflexivity.
    + split; [lia |]. split; [lia |].
      rewrite F2R_shift by lia. replace (k - 52 + (52 - k)) with 0 by lia.
      symmetry. apply F2R_0.
Qed.

(** A double below [P * 2^g] is at least one step of that grid below it. *)
Lemma double_below_grid mt et P g :
  Zpos mt < 2 ^ 53 -> 2 ^ 52 < P ->
  (F2R (Zpos mt) et < F2R P g)%R -> (F2R (Zpos mt) et <= F2R (P - 1) g)%R.
Proof.
  intros Hmt HP Hlt.
  destruct (Z_lt_le_dec et g) as [Hsmall | Hbig].
  - apply Rle_trans with (F2R (2 ^ 53) et); [apply F2R_le; lia |].
    apply Rle_trans with (F2R (2 ^ 52) g); [| apply F2R_le; lia].
    rewrite !F2R_bpow by lia. apply bpow_le. lia.
  - assert (Hsh : F2R (Zpos mt) et = F2R (Zpos mt * 2 ^ (et - g)) g).
    { rewrite F2R_shift by lia. f_equal. lia. }
    rewrite Hsh in *. apply F2R_lt_inv in Hlt. apply F2R_le. lia.
Qed.

Lemma val_nonneg_sign s m e : (0 <= val (S754_finite s m e))%R -> s = false.
Proof.
  destruct s; [| reflexivity]. unfold val.
  change (cond_Zopp true (Zpos m)) with (Zneg m). rewrite F2R_neg.
  intros H. pose proof (F2R_lt 0 (Zpos m) e ltac:(lia)) as Hpos.
  unfold F2R at 1 in Hpos. rewrite Rmult_0_l in Hpos. lra.
Qed.

(** The elapsed time measured from a start time moved back by [D] seconds
    is never below [D]. *)
Lemma stop_then_elapsed now t0 D :
  is_double t0 = true -> is_number now = true ->
  0 < D < 2 ^ 52 ->
  (0 <= val t0 < IZR (2 ^ 53))%R -> (val t0 <= val now)%R ->
  Py.float_lt_int (Py.fsub now (Py.fsub t0 (Py.Z2F D))) D = false.
Proof.
  intros Ht0 Hnow HD [Ht0lo Ht0hi] Hle.
  assert (HD53 : 0 < D < 2 ^ 53).
  { split; [lia |]. apply Z.lt_trans with (2 ^ 52); [lia | reflexivity]. }
  destruct (Z2F_exact D HD53) as (mD & eD & [HZ _] & _ & HvD).
  rewrite HZ.
  assert (HDr : (1 <= IZR D)%R) by (apply IZR_le; lia).
  destruct t0 as [s0 | s0 | | s0 mt et]; try discriminate Ht0.
  - (* the start time is zero *)
    change (Py.fsub (S754_zero s0) (S754_finite false mD eD)) with (S754_finite true mD eD).
    apply fsub_ge; [exact Hnow | reflexivity | exact HD53 |].
    unfold val at 2. change (cond_Zopp true (Zpos mD)) with (Zneg mD).
    rewrite F2R_neg, HvD. cbn [val] in Hle. lra.
  - pose proof (val_nonneg_sign _ _ _ Ht0lo) as ->.
    cbn [is_double] in Ht0. apply andb_true_iff in Ht0. destruct Ht0 as [Hmt Het].
    apply Z.ltb_lt in Hmt. apply Z.leb_le in Het.
    destruct (fsub_finite false mt et false mD eD) as (M & ez & Hsub & HF).
    rewrite Hsub.
    set (v0 := val (S754_finite false mt et)) in *.
    assert (Hv0 : v0 = F2R (Zpos mt) et) by reflexivity.
    assert (Hv0pos : (0 < v0)%R) by (rewrite Hv0; apply F2R_pos).
    replace (val (S754_finite false mD eD)) with (IZR D) in HF by (symmetry; exact HvD).
    unfold binary_normalize. destruct M as [| m | m].
    + (* the start time is [D] itself *)
      unfold F2R in HF. rewrite Rmult_0_l in HF.
      apply fsub_ge; [exact Hnow | reflexivity | exact HD53 |]. cbn [val]. lra.
    + (* the start time is above [D]: the difference is exact *)
      pose proof (F2R_pos m ez) as Hupos.
      set (e0 := Z.min et 0).
      set (N := Zpos mt * 2 ^ (et - e0) - D * 2 ^ (- e0)).
      assert (HN : F2R N e0 = F2R (Zpos m) ez).
      { unfold N. rewrite F2R_sub, !F2R_shift by (unfold e0; lia).
        replace (e0 + (et - e0)) with et by lia. replace (e0 + - e0) with 0 by lia.
        rewrite F2R_0, HF, Hv0. reflexivity. }
      assert (HN0 : 0 < N).
      { apply (F2R_lt_inv 0 N e0). rewrite HN. unfold F2R at 1. rewrite Rmult_0_l.
        exact Hupos. }
      assert (HN53 : N < 2 ^ 53).
      { assert (Hp : 0 < 2 ^ (- e0)) by (apply Z.pow_pos_nonneg; unfold e0; lia).
        assert (Hmt' : Zpos mt * 2 ^ (et - e0) < 2 ^ 53 + 1).
        { destruct (Z_le_gt_dec et 0) as [Hneg | Hposi].
          - replace (et - e0) with 0 by (unfold e0; lia). lia.
          - replace (et - e0) with et by (unfold e0; lia).
            assert (Hint : v0 = IZR (Zpos mt * 2 ^ et)).
            { rewrite Hv0, <- F2R_0, F2R_shift by lia. reflexivity. }
            rewrite Hint in Ht0hi. apply lt_IZR in Ht0hi. lia. }
        unfold N. nia. }
      assert (Hsmall : (F2R (Zpos m) ez < bpow 53)%R).
      { rewrite (bpow_IZR 53) by lia. lra. }
      destruct (round_exact false m ez N e0 (conj HN0 HN53) ltac:(unfold e0; lia)
                  (eq_sym HN) Hsmall) as [Hnum Hval].
      apply fsub_ge; [exact Hnow | exact Hnum | exact HD53 |].
      rewrite Hval. change (cond_Zopp false (Zpos m)) with (Zpos m). lra.
    + (* the start time is below [D]: the difference is rounded *)
      rewrite F2R_neg in HF.
      pose proof (F2R_pos m ez) as Hupos.
      set (u := F2R (Zpos m) ez) in *.
      destruct (grid_below D HD) as (P & g & HP & Heven & Hg & Hg1 & HDg).
      assert (Hstep : (v0 <= F2R (P - 1) g)%R).
      { rewrite Hv0. apply double_below_grid; [exact Hmt | lia |].
        rewrite <- HDg, <- Hv0. lra. }
      rewrite F2R_sub, <- HDg in Hstep. unfold F2R at 1 in Hstep.
      rewrite Rmult_1_l in Hstep.
      assert (Hhalf : bpow g = (2 * bpow (g - 1))%R).
      { replace g with (g - 1 + 1) at 1 by lia. rewrite bpow_add.
        change (bpow 1) with (IZR 2 * 1)%R. ring. }
      pose proof (bpow_pos (g - 1)) as Hbpos.
      assert (Hbsmall : (bpow (g - 1) <= / 2)%R).
      { rewrite <- bpow_m1. apply bpow_le. lia. }
      assert (Hu53 : (u < bpow (53 + g))%R).
      { apply Rlt_le_trans with (IZR D); [lra |]. rewrite HDg, <- F2R_bpow by lia.
        apply F2R_le. lia. }
      destruct (round_error true m ez g Hg ltac:(lia) Hu53) as [Hnum [Hrlo Hrhi]].
      change (cond_Zopp true (Zpos m)) with (Zneg m) in Hrlo, Hrhi.
      rewrite F2R_neg in Hrlo, Hrhi. fold u in Hrlo, Hrhi.
      set (r := binary_round 53 1024 true m ez) in *.
      destruct (Rle_lt_dec (IZR D) (val now - val r)) as [Hover | Hunder].
      { apply fsub_ge; [exact Hnow | exact Hnum | exact HD53 | exact Hover]. }
      destruct r as [sr | sr | | sr mr er] eqn:Hr; try discriminate Hnum.
      { cbn [val] in Hrhi. lra. }
      destruct now as [sn | sn | | sn mn en]; try discriminate Hnow.
      { cbn [val] in Hle. lra. }
      destruct (fsub_finite sn mn en sr mr er) as (M2 & ez2 & Hsub2 & HF2).
      rewrite Hsub2.
      set (Y := (val (S754_finite sn mn en) - val (S754_finite sr mr er))%R) in *.
      assert (HY : (IZR D - bpow (g - 1) <= Y)%R) by (unfold Y; lra).
      unfold binary_normalize. destruct M2 as [| m2 | m2].
      * unfold F2R in HF2. rewrite Rmult_0_l in HF2. lra.
      * apply (rounds_up_to m2 ez2 P g D HP Heven Hg ltac:(lia) HDg).
        rewrite HF2. split; [exact HY | exact Hunder].
      * rewrite F2R_neg in HF2. pose proof (F2R_pos m2 ez2). lra.
Qed.

(** X21.  [stop] ends a finite playback.  After a [play] that returned at
    the clock reading [started], a double that is not negative and below
    2^53, with a finite loop count and a total time [_duration * _loop]
    between 1 and 2^52 seconds: when the background colour is one pygame
    takes, [stop] returns and [is_playing] then answers false at every clock
    reading that is not before [started].  [stop] moves [_start_time] back by
    the total time and [is_playing] subtracts it again: both subtractions
    round, and the second rounding never brings the elapsed time below the
    total.  On any other background colour [stop] raises ValueError at the
    fill and changes nothing, so the playback goes on. *)
Theorem stop_ends_a_finite_playback :
  forall disk fuel image loop started s s1 block_timeout_sec later,
    play disk fuel image loop started s = (Return tt, s1) ->
    is_double started = true -> is_number later = true ->
    let total := _duration (self s) * normalized_loop image loop in
    -1 < normalized_loop image loop -> 0 < total < 2 ^ 52 ->
    (0 <= val started < IZR (2 ^ 53))%R -> (val started <= val later)%R ->
    (valid_color (_bgcolor (self s)) = true ->
     fst (stop block_timeout_sec s1) = Return tt
     /\ fst (is_playing later (snd (stop block_timeout_sec s1))) = Return false)
    /\ (valid_color (_bgcolor (self s)) = false ->
        stop block_timeout_sec s1 = (Raise ValueError, s1)).
Proof.
  intros disk fuel image loop started [p w] [p1 w1] b later Hplay Hstarted Hlater total
    Hloop Htotal Hrange Hle.
  apply play_Return_settings in Hplay. cbn [self] in *.
  unfold settings in Hplay.
  cbn [_duration _size _bgcolor _scale _center _wait_time _bgimage _loop _start_time
       _cache_size_limit set_start_time set_loop] in Hplay.
  injection Hplay as Hd _ Hbg _ _ Hwt _ Hl Hs _.
  assert (Htot : _duration p1 * _loop p1 = total) by (rewrite Hd, Hl; reflexivity).
  assert (Htotal53 : 0 < total < 2 ^ 53).
  { split; [lia |]. apply Z.lt_trans with (2 ^ 52); [lia | reflexivity]. }
  destruct (Z2F_exact total Htotal53) as (mD & eD & [HZ _] & _ & _).
  rewrite stop_eq, Hbg.
  split; intros Hvalid; rewrite Hvalid; [| reflexivity].
  rewrite Hs, Htot. unfold Py.num_sub_int, Py.float_of_int. rewrite HZ.
  cbn [fst snd]. split; [reflexivity |].
  rewrite is_playing_eq.
  cbn [_loop _duration _start_time set_start_time].
  rewrite Htot, Hl.
  destruct (normalized_loop image loop <=? -1) eqn:Hcmp; [apply Z.leb_le in Hcmp; lia |].
  unfold Py.float_sub_num. rewrite <- HZ.
  rewrite (stop_then_elapsed later started total Hstarted Hlater Htotal Hrange Hle).
  apply answered_valid. cbn [_bgcolor set_start_time]. rewrite Hbg. exact Hvalid.
Qed.

(** Three loops of ten seconds started at clock 0.1 and stopped at once. *)
Lemma stop_ends_a_finite_playback_witness :
  let s := mkState (demo_player 4 true true) fresh_world in
  let started := S754_finite false 3602879701896397 (-55) in
  let s1 := snd (play demo_disk 5 (mkImage "wide.png" 3) None started s) in
  fst (stop 0 s1) = Return tt
  /\ fst (is_playing started (snd (stop 0 s1))) = Return false.
Proof.
  intros s started s1.
  apply (stop_ends_a_finite_playback demo_disk 5 (mkImage "wide.png" 3) None started
           s s1 0 started).
  - vm_compute. reflexivity.
  - reflexivity.
  - reflexivity.
  - vm_compute. reflexivity.
  - vm_compute. split; reflexivity.
  - unfold started, val, F2R, bpow. cbn [cond_Zopp]. simpl powerRZ.
    split; lra.
  - apply Rle_refl.
  - reflexivity.
Defined.

(** ** Scaling to the display *)











